(** * iiod/ops.c: the device-session multiplexer of the IIO daemon

    A shallow embedding of [write_all], [read_thd], [read_buffer],
    [get_device] and [read_dev_attr], and the properties the design
    document states about them.

    Conventions.
    - C integers are values of [Z], for an LP64 platform; every conversion
      to an unsigned type is written out ([u32] for [unsigned int], [u64]
      for [unsigned long] and [size_t]).  [ssize_t] values are kept as they
      are.
    - A [FILE *] is an index into the store [files] of the [World]; what has
      been pushed through a stream is kept as the list of the calls that
      wrote to it.
    - The session list [devlist_head] and the per-session list
      [thdlist_head] are lists, most recently inserted entry first, as
      [SLIST_INSERT_HEAD] builds them.
    - What the code cannot decide by itself (the result of a hardware read,
      of [malloc], of [iio_device_open], the requests other threads make
      while the worker is not holding the locks) is given to each loop
      iteration as an [Env].
    - The worker is described twice.  [read_thd] is the worker as a
      sequential program: its two [SLIST_FOREACH] loops reach every record
      of the list, and it leaves in one piece.  [read_thd_racing] is the
      worker among the threads of the requests, which a [Schedule]
      describes: a record that the worker has signalled may be freed by its
      owner before the worker reads its [next] field, a signal may come
      before the owner waits for it, and requests may be served between
      the worker's last unlock and its [iio_device_close].  The properties
      of the worker's own trace are stated of [read_thd]; what the
      requests get is stated of [read_thd_racing]. *)

From Stdlib Require Import ZArith List Bool String Ascii Lia DecimalString.
From Stdlib Require Import Permutation.
Import ListNotations.
Local Open Scope Z_scope.

(** ** Integers, errno values, formatting *)

Definition u32 (z : Z) : Z := z mod 2 ^ 32.
Definition u64 (z : Z) : Z := z mod 2 ^ 64.

Definition EIO : Z := 5.
Definition ENOMEM : Z := 12.
Definition ENODEV : Z := 19.
Definition EINVAL : Z := 22.

Definition nl : string := String "010"%char EmptyString.

(** The text printed for a ["%i"] or ["%li"] conversion. *)
Definition fmt_int (z : Z) : string := NilZero.string_of_int (Z.to_int z).

(** ** Streams *)

(** One item per call that pushed something through the stream. *)
Inductive chunk : Type :=
| Printed (text : string)
| Written (bytes : list ascii).

(** [accepts] scripts the stream's future: its k-th element bounds how many
    bytes the k-th coming [fwrite] takes; once the script is used up the
    stream takes everything it is given. *)
Record FILE : Type := mkFILE {
  contents : list chunk;
  accepts : list nat
}.

Definition chunk_data (c : chunk) : Z :=
  match c with
  | Printed _ => 0
  | Written bytes => Z.of_nat (List.length bytes)
  end.

(** Number of payload bytes (those sent by [fwrite]) a stream has taken. *)
Definition data_bytes (f : FILE) : Z :=
  fold_right (fun c acc => chunk_data c + acc) 0 (contents f).

Definition status_lines (f : FILE) : list string :=
  flat_map (fun c => match c with Printed s => [s] | Written _ => [] end)
           (contents f).

Definition fprintf (text : string) (out : FILE) : FILE :=
  mkFILE (contents out ++ [Printed text]) (accepts out).

(** [fwrite(ptr, 1, len, out)]: the number of bytes taken, and the stream. *)
Definition fwrite (ptr : list ascii) (len : Z) (out : FILE) : Z * FILE :=
  match accepts out with
  | [] =>
      (len, mkFILE (contents out ++ [Written (firstn (Z.to_nat len) ptr)]) [])
  | k :: rest =>
      let n := Z.min (Z.of_nat k) len in
      (n, mkFILE (contents out ++ [Written (firstn (Z.to_nat n) ptr)]) rest)
  end.

(** The [while (len)] loop of [write_all]; [ptr] is the offset [ptr - src].
    Every turn either returns or lowers [len] by at least one, so [len]
    turns are enough ([write_all_loop_fuel]). *)
Fixpoint write_all_loop (fuel : nat) (src : list ascii) (ptr len : Z)
    (out : FILE) : Z * FILE :=
  match fuel with
  | O => (ptr, out)
  | S fuel' =>
      if len =? 0 then (ptr, out)
      else
        let '(ret, out') := fwrite (skipn (Z.to_nat ptr) src) len out in
        if ret =? 0 then (- EIO, out')
        else write_all_loop fuel' src (ptr + ret) (len - ret) out'
  end.

Definition write_all (src : list ascii) (len : Z) (out : FILE) : Z * FILE :=
  write_all_loop (Z.to_nat len) src 0 len out.

(** ** The hardware abstraction, as seen from ops.c *)

(** Modelled from the spec: [struct iio_device] is declared in iio.h, which
    is not part of the sources at hand; the design document says a device
    has a stable identifier and a human-readable name. *)
Record iio_device : Type := mk_iio_device {
  handle : nat;          (* the address of the [struct iio_device] *)
  dev_id : string;       (* [iio_device_get_id] *)
  dev_name : string      (* [iio_device_get_name] *)
}.

Definition iio_context : Type := list iio_device.

Definition get_device (ctx : iio_context) (id : string) : option iio_device :=
  find (fun dev => String.eqb id (dev_id dev) || String.eqb id (dev_name dev))
       ctx.

(** Modelled from the spec: [iio_device_read_raw] is not part of the
    sources at hand; the design document gives its contract as
    [read_raw(handle, buffer, max_len) -> bytes_read | negative error].
    The result is the bytes put in the buffer (the return value is their
    number) or a negative code [- errno]. *)
Inductive hw_result : Type :=
| HwData (bytes : list ascii)
| HwError (errno : positive).

Definition hw_ret (r : hw_result) : Z :=
  match r with
  | HwData bytes => Z.of_nat (List.length bytes)
  | HwError e => Z.neg e
  end.

Definition hw_buf (r : hw_result) : list ascii :=
  match r with
  | HwData bytes => bytes
  | HwError _ => []
  end.

(** ** Wait records, sessions and the shared state *)

(** [struct ThdEntry].  [tid] stands for the address [malloc] returned;
    [err] is [None] until somebody stores into the field (the code never
    initialises it); the condition variable is represented by the list
    [signalled] of the [World]. *)
Record ThdEntry : Type := mkThd {
  tid : nat;
  nb : Z;
  err : option Z;
  fd : nat;
  verbose : bool
}.

(** [struct DevEntry]; [dev] stands for the [struct iio_device *]. *)
Record DevEntry : Type := mkDev {
  dev : nat;
  sample_size : Z;
  thdlist_head : list ThdEntry;
  thdlist_lock : bool
}.

Inductive mutex : Type :=
| Devlist
| Thdlist (d : nat).

(** What the worker thread does that other threads can observe. *)
Inductive Event : Type :=
| Lock (m : mutex)
| Unlock (m : mutex)
| ReadRaw (d : nat) (len : Z)
| Open (d : nat)
| Close (d : nat).

(** The two lock fields say whether the worker under study holds the mutex:
    all other critical sections are executed in one piece. *)
Record World : Type := mkWorld {
  devlist_head : list DevEntry;
  devlist_lock : bool;
  files : nat -> FILE;
  signalled : list ThdEntry;    (* records whose [cond] has been signalled *)
  next_thd : nat;               (* the next address [malloc] returns *)
  trace : list Event
}.

Definition set_nb (n : Z) (thd : ThdEntry) : ThdEntry :=
  mkThd (tid thd) n (err thd) (fd thd) (verbose thd).
Definition set_err (e : Z) (thd : ThdEntry) : ThdEntry :=
  mkThd (tid thd) (nb thd) (Some e) (fd thd) (verbose thd).
Definition set_thdlist_head (l : list ThdEntry) (e : DevEntry) : DevEntry :=
  mkDev (dev e) (sample_size e) l (thdlist_lock e).
Definition set_thdlist_lock (b : bool) (e : DevEntry) : DevEntry :=
  mkDev (dev e) (sample_size e) (thdlist_head e) b.

Definition set_devlist_head (l : list DevEntry) (w : World) : World :=
  mkWorld l (devlist_lock w) (files w) (signalled w) (next_thd w) (trace w).
Definition set_devlist_lock (b : bool) (w : World) : World :=
  mkWorld (devlist_head w) b (files w) (signalled w) (next_thd w) (trace w).
Definition set_files (fs : nat -> FILE) (w : World) : World :=
  mkWorld (devlist_head w) (devlist_lock w) fs (signalled w) (next_thd w)
          (trace w).
Definition set_signalled (l : list ThdEntry) (w : World) : World :=
  mkWorld (devlist_head w) (devlist_lock w) (files w) l (next_thd w) (trace w).
Definition set_next_thd (n : nat) (w : World) : World :=
  mkWorld (devlist_head w) (devlist_lock w) (files w) (signalled w) n (trace w).
Definition set_trace (t : list Event) (w : World) : World :=
  mkWorld (devlist_head w) (devlist_lock w) (files w) (signalled w)
          (next_thd w) t.

Definition upd (fs : nat -> FILE) (k : nat) (f : FILE) : nat -> FILE :=
  fun k' => if Nat.eqb k' k then f else fs k'.

(** The session of device [d], as the [SLIST_FOREACH] scan finds it. *)
Definition find_entry (d : nat) (l : list DevEntry) : option DevEntry :=
  find (fun e => Nat.eqb (dev e) d) l.

Definition update_entry (d : nat) (f : DevEntry -> DevEntry)
    (l : list DevEntry) : list DevEntry :=
  map (fun e => if Nat.eqb (dev e) d then f e else e) l.

Definition remove_entry (d : nat) (l : list DevEntry) : list DevEntry :=
  filter (fun e => negb (Nat.eqb (dev e) d)) l.

Definition waiters (d : nat) (w : World) : list ThdEntry :=
  match find_entry d (devlist_head w) with
  | Some e => thdlist_head e
  | None => []
  end.

(** ** A state monad over the [World] *)

Definition M (A : Type) : Type := World -> A * World.

Definition pure {A : Type} (a : A) : M A := fun w => (a, w).

Definition bind {A B : Type} (m : M A) (k : A -> M B) : M B :=
  fun w => let '(a, w') := m w in k a w'.

Declare Scope ops_scope.
Delimit Scope ops_scope with ops.
Notation "x <- m ;; k" := (bind m (fun x => k))
  (at level 61, m at next level, right associativity) : ops_scope.
Notation "' pat <- m ;; k" := (bind m (fun x => match x with pat => k end))
  (at level 61, pat pattern, m at next level, right associativity) : ops_scope.
Notation "m ;; k" := (bind m (fun _ => k))
  (at level 61, right associativity) : ops_scope.
Local Open Scope ops_scope.

Definition emit (e : Event) : M unit :=
  fun w => (tt, set_trace (trace w ++ [e]) w).

Definition lock_devlist : M unit :=
  fun w => (tt, set_trace (trace w ++ [Lock Devlist]) (set_devlist_lock true w)).

Definition unlock_devlist : M unit :=
  fun w =>
    (tt, set_trace (trace w ++ [Unlock Devlist]) (set_devlist_lock false w)).

Definition lock_thdlist (d : nat) : M unit :=
  fun w =>
    (tt, set_trace (trace w ++ [Lock (Thdlist d)])
           (set_devlist_head
              (update_entry d (set_thdlist_lock true) (devlist_head w)) w)).

Definition unlock_thdlist (d : nat) : M unit :=
  fun w =>
    (tt, set_trace (trace w ++ [Unlock (Thdlist d)])
           (set_devlist_head
              (update_entry d (set_thdlist_lock false) (devlist_head w)) w)).

Definition get_thdlist (d : nat) : M (list ThdEntry) :=
  fun w => (waiters d w, w).

Definition put_thdlist (d : nat) (l : list ThdEntry) : M unit :=
  fun w =>
    (tt, set_devlist_head
           (update_entry d (set_thdlist_head l) (devlist_head w)) w).

Definition fprintf_fd (out : nat) (text : string) : M unit :=
  fun w => (tt, set_files (upd (files w) out (fprintf text (files w out))) w).

Definition write_all_fd (src : list ascii) (len : Z) (out : nat) : M Z :=
  fun w =>
    let '(r, f) := write_all src len (files w out) in
    (r, set_files (upd (files w) out f) w).

(** The call is logged, whether or not a thread is waiting on the
    condition; what the owner of the record makes of it is
    [read_buffer_wait]. *)
Definition pthread_cond_signal (thd : ThdEntry) : M unit :=
  fun w => (tt, set_signalled (signalled w ++ [thd]) w).

(** ** Requests of client threads *)

(** Modelled from the spec: [struct parser_pdata] is declared in parser.h,
    which is not part of the sources at hand; these are the fields ops.c
    reads: the hardware context, the output sink and the verbosity. *)
Record parser_pdata : Type := mk_pdata {
  ctx : iio_context;
  out : nat;
  pdata_verbose : bool
}.

(** The answers one call of [read_buffer] gets from the system. *)
Record Sys : Type := mkSys {
  malloc_thd : bool;          (* [malloc(sizeof( *thd))] succeeds *)
  malloc_entry : bool;        (* [malloc(sizeof( *entry))] succeeds *)
  open_ret : Z;               (* [iio_device_open] *)
  create_ret : Z              (* [pthread_create] *)
}.

Record Request : Type := mkRequest {
  rq_sys : Sys;
  rq_pdata : parser_pdata;
  rq_dev : nat;
  rq_nb : Z;
  rq_sample_size : Z
}.

(** How the first half of [read_buffer] ends: with a [return], waiting on
    the condition of its record, or not having obtained the locks. *)
Inductive Attach : Type :=
| Returned (code : Z)
| Waiting (thd : nat)
| Blocked.

(** What the environment gives to one iteration of the worker's loop. *)
Record Env : Type := mkEnv {
  before : list Request;   (* served before the worker takes [devlist_lock] *)
  malloc_buf : bool;       (* [malloc(len)] succeeds *)
  during : list Request;   (* served while the hardware read blocks *)
  hw : Z -> hw_result      (* [iio_device_read_raw], by requested length *)
}.

Inductive thd_state : Type :=
| Running (ret : Z)
| Terminated
| Trapped.                 (* division by zero on entry *)

(** Lines 201-272 of [read_buffer], up to [pthread_cond_wait].  The code
    never calls [pthread_mutex_init] on [entry->thdlist_lock]: the lock of
    a new session is the memory [malloc] returned, taken here to be a
    mutex that nobody holds. *)
Definition read_buffer_attach (sys : Sys) (pdata : parser_pdata) (d : nat)
    (n size : Z) : M Attach :=
  fun w =>
    if devlist_lock w then (Blocked, w)
    else
      match find_entry d (devlist_head w) with
      | Some entry =>
          if negb (sample_size entry =? size) then (Returned (- EINVAL), w)
          else if negb (malloc_thd sys) then (Returned (- ENOMEM), w)
          else if thdlist_lock entry then (Blocked, w)
          else
            let thd := mkThd (next_thd w) n None (out pdata)
                             (pdata_verbose pdata) in
            (Waiting (next_thd w),
             set_next_thd (S (next_thd w))
               (set_devlist_head
                  (update_entry d
                     (set_thdlist_head (thd :: thdlist_head entry))
                     (devlist_head w)) w))
      | None =>
          if negb (malloc_thd sys) then (Returned (- ENOMEM), w)
          else if negb (malloc_entry sys) then (Returned (- ENOMEM), w)
          else
            let w1 := set_trace (trace w ++ [Open d]) w in
            if negb (open_ret sys =? 0) then (Returned (open_ret sys), w1)
            else if negb (create_ret sys =? 0) then
              (Returned (create_ret sys),
               set_trace (trace w1 ++ [Close d]) w1)
            else
              let thd := mkThd (next_thd w) n None (out pdata)
                               (pdata_verbose pdata) in
              (Waiting (next_thd w),
               set_next_thd (S (next_thd w))
                 (set_devlist_head
                    (mkDev d size [thd] false :: devlist_head w) w1))
      end.

(** Lines 280-288 of [read_buffer]: what the call returns once its record
    [thd] has been signalled.  [None] when [thd->err] was never written. *)
Definition read_buffer_return (n size : Z) (thd : ThdEntry) : option Z :=
  match err thd with
  | None => None
  | Some ret => Some (if ret <? 0 then ret else u32 (n * size))
  end.

Definition serve (r : Request) : M Attach :=
  read_buffer_attach (rq_sys r) (rq_pdata r) (rq_dev r) (rq_nb r)
                     (rq_sample_size r).

Fixpoint arrivals (reqs : list Request) : M unit :=
  match reqs with
  | [] => pure tt
  | r :: rest => serve r ;; arrivals rest
  end.

(** The first [SLIST_FOREACH] of [read_thd]. *)
Definition min_nb (thds : list ThdEntry) (nb_samples : Z) : Z :=
  fold_left (fun acc thd => if nb thd <? acc then nb thd else acc)
            thds nb_samples.

(** The value of a [size_t] read as an [ssize_t]. *)
Definition s64 (z : Z) : Z := if z <? 2 ^ 63 then z else z - 2 ^ 64.

(** ** The threads of the requests *)

(** What the worker does not control.  [read_buffer] leaves its record in
    the list, releases both locks and only then goes to sleep in
    [pthread_cond_wait] (line 278), with no predicate to test; once woken
    it reads [thd->err] and frees the record (lines 280-283).  For the
    record at address [t]:
    - [parked t]: its owner is blocked in [pthread_cond_wait] when the
      worker calls [pthread_cond_signal] for the record.  If it is not,
      nobody waits on the condition, the call has no effect, and the owner
      will wait for a signal that has already been sent;
    - [hasty t]: woken, the owner has executed [free(thd)] by the time the
      worker evaluates [thd->next] to go on with its [SLIST_FOREACH].
    [closing] are the requests served after the worker has released
    [devlist_lock] (line 182) and before it closes the device (line
    184). *)
Record Schedule : Type := mkSchedule {
  parked : nat -> bool;
  hasty : nat -> bool;
  closing : list Request
}.

(** The record has been freed when the loop that signalled it reads its
    [next] field. *)
Definition freed (s : Schedule) (thd : ThdEntry) : bool :=
  parked s (tid thd) && hasty s (tid thd).

(** Where the worker stands.  [Undefined thd]: it has read the [next] field
    of the record [thd] after the owner freed it; the C standard says
    nothing about what it does from there on, and the model follows it no
    further. *)
Inductive racing (A : Type) : Type :=
| Valid (a : A)
| Undefined (thd : ThdEntry).

Arguments Valid {A} a.
Arguments Undefined {A} thd.

(** How the call of [read_buffer] that owns a record ends. *)
Inductive call : Type :=
| Blocks                  (* in [pthread_cond_wait], with no signal to come *)
| Returns (v : option Z). (* [read_buffer_return] of the signalled record *)

(** Lines 274-288 of [read_buffer] for the request of [n] samples whose
    record is at address [t], given the calls of [pthread_cond_signal]
    logged in [w]: the call returns when the record was signalled while
    its owner was waiting, and blocks when it was not signalled or was
    signalled too early. *)
Definition read_buffer_wait (s : Schedule) (n size : Z) (t : nat)
    (w : World) : call :=
  match find (fun thd => Nat.eqb (tid thd) t) (signalled w) with
  | Some thd =>
      if parked s t then Returns (read_buffer_return n size thd) else Blocks
  | None => Blocks
  end.

Section Ops.

(** libc's message for an error number. *)
Variable strerror_r : Z -> string.

(** The status line at the head of the body of the second [SLIST_FOREACH]
    of [read_thd]. *)
Definition emit_status (ret : Z) (thd : ThdEntry) : M unit :=
  if negb (verbose thd) then fprintf_fd (fd thd) (fmt_int ret ++ nl)
  else if ret <? 0 then
    fprintf_fd (fd thd) ("ERROR reading device: " ++ strerror_r ret ++ nl)
  else pure tt.

(** The body of the second [SLIST_FOREACH] of [read_thd] for one record:
    [Some thd'] when the record stays in the list, [None] when it has been
    removed and signalled.  [ret2] has type [size_t]. *)
Definition broadcast_step (size ret : Z) (buf : list ascii) (nb_samples : Z)
    (thd : ThdEntry) : M (option ThdEntry) :=
  emit_status ret thd ;;
  if ret <? 0 then pure (Some thd)
  else if nb_samples >? nb thd then pure (Some thd)
  else
    r <- write_all_fd buf (u64 ret) (fd thd) ;;
    let ret2 := u64 r in
    let thd := if ret2 >? 0 then set_nb (u32 (nb thd - ret2 / size)) thd
               else thd in
    if ret2 <? 0 then
      pthread_cond_signal (set_err (s64 ret2) thd) ;; pure None
    else if nb thd =? 0 then
      pthread_cond_signal (set_err 0 thd) ;; pure None
    else pure (Some thd).

(** The second [SLIST_FOREACH] of [read_thd] when every record stays
    allocated until the loop has gone past it: the loop then visits every
    record the list held when it started, in order ([SLIST_REMOVE] leaves
    the link of the removed record in place); the result is the list that
    is left.  [broadcast_racing] is the loop when owners free their
    records. *)
Fixpoint broadcast (size ret : Z) (buf : list ascii) (nb_samples : Z)
    (thds : list ThdEntry) : M (list ThdEntry) :=
  match thds with
  | [] => pure []
  | thd :: rest =>
      r <- broadcast_step size ret buf nb_samples thd ;;
      kept <- broadcast size ret buf nb_samples rest ;;
      pure (match r with Some thd' => thd' :: kept | None => kept end)
  end.

(** The [SLIST_FOREACH] after the loop, when every record stays allocated
    until the loop has gone past it; [drain_racing] is the loop when owners
    free their records. *)
Fixpoint drain (ret : Z) (thds : list ThdEntry) : M unit :=
  match thds with
  | [] => pure tt
  | thd :: rest =>
      pthread_cond_signal (if ret <? 0 then set_err ret thd else thd) ;;
      drain ret rest
  end.

Definition iio_device_read_raw (d : nat) (env : Env) (len : Z)
    : M hw_result :=
  emit (ReadRaw d len) ;;
  arrivals (during env) ;;
  pure (hw env len).

(** One turn of the [while (true)] loop of [read_thd]: whether the loop
    goes on, and the value of [ret]. *)
Definition read_thd_iteration (d : nat) (size max_size : Z) (env : Env)
    (ret : Z) : M (bool * Z) :=
  arrivals (before env) ;;
  lock_devlist ;;
  if ret <? 0 then pure (false, ret)
  else
    lock_thdlist d ;;
    thds <- get_thdlist d ;;
    match thds with
    | [] => unlock_thdlist d ;; pure (false, ret)
    | _ :: _ =>
        let nb_samples := min_nb thds max_size in
        unlock_thdlist d ;;
        let len := u64 (nb_samples * size) in
        if negb (malloc_buf env) then pure (false, - ENOMEM)
        else
          unlock_devlist ;;
          r <- iio_device_read_raw d env len ;;
          let ret := hw_ret r in
          lock_thdlist d ;;
          let nb_samples := u64 (Z.quot ret size) in
          thds <- get_thdlist d ;;
          kept <- broadcast size ret (hw_buf r) nb_samples thds ;;
          put_thdlist d kept ;;
          unlock_thdlist d ;;
          pure (true, ret)
    end.

(** Lines 168-190 of [read_thd], run in one piece; [read_thd_exit_racing]
    lets requests in between the unlock of line 182 and the close of line
    184. *)
Definition read_thd_exit (d : nat) (ret : Z) : M unit :=
  lock_thdlist d ;;
  thds <- get_thdlist d ;;
  drain ret thds ;;
  put_thdlist d [] ;;
  unlock_thdlist d ;;
  (fun w => (tt, set_devlist_head (remove_entry d (devlist_head w)) w)) ;;
  unlock_devlist ;;
  emit (Close d).

Definition read_thd_step (d : nat) (size max_size : Z) (env : Env) (ret : Z)
    : M thd_state :=
  '(go, ret') <- read_thd_iteration d size max_size env ret ;;
  if go : bool then pure (Running ret')
  else read_thd_exit d ret' ;; pure Terminated.

Fixpoint read_thd_loop (d : nat) (size max_size : Z) (envs : list Env)
    (ret : Z) : M thd_state :=
  match envs with
  | [] => pure (Running ret)
  | env :: rest =>
      st <- read_thd_step d size max_size env ret ;;
      match st with
      | Running ret' => read_thd_loop d size max_size rest ret'
      | _ => pure st
      end
  end.

(** [read_thd(entry)], run for as many turns as [envs] has elements.
    [unsigned int max_size = 1024 / sample_size] traps when the divisor is
    zero. *)
Definition read_thd (entry : DevEntry) (envs : list Env) : M thd_state :=
  let size := sample_size entry in
  if size =? 0 then pure Trapped
  else read_thd_loop (dev entry) size (u32 (1024 / size)) envs 0.

(** *** The worker among the threads of the requests *)

(** The second [SLIST_FOREACH] of [read_thd]: the list as it stands when
    the loop stops, and the record whose [next] field it read after the
    owner freed it, if that is why it stopped.  The body removes and
    signals a record before the loop reads the record's [next] field to go
    on. *)
Fixpoint broadcast_racing (s : Schedule) (size ret : Z) (buf : list ascii)
    (nb_samples : Z) (thds : list ThdEntry)
    : M (list ThdEntry * option ThdEntry) :=
  match thds with
  | [] => pure ([], None)
  | thd :: rest =>
      r <- broadcast_step size ret buf nb_samples thd ;;
      match r with
      | Some thd' =>
          '(kept, lost) <- broadcast_racing s size ret buf nb_samples rest ;;
          pure (thd' :: kept, lost)
      | None =>
          if freed s thd then pure (rest, Some thd)
          else broadcast_racing s size ret buf nb_samples rest
      end
  end.

(** The [SLIST_FOREACH] after the loop, likewise. *)
Fixpoint drain_racing (s : Schedule) (ret : Z) (thds : list ThdEntry)
    : M (list ThdEntry * option ThdEntry) :=
  match thds with
  | [] => pure ([], None)
  | thd :: rest =>
      pthread_cond_signal (if ret <? 0 then set_err ret thd else thd) ;;
      if freed s thd then pure (rest, Some thd)
      else drain_racing s ret rest
  end.

(** One turn of the [while (true)] loop. *)
Definition read_thd_iteration_racing (s : Schedule) (d : nat)
    (size max_size : Z) (env : Env) (ret : Z) : M (racing (bool * Z)) :=
  arrivals (before env) ;;
  lock_devlist ;;
  if ret <? 0 then pure (Valid (false, ret))
  else
    lock_thdlist d ;;
    thds <- get_thdlist d ;;
    match thds with
    | [] => unlock_thdlist d ;; pure (Valid (false, ret))
    | _ :: _ =>
        let nb_samples := min_nb thds max_size in
        unlock_thdlist d ;;
        let len := u64 (nb_samples * size) in
        if negb (malloc_buf env) then pure (Valid (false, - ENOMEM))
        else
          unlock_devlist ;;
          r <- iio_device_read_raw d env len ;;
          let ret := hw_ret r in
          lock_thdlist d ;;
          let nb_samples := u64 (Z.quot ret size) in
          thds <- get_thdlist d ;;
          '(kept, lost) <-
            broadcast_racing s size ret (hw_buf r) nb_samples thds ;;
          put_thdlist d kept ;;
          match lost with
          | Some thd => pure (Undefined thd)
          | None => unlock_thdlist d ;; pure (Valid (true, ret))
          end
    end.

(** Lines 168-177 of [read_thd]: everybody still attached is removed and
    signalled. *)
Definition read_thd_drain_racing (s : Schedule) (d : nat) (ret : Z)
    : M (racing unit) :=
  lock_thdlist d ;;
  thds <- get_thdlist d ;;
  '(rest, lost) <- drain_racing s ret thds ;;
  put_thdlist d rest ;;
  match lost with
  | Some thd => pure (Undefined thd)
  | None => unlock_thdlist d ;; pure (Valid tt)
  end.

(** Lines 179-190 of [read_thd]: the session leaves the list, and the
    device is closed once [devlist_lock] has been released. *)
Definition read_thd_leave_racing (s : Schedule) (d : nat) : M unit :=
  (fun w => (tt, set_devlist_head (remove_entry d (devlist_head w)) w)) ;;
  unlock_devlist ;;
  arrivals (closing s) ;;
  emit (Close d).

Definition read_thd_exit_racing (s : Schedule) (d : nat) (ret : Z)
    : M (racing unit) :=
  r <- read_thd_drain_racing s d ret ;;
  match r with
  | Valid _ => read_thd_leave_racing s d ;; pure (Valid tt)
  | Undefined thd => pure (Undefined thd)
  end.

Definition read_thd_step_racing (s : Schedule) (d : nat)
    (size max_size : Z) (env : Env) (ret : Z) : M (racing thd_state) :=
  it <- read_thd_iteration_racing s d size max_size env ret ;;
  match it with
  | Undefined thd => pure (Undefined thd)
  | Valid (true, ret') => pure (Valid (Running ret'))
  | Valid (false, ret') =>
      r <- read_thd_exit_racing s d ret' ;;
      pure (match r with
            | Valid _ => Valid Terminated
            | Undefined thd => Undefined thd
            end)
  end.

Fixpoint read_thd_loop_racing (s : Schedule) (d : nat) (size max_size : Z)
    (envs : list Env) (ret : Z) : M (racing thd_state) :=
  match envs with
  | [] => pure (Valid (Running ret))
  | env :: rest =>
      st <- read_thd_step_racing s d size max_size env ret ;;
      match st with
      | Valid (Running ret') =>
          read_thd_loop_racing s d size max_size rest ret'
      | _ => pure st
      end
  end.

(** [read_thd(entry)] among the threads of the requests, run for as many
    turns as [envs] has elements. *)
Definition read_thd_racing (s : Schedule) (entry : DevEntry)
    (envs : list Env) : M (racing thd_state) :=
  let size := sample_size entry in
  if size =? 0 then pure (Valid Trapped)
  else read_thd_loop_racing s (dev entry) size (u32 (1024 / size)) envs 0.

(** [read_dev_attr]; [attr_read] stands for [iio_device_attr_read], which
    returns the number of bytes it put in [buf], or a negative code. *)
Definition read_dev_attr
    (attr_read : iio_device -> string -> Z * list ascii)
    (pdata : parser_pdata) (id attr : string) : M Z :=
  match get_device (ctx pdata) id with
  | None =>
      (if pdata_verbose pdata then
         fprintf_fd (out pdata) ("ERROR: " ++ strerror_r ENODEV ++ nl)
       else fprintf_fd (out pdata) (fmt_int (- ENODEV) ++ nl)) ;;
      pure (- ENODEV)
  | Some device =>
      let '(ret, buf) := attr_read device attr in
      (if pdata_verbose pdata && (ret <? 0) then
         fprintf_fd (out pdata) ("ERROR: " ++ strerror_r (- ret) ++ nl)
       else fprintf_fd (out pdata) (fmt_int ret ++ nl)) ;;
      if ret <? 0 then pure ret
      else
        ret' <- write_all_fd buf (u64 ret) (out pdata) ;;
        write_all_fd ["010"%char] 1 (out pdata) ;;
        pure ret'
  end.

End Ops.

(** ** Specification-side definitions *)

(** The batch size in the words of the design document: the smallest of the
    cap and of what every attached waiter is still owed. *)
Definition batch_samples (cap : Z) (thds : list ThdEntry) : Z :=
  fold_right (fun thd acc => Z.min (nb thd) acc) cap thds.

(** The lengths of the hardware reads issued for device [d], oldest first. *)
Definition reads (d : nat) (tr : list Event) : list Z :=
  flat_map (fun e => match e with
                     | ReadRaw d' len => if Nat.eqb d' d then [len] else []
                     | _ => []
                     end) tr.

(** [holds m tr]: after the events [tr], started without any lock, the
    worker holds mutex [m]. *)
Definition mutex_eqb (a b : mutex) : bool :=
  match a, b with
  | Devlist, Devlist => true
  | Thdlist x, Thdlist y => Nat.eqb x y
  | _, _ => false
  end.

Definition lock_step (m : mutex) (held : bool) (e : Event) : bool :=
  match e with
  | Lock m' => if mutex_eqb m' m then true else held
  | Unlock m' => if mutex_eqb m' m then false else held
  | _ => held
  end.

Definition holds_from (m : mutex) (init : bool) (tr : list Event) : bool :=
  fold_left (lock_step m) tr init.

Definition holds (m : mutex) (tr : list Event) : bool := holds_from m false tr.

(** Events of client threads: they neither lock on behalf of the worker nor
    read from the hardware. *)
Definition client_event (e : Event) : bool :=
  match e with
  | Open _ | Close _ => true
  | _ => false
  end.

(** A checker: every read of device [d] in [tr] is issued while the worker
    holds neither [devlist_lock] nor the [thdlist_lock] of [d]; [dl] and
    [tl] say whether it holds them when [tr] starts. *)
Fixpoint reads_unlocked (d : nat) (dl tl : bool) (tr : list Event) : bool :=
  match tr with
  | [] => true
  | e :: tr' =>
      match e with
      | ReadRaw d' _ => if Nat.eqb d' d then negb dl && negb tl else true
      | _ => true
      end &&
      reads_unlocked d (lock_step Devlist dl e) (lock_step (Thdlist d) tl e) tr'
  end.

(** Values that fit the C types. *)
Definition wf_thd (thd : ThdEntry) : Prop := 0 <= nb thd < 2 ^ 32.

Definition wf_request (r : Request) : Prop := 0 <= rq_nb r < 2 ^ 32.

Definition wf_env (env : Env) : Prop :=
  Forall wf_request (before env) /\ Forall wf_request (during env) /\
  forall len, hw_ret (hw env len) < 2 ^ 63.

(** The record [read_buffer] builds for a request, up to its address. *)
Definition record_of (r : Request) (thd : ThdEntry) : Prop :=
  nb thd = rq_nb r /\ err thd = None /\ fd thd = out (rq_pdata r) /\
  verbose thd = pdata_verbose (rq_pdata r).

Definition requests (envs : list Env) : list Request :=
  flat_map (fun env => before env ++ during env) envs.

(** A stream that takes whatever it is given. *)
Definition healthy (f : FILE) : Prop := accepts f = [].

(** Modelled from the spec: the contract of the raw read, "may return
    fewer bytes than requested", and never more. *)
Definition hw_contract (env : Env) : Prop :=
  forall len, 0 <= len -> hw_ret (hw env len) <= len.

(** ** Concrete inputs *)

Definition no_files : nat -> FILE := fun _ => mkFILE [] [].

Definition world0 : World := mkWorld [] false no_files [] 0 [].

Definition sys_ok : Sys := mkSys true true 0 0.

(** Some of the messages of the C library. *)
Definition messages (errnum : Z) : string :=
  if errnum =? 19 then "No such device"
  else if errnum =? 5 then "Input/output error"
  else "Unknown error".

(** A device that fills the buffer it is given, up to 1024 bytes. *)
Definition full_read (len : Z) : hw_result :=
  HwData (repeat "x"%char (Z.to_nat (Z.min len 1024))).

Definition failing_read (len : Z) : hw_result := HwError 5.

Definition calm (h : Z -> hw_result) : Env := mkEnv [] true [] h.

Definition client (o : nat) (v : bool) : parser_pdata := mk_pdata [] o v.

(** One session on device 7 with one-byte samples and a single waiter owed
    ten samples, whose stream (number 1) refuses the next write. *)
Definition stuck_sink_world : World :=
  mkWorld [mkDev 7 1 [mkThd 0 10 None 1 false] false] false
          (upd no_files 1 (mkFILE [] [0%nat])) [] 1 [].

(** One session on device 7 with four-byte samples; the waiter is owed a
    hundred samples. *)
Definition one_waiter_world (v : bool) (n : Z) : World :=
  mkWorld [mkDev 7 4 [mkThd 0 n None 1 v] false] false no_files [] 1 [].

(** ** What requests of other threads do to the state *)

Definition registered (d : nat) (w : World) : Prop :=
  find_entry d (devlist_head w) <> None.

(** [arrived d reqs w w']: how serving [reqs] changes the state, as far as
    the session of device [d] is concerned.  Records are only added, at the
    front, with addresses not in use before. *)
Record arrived (d : nat) (reqs : list Request) (w w' : World) : Prop := {
  arr_files : files w' = files w;
  arr_signalled : signalled w' = signalled w;
  arr_lock : devlist_lock w' = devlist_lock w;
  arr_trace :
    exists tr, trace w' = trace w ++ tr /\ forallb client_event tr = true;
  arr_next : (next_thd w <= next_thd w')%nat;
  arr_registered : registered d w -> registered d w';
  arr_waiters :
    exists new,
      waiters d w' = new ++ waiters d w /\
      NoDup (map tid new) /\
      Forall (fun t => (next_thd w <= tid t < next_thd w')%nat /\
                       exists r, In r reqs /\ record_of r t) new
}.

(** ** One round, seen from a waiter *)

(** What the broadcast loop does not touch. *)
Record framed (w w' : World) : Prop := {
  fr_devlist : devlist_head w' = devlist_head w;
  fr_lock : devlist_lock w' = devlist_lock w;
  fr_trace : trace w' = trace w;
  fr_next : next_thd w' = next_thd w
}.

(** The record takes part in a round that read [ret] bytes: the read
    succeeded and brought no more samples than the record is owed. *)
Definition served (size ret : Z) (thd : ThdEntry) : bool :=
  (0 <=? ret) && (ret / size <=? nb thd).

Definition round_record (size ret : Z) (thd : ThdEntry) : ThdEntry :=
  if served size ret thd then set_nb (nb thd - ret / size) thd else thd.

Definition round_done (size ret : Z) (thd : ThdEntry) : bool :=
  served size ret thd && (nb thd - ret / size =? 0).

Definition round_kept (size ret : Z) (thds : list ThdEntry) : list ThdEntry :=
  map (round_record size ret)
      (filter (fun thd => negb (round_done size ret thd)) thds).

Definition round_signalled (size ret : Z) (thds : list ThdEntry)
    : list ThdEntry :=
  map (fun thd => set_err 0 (round_record size ret thd))
      (filter (round_done size ret) thds).

(** The status line of a round for one record. *)
Definition status_of (message : Z -> string) (ret : Z) (thd : ThdEntry)
    : list string :=
  if verbose thd then
    if ret <? 0 then
      [("ERROR reading device: " ++ message ret ++ nl)%string]
    else []
  else [(fmt_int ret ++ nl)%string].

(** ** Steps of the worker that only lock, unlock or log *)

(** [silent d evs w w']: from [w] to [w'] the worker has done [evs] and
    nothing else that the session of [d], the streams or the signalled
    records could show. *)
Record silent (d : nat) (evs : list Event) (w w' : World) : Prop := {
  si_waiters : waiters d w' = waiters d w;
  si_registered : registered d w -> registered d w';
  si_files : files w' = files w;
  si_signalled : signalled w' = signalled w;
  si_next : next_thd w' = next_thd w;
  si_trace : trace w' = trace w ++ evs
}.

(** The worker's way from the top of the loop to the hardware read. *)
Definition to_read (d : nat) (len : Z) : M unit :=
  (lock_devlist ;; lock_thdlist d ;; unlock_thdlist d ;; unlock_devlist ;;
   emit (ReadRaw d len))%ops.

Definition read_events (d : nat) (len : Z) : list Event :=
  [Lock Devlist; Lock (Thdlist d); Unlock (Thdlist d); Unlock Devlist;
   ReadRaw d len].

(** The world after a turn of the loop that went through the hardware read,
    from the world [w1] in which the worker took the locks. *)
Definition round_len (d : nat) (size max_size : Z) (w1 : World) : Z :=
  u64 (min_nb (waiters d w1) max_size * size).

Definition round_world (message : Z -> string) (d : nat) (size max_size : Z)
    (env : Env) (w1 : World) : World :=
  let len := round_len d size max_size w1 in
  let w3 := snd (arrivals (during env) (snd (to_read d len w1))) in
  let r := hw env len in
  let wb := snd (lock_thdlist d w3) in
  let res := broadcast message size (hw_ret r) (hw_buf r)
                       (u64 (Z.quot (hw_ret r) size)) (waiters d wb) wb in
  snd (unlock_thdlist d (snd (put_thdlist d (fst res) (snd res)))).

(** What a turn through the hardware read has done, from the state [w1] in
    which the worker took the locks to the state [w5] at the end of the
    turn: [new] are the records attached during the read, [tr] the events
    of their threads, [wb] the state in which the broadcast starts. *)
Inductive round_obs (message : Z -> string) (d : nat) (size : Z) (env : Env)
    (len : Z) (w1 w5 : World) : Prop :=
| RoundObs (new : list ThdEntry) (tr : list Event) (wb : World)
    (Hfiles : files wb = files w1)
    (Hsig : signalled wb = signalled w1)
    (Hnext : (next_thd w1 <= next_thd wb)%nat)
    (Hnodup : NoDup (map tid new))
    (Hnew : Forall (fun t => (next_thd w1 <= tid t < next_thd wb)%nat /\
                             exists r, In r (during env) /\ record_of r t) new)
    (Htr : forallb client_event tr = true)
    (Hw5 : waiters d w5 =
           fst (broadcast message size (hw_ret (hw env len))
                  (hw_buf (hw env len))
                  (u64 (Z.quot (hw_ret (hw env len)) size))
                  (new ++ waiters d w1) wb))
    (Hf5 : files w5 =
           files (snd (broadcast message size (hw_ret (hw env len))
                         (hw_buf (hw env len))
                         (u64 (Z.quot (hw_ret (hw env len)) size))
                         (new ++ waiters d w1) wb)))
    (Hs5 : signalled w5 =
           signalled (snd (broadcast message size (hw_ret (hw env len))
                             (hw_buf (hw env len))
                             (u64 (Z.quot (hw_ret (hw env len)) size))
                             (new ++ waiters d w1) wb)))
    (Ht5 : trace w5 =
           trace w1 ++ read_events d len ++ tr ++
           [Lock (Thdlist d); Unlock (Thdlist d)])
    (Hn5 : next_thd w5 = next_thd wb)
    (Hr5 : registered d w5)
    (Hl5 : devlist_lock w5 = false).

(** What leaving the loop does: everybody still attached is signalled, with
    the error if there is one, and the session leaves the list. *)
Definition drained (ret : Z) (thds : list ThdEntry) : list ThdEntry :=
  map (fun thd => if ret <? 0 then set_err ret thd else thd) thds.

Record exit_obs (d : nat) (ret : Z) (w w' : World) : Prop := {
  ex_gone : find_entry d (devlist_head w') = None;
  ex_files : files w' = files w;
  ex_signalled : signalled w' = signalled w ++ drained ret (waiters d w);
  ex_trace :
    trace w' =
    trace w ++ [Lock (Thdlist d); Unlock (Thdlist d); Unlock Devlist; Close d];
  ex_lock : devlist_lock w' = false;
  ex_next : next_thd w' = next_thd w
}.

(** A stretch of the worker's trace that starts and ends without any lock
    and in which every read of [d] is issued without any lock. *)
Definition balanced (d : nat) (tr : list Event) : Prop :=
  reads_unlocked d false false tr = true /\
  holds_from Devlist false tr = false /\
  holds_from (Thdlist d) false tr = false.

(** ** Bookkeeping of the records *)

(** [tidy d w]: the addresses of the records attached to the session of [d]
    or already signalled are pairwise distinct and older than the next
    address [malloc] gives out, the counts of the attached records fit
    their type, and every stream takes what it is given. *)
Record tidy (d : nat) (w : World) : Prop := {
  ti_nodup : NoDup (map tid (waiters d w ++ signalled w));
  ti_fresh :
    Forall (fun t => (tid t < next_thd w)%nat) (waiters d w ++ signalled w);
  ti_wf : Forall wf_thd (waiters d w);
  ti_healthy : forall k, healthy (files w k)
}.

(** [descends d w w']: every record attached in [w] is, in [w'], attached or
    signalled, and is owed no more than before and no less than nothing. *)
Definition descends (d : nat) (w w' : World) : Prop :=
  forall t, In t (waiters d w) ->
    exists t', In t' (waiters d w' ++ signalled w') /\
               tid t' = tid t /\ 0 <= nb t' <= nb t.

(** ** Progress *)


(** ** More concrete inputs *)

(** A device that fills whatever buffer it is given. *)
Definition exact_read (len : Z) : hw_result :=
  HwData (repeat "x"%char (Z.to_nat len)).



(** A session on device 7 with samples of 2048 bytes and one verbose waiter
    owed one sample. *)
Definition big_sample_world : World :=
  mkWorld [mkDev 7 2048 [mkThd 0 1 None 1 true] false] false no_files [] 1 [].

(** A session on device 7 with four-byte samples and two waiters, owed two
    and three samples, on streams 2 and 1. *)
Definition two_waiter_world : World :=
  mkWorld [mkDev 7 4 [mkThd 1 2 None 2 true; mkThd 0 3 None 1 false] false]
          false no_files [] 2 [].

(** A verbose request for fifty four-byte samples of device 7, answered on
    stream 2. *)
Definition late_request : Request := mkRequest sys_ok (client 2 true) 7 50 4.

(** ** The remaining entry points of ops.c *)

(** The bytes a stream has taken through [fwrite], in order. *)
Definition written (f : FILE) : list ascii :=
  flat_map (fun c => match c with Printed _ => [] | Written b => b end)
           (contents f).

(** The status line for a request on a device that [get_device] does not
    find; [read_dev], [read_dev_attr] and [write_dev_attr] all start with
    it. *)
Definition no_device_line (message : Z -> string) (v : bool) : string :=
  if v then ("ERROR: " ++ message ENODEV ++ nl)%string
  else (fmt_int (- ENODEV) ++ nl)%string.

(** [read_dev], up to the [pthread_cond_wait] of [read_buffer]. *)
Definition read_dev_attach (message : Z -> string) (sys : Sys)
    (pdata : parser_pdata) (id : string) (n size : Z) : M Attach :=
  match get_device (ctx pdata) id with
  | None =>
      ((if pdata_verbose pdata then
          fprintf_fd (out pdata) ("ERROR: " ++ message ENODEV ++ nl)
        else fprintf_fd (out pdata) (fmt_int (- ENODEV) ++ nl)) ;;
       pure (Returned (- ENODEV)))%ops
  | Some device => read_buffer_attach sys pdata (handle device) n size
  end.

(** [write_dev_attr]; [attr_write] stands for [iio_device_attr_write], which
    returns the number of bytes written, or a negative code. *)
Definition write_dev_attr (message : Z -> string)
    (attr_write : iio_device -> string -> string -> Z)
    (pdata : parser_pdata) (id attr value : string) : M Z :=
  match get_device (ctx pdata) id with
  | None =>
      ((if pdata_verbose pdata then
          fprintf_fd (out pdata) ("ERROR: " ++ message ENODEV ++ nl)
        else fprintf_fd (out pdata) (fmt_int (- ENODEV) ++ nl)) ;;
       pure (- ENODEV))%ops
  | Some device =>
      let ret := attr_write device attr value in
      ((if pdata_verbose pdata && (ret <? 0) then
          fprintf_fd (out pdata) ("ERROR: " ++ message (- ret) ++ nl)
        else fprintf_fd (out pdata) (fmt_int ret ++ nl)) ;;
       pure ret)%ops
  end.

(** The devices of the sessions of a list. *)
Definition devices (l : list DevEntry) : list nat := map dev l.

(** How often the device [d] has been closed in a trace. *)
Definition closes (d : nat) (tr : list Event) : nat :=
  List.length (filter (fun e => match e with
                                | Close d' => Nat.eqb d' d
                                | _ => false
                                end) tr).

(** A context with two devices. *)
Definition two_devices : iio_context :=
  [mk_iio_device 1 "iio:device0" "adc"; mk_iio_device 2 "iio:device1" "dac"].

(** What [iio_device_attr_read] returns in the examples: the four bytes
    ["1000"], or the code -22 for the attribute ["bad"]. *)
Definition sample_attr_read (device : iio_device) (attr : string)
    : Z * list ascii :=
  if String.eqb attr "bad" then (-22, [])
  else (4, ["1"; "0"; "0"; "0"]%char).

Definition sample_attr_write (device : iio_device) (attr value : string) : Z :=
  if String.eqb attr "bad" then -22 else Z.of_nat (String.length value).

(** The number of bytes a script of acceptances stands for. *)
Definition total (l : list nat) : Z :=
  fold_right (fun k acc => Z.of_nat k + acc) 0 l.

(** How often [iio_device_open] has been called for [d] in a trace. *)
Definition opens (d : nat) (tr : list Event) : nat :=
  List.length (filter (fun e => match e with
                                | Open d' => Nat.eqb d' d
                                | _ => false
                                end) tr).

(** The status line of the attribute operations for a result [code]: the
    message of the error when the client is verbose and the operation
    failed, the number otherwise. *)
Definition attr_status (message : Z -> string) (v : bool) (code : Z)
    : string :=
  if v && (code <? 0) then ("ERROR: " ++ message (- code) ++ nl)%string
  else (fmt_int code ++ nl)%string.

(** ** The worker among the threads of the requests *)

(** No owner frees its record before the worker has read the record's
    [next] field. *)
Definition unhurried (s : Schedule) : Prop :=
  forall thd, freed s thd = false.

(** Every owner is waiting when its record is signalled, and lets the
    worker go on before it frees the record; nobody comes while the worker
    leaves. *)
Definition patient : Schedule :=
  mkSchedule (fun _ => true) (fun _ => false) [].

(** Every owner is waiting when its record is signalled, and frees the
    record at once. *)
Definition eager : Schedule :=
  mkSchedule (fun _ => true) (fun _ => true) [].

(** The owners have not yet reached [pthread_cond_wait] when their records
    are signalled. *)
Definition tardy : Schedule :=
  mkSchedule (fun _ => false) (fun _ => false) [].

(** The worker's way out up to the release of [devlist_lock], lines 168-182
    of [read_thd], in one piece. *)
Definition read_thd_unregister (d : nat) (ret : Z) : M unit :=
  (lock_thdlist d ;;
   thds <- get_thdlist d ;;
   drain ret thds ;;
   put_thdlist d [] ;;
   unlock_thdlist d ;;
   (fun w => (tt, set_devlist_head (remove_entry d (devlist_head w)) w)) ;;
   unlock_devlist)%ops.

(** The state in which a worker that found no freed record ends a turn:
    the state of the sequential worker, but for what the requests served
    after the last unlock have done before the device is closed. *)
Definition closes_after (s : Schedule) (d : nat) (w_seq w : World) : Prop :=
  exists wu,
    w_seq = snd (emit (Close d) wu) /\
    w = snd (emit (Close d) (snd (arrivals (closing s) wu))).

(** ** Requests that complete *)














(** ** Concrete inputs for the worker among the requests *)

(** A verbose request for two four-byte samples of device 7, answered on
    stream 2. *)
Definition late_two : Request := mkRequest sys_ok (client 2 true) 7 2 4.




(** Device 7 has been opened for a session with four-byte samples, which
    holds one record, owed one sample on stream 1. *)
Definition opened_world : World :=
  mkWorld [mkDev 7 4 [mkThd 0 1 None 1 false] false] false no_files [] 1
          [Open 7].

(** Every owner is waiting when its record is signalled and lets the
    worker go on; the request [late_two] is served after the worker has
    released [devlist_lock] and before it closes the device. *)
Definition reopening : Schedule :=
  mkSchedule (fun _ => true) (fun _ => false) [late_two].

(** * Properties *)

(** ** Streams and [write_all] *)

Lemma u64_small (z : Z) : 0 <= z < 2 ^ 64 -> u64 z = z.
Proof. intros H. unfold u64. now apply Z.mod_small. Qed.

Lemma u32_small (z : Z) : 0 <= z < 2 ^ 32 -> u32 z = z.
Proof. intros H. unfold u32. now apply Z.mod_small. Qed.

Lemma u32_range (z : Z) : 0 <= u32 z < 2 ^ 32.
Proof. unfold u32. apply Z.mod_pos_bound. lia. Qed.

Lemma u64_range (z : Z) : 0 <= u64 z < 2 ^ 64.
Proof. unfold u64. apply Z.mod_pos_bound. lia. Qed.

Lemma fwrite_bounds (ptr : list ascii) (len : Z) (f : FILE) :
  0 <= len -> 0 <= fst (fwrite ptr len f) <= len.
Proof.
  intros Hlen. unfold fwrite. destruct (accepts f); simpl; lia.
Qed.

(** [len] turns of the loop are enough: more fuel changes nothing. *)
Lemma write_all_loop_fuel (src : list ascii) :
  forall (fuel extra : nat) (ptr len : Z) (f : FILE),
    0 <= len -> (Z.to_nat len <= fuel)%nat ->
    write_all_loop (fuel + extra) src ptr len f =
    write_all_loop fuel src ptr len f.
Proof.
  induction fuel as [|fuel IH]; intros extra ptr len f Hlen Hfuel.
  - assert (len = 0) by lia. subst len.
    destruct extra; reflexivity.
  - simpl. destruct (len =? 0) eqn:E; [reflexivity|].
    apply Z.eqb_neq in E.
    pose proof (fwrite_bounds (skipn (Z.to_nat ptr) src) len f Hlen) as Hb.
    destruct (fwrite (skipn (Z.to_nat ptr) src) len f) as [ret f'].
    simpl in Hb. destruct (ret =? 0) eqn:E'; [reflexivity|].
    apply Z.eqb_neq in E'. apply IH; lia.
Qed.

(** The result of [write_all] is the length or [-EIO]. *)
Lemma write_all_loop_result (src : list ascii) :
  forall (fuel : nat) (ptr len : Z) (f : FILE),
    0 <= len -> (Z.to_nat len <= fuel)%nat ->
    fst (write_all_loop fuel src ptr len f) = ptr + len \/
    fst (write_all_loop fuel src ptr len f) = - EIO.
Proof.
  induction fuel as [|fuel IH]; intros ptr len f Hlen Hfuel.
  - left. simpl. lia.
  - simpl. destruct (len =? 0) eqn:E.
    + apply Z.eqb_eq in E. left. simpl. lia.
    + apply Z.eqb_neq in E.
      pose proof (fwrite_bounds (skipn (Z.to_nat ptr) src) len f Hlen) as Hb.
      destruct (fwrite (skipn (Z.to_nat ptr) src) len f) as [ret f'].
      simpl in Hb. destruct (ret =? 0) eqn:E'; [now right|].
      apply Z.eqb_neq in E'.
      destruct (IH (ptr + ret) (len - ret) f') as [H|H];
        [lia | lia | left; rewrite H; lia | now right].
Qed.

Lemma write_all_result (src : list ascii) (len : Z) (f : FILE) :
  0 <= len ->
  fst (write_all src len f) = len \/ fst (write_all src len f) = - EIO.
Proof.
  intros Hlen. unfold write_all.
  destruct (write_all_loop_result src (Z.to_nat len) 0 len f) as [H|H]; lia.
Qed.

(** On a healthy stream one [fwrite] does it. *)
Lemma write_all_loop_healthy (src : list ascii) (fuel : nat) (ptr len : Z)
    (f : FILE) :
  0 < len -> healthy f ->
  write_all_loop (S fuel) src ptr len f =
  (ptr + len,
   mkFILE (contents f ++
           [Written (firstn (Z.to_nat len) (skipn (Z.to_nat ptr) src))]) []).
Proof.
  intros Hlen Hf. simpl.
  destruct (len =? 0) eqn:E; [apply Z.eqb_eq in E; lia|].
  unfold fwrite. rewrite Hf, E.
  assert (len - len = 0) as -> by lia.
  destruct fuel; reflexivity.
Qed.

Lemma write_all_healthy (src : list ascii) (len : Z) (f : FILE) :
  0 <= len -> healthy f ->
  write_all src len f =
  (len, if len =? 0 then f
        else mkFILE (contents f ++ [Written (firstn (Z.to_nat len) src)]) []).
Proof.
  intros Hlen Hf. unfold write_all.
  destruct (len =? 0) eqn:E.
  - apply Z.eqb_eq in E. subst. reflexivity.
  - apply Z.eqb_neq in E.
    assert (exists n, Z.to_nat len = S n) as [n Hn]
      by (exists (Nat.pred (Z.to_nat len)); lia).
    replace (write_all_loop (Z.to_nat len) src 0 len f)
      with (write_all_loop (S n) src 0 len f) by now rewrite Hn.
    rewrite write_all_loop_healthy by (assumption || lia).
    reflexivity.
Qed.

Lemma data_bytes_app (cs : list chunk) (acc : list nat) (c : chunk) :
  data_bytes (mkFILE (cs ++ [c]) acc) = data_bytes (mkFILE cs acc) + chunk_data c.
Proof.
  unfold data_bytes; simpl. induction cs as [|x cs IH]; simpl; lia.
Qed.

Lemma status_lines_app (cs : list chunk) (acc : list nat) (c : chunk) :
  status_lines (mkFILE (cs ++ [c]) acc) =
  status_lines (mkFILE cs acc) ++
  match c with Printed s => [s] | Written _ => [] end.
Proof.
  unfold status_lines; simpl. rewrite flat_map_app. simpl.
  now rewrite app_nil_r.
Qed.

(** ** The session list *)

Lemma find_entry_update (d : nat) (f : DevEntry -> DevEntry)
    (l : list DevEntry) :
  (forall e, dev (f e) = dev e) ->
  find_entry d (update_entry d f l) =
  match find_entry d l with Some e => Some (f e) | None => None end.
Proof.
  intros Hf. unfold find_entry, update_entry.
  induction l as [|e l IH]; simpl; [reflexivity|].
  destruct (Nat.eqb (dev e) d) eqn:E.
  - rewrite Hf, E. reflexivity.
  - rewrite E. exact IH.
Qed.

Lemma find_entry_update_other (d d' : nat) (f : DevEntry -> DevEntry)
    (l : list DevEntry) :
  (forall e, dev (f e) = dev e) -> d' <> d ->
  find_entry d' (update_entry d f l) = find_entry d' l.
Proof.
  intros Hf Hd. unfold find_entry, update_entry.
  induction l as [|e l IH]; simpl; [reflexivity|].
  destruct (Nat.eqb (dev e) d) eqn:E.
  - rewrite Hf. apply Nat.eqb_eq in E.
    destruct (Nat.eqb (dev e) d') eqn:E'.
    + apply Nat.eqb_eq in E'. congruence.
    + exact IH.
  - destruct (Nat.eqb (dev e) d'); [reflexivity|exact IH].
Qed.

Lemma find_entry_remove (d : nat) (l : list DevEntry) :
  find_entry d (remove_entry d l) = None.
Proof.
  unfold find_entry, remove_entry.
  induction l as [|e l IH]; simpl; [reflexivity|].
  destruct (Nat.eqb (dev e) d) eqn:E; simpl; [exact IH|].
  now rewrite E.
Qed.

Lemma waiters_update_lock (d d' : nat) (b : bool) (l : list DevEntry) :
  match find_entry d (update_entry d' (set_thdlist_lock b) l) with
  | Some e => thdlist_head e
  | None => []
  end =
  match find_entry d l with Some e => thdlist_head e | None => [] end.
Proof.
  destruct (Nat.eq_dec d d') as [->|Hd].
  - rewrite find_entry_update by reflexivity.
    now destruct (find_entry d' l).
  - now rewrite find_entry_update_other by (reflexivity || assumption).
Qed.

Lemma waiters_update_head (d : nat) (thds : list ThdEntry)
    (l : list DevEntry) (w : World) :
  find_entry d l <> None ->
  waiters d (set_devlist_head (update_entry d (set_thdlist_head thds) l) w) =
  thds.
Proof.
  intros Hreg. unfold waiters; simpl.
  rewrite find_entry_update by reflexivity.
  now destruct (find_entry d l).
Qed.

Lemma registered_update (d d' : nat) (f : DevEntry -> DevEntry)
    (l : list DevEntry) :
  (forall e, dev (f e) = dev e) ->
  find_entry d l <> None -> find_entry d (update_entry d' f l) <> None.
Proof.
  intros Hf Hreg.
  destruct (Nat.eq_dec d d') as [->|Hd].
  - rewrite find_entry_update by assumption.
    now destruct (find_entry d' l).
  - now rewrite find_entry_update_other.
Qed.

Lemma waiters_nonempty_registered (d : nat) (w : World) :
  waiters d w <> [] -> registered d w.
Proof.
  unfold waiters, registered. now destruct (find_entry d (devlist_head w)).
Qed.

(** ** Requests of client threads *)

Lemma arrived_refl (d : nat) (w : World) : arrived d [] w w.
Proof.
  constructor; try reflexivity; try lia.
  - exists []. now rewrite app_nil_r.
  - trivial.
  - exists []. repeat split; constructor.
Qed.

Lemma arrived_weaken (d : nat) (reqs reqs' : list Request) (w w' : World) :
  incl reqs reqs' -> arrived d reqs w w' -> arrived d reqs' w w'.
Proof.
  intros Hincl [Hf Hs Hl Ht Hn Hr (new & Hw & Hnd & Hnew)].
  constructor; try assumption.
  exists new. repeat split; try assumption.
  eapply Forall_impl; [|exact Hnew].
  intros t [Hrange (r & Hin & Hrec)]. split; [exact Hrange|].
  exists r. split; [now apply Hincl|exact Hrec].
Qed.

Lemma arrived_trans (d : nat) (r1 r2 : list Request) (w w1 w2 : World) :
  arrived d r1 w w1 -> arrived d r2 w1 w2 -> arrived d (r1 ++ r2) w w2.
Proof.
  intros [Hf Hs Hl (tr & Ht & Hc) Hn Hr (new & Hw & Hnd & Hnew)]
         [Hf' Hs' Hl' (tr' & Ht' & Hc') Hn' Hr' (new' & Hw' & Hnd' & Hnew')].
  constructor; try congruence; try lia.
  - exists (tr ++ tr'). split.
    + now rewrite Ht', Ht, app_assoc.
    + now rewrite forallb_app, Hc, Hc'.
  - auto.
  - exists (new' ++ new). split; [|split].
    + now rewrite Hw', Hw, app_assoc.
    + rewrite map_app. apply NoDup_app; try assumption.
      intros x Hx' Hx.
      apply in_map_iff in Hx' as (t' & <- & Hin').
      apply in_map_iff in Hx as (t & Heq & Hin).
      rewrite Forall_forall in Hnew, Hnew'.
      destruct (Hnew _ Hin) as [? _]. destruct (Hnew' _ Hin') as [? _]. lia.
    + apply Forall_app. split.
      * eapply Forall_impl; [|exact Hnew'].
        intros t [Hrange (r & Hin & Hrec)]. split; [lia|].
        exists r. split; [apply in_or_app; now right|exact Hrec].
      * eapply Forall_impl; [|exact Hnew].
        intros t [Hrange (r & Hin & Hrec)]. split; [lia|].
        exists r. split; [apply in_or_app; now left|exact Hrec].
Qed.

(** Projections of updated states. *)
Ltac world_simpl :=
  cbn [devlist_head devlist_lock files signalled next_thd trace
       set_devlist_head set_devlist_lock set_files set_signalled
       set_next_thd set_trace fst snd].

Lemma arrived_trace_only (d : nat) (w : World) (tr : list Event) :
  forallb client_event tr = true ->
  arrived d [] w (set_trace (trace w ++ tr) w).
Proof.
  intros Htr. constructor; try reflexivity; simpl; try lia.
  - now exists tr.
  - trivial.
  - exists []. repeat split; constructor.
Qed.

Lemma serve_arrived (d : nat) (r : Request) (w : World) :
  arrived d [r] w (snd (serve r w)).
Proof.
  assert (Hnil : forall w', arrived d [] w w' -> arrived d [r] w w')
    by (intros w'; apply arrived_weaken; intros x []).
  unfold serve, read_buffer_attach.
  destruct (devlist_lock w); [apply Hnil, arrived_refl|].
  destruct (find_entry (rq_dev r) (devlist_head w)) as [entry|] eqn:Hfind.
  - destruct (negb (sample_size entry =? rq_sample_size r));
      [apply Hnil, arrived_refl|].
    destruct (negb (malloc_thd (rq_sys r))); [apply Hnil, arrived_refl|].
    destruct (thdlist_lock entry); [apply Hnil, arrived_refl|].
    cbn [snd].
    constructor; try reflexivity; world_simpl; try lia.
    + exists []. now rewrite app_nil_r.
    + intros Hreg. unfold registered; world_simpl.
      now apply registered_update.
    + destruct (Nat.eq_dec d (rq_dev r)) as [->|Hd].
      * exists [mkThd (next_thd w) (rq_nb r) None (out (rq_pdata r))
                      (pdata_verbose (rq_pdata r))].
        unfold waiters; world_simpl.
        rewrite find_entry_update by reflexivity.
        rewrite Hfind; cbn. split; [reflexivity|]. split.
        -- constructor; [intros []|constructor].
        -- constructor; [|constructor]. cbn. split; [lia|].
           exists r. split; [now left|]. now repeat split.
      * exists []. unfold waiters; world_simpl.
        rewrite find_entry_update_other by (reflexivity || assumption).
        repeat split; constructor.
  - destruct (negb (malloc_thd (rq_sys r))); [apply Hnil, arrived_refl|].
    destruct (negb (malloc_entry (rq_sys r))); [apply Hnil, arrived_refl|].
    destruct (negb (open_ret (rq_sys r) =? 0));
      [apply Hnil; cbn [snd]; now apply arrived_trace_only|].
    destruct (negb (create_ret (rq_sys r) =? 0)).
    { apply Hnil. cbn [snd].
      replace (set_trace _ _)
        with (set_trace (trace w ++ [Open (rq_dev r); Close (rq_dev r)]) w).
      - now apply arrived_trace_only.
      - unfold set_trace; cbn. now rewrite <- app_assoc. }
    cbn [snd].
    constructor; try reflexivity; world_simpl; try lia.
    + now exists [Open (rq_dev r)].
    + unfold registered; world_simpl. unfold find_entry; cbn [find dev].
      destruct (Nat.eqb (rq_dev r) d); [discriminate|trivial].
    + unfold waiters; world_simpl.
      unfold find_entry at 1; cbn [find dev].
      destruct (Nat.eqb (rq_dev r) d) eqn:E.
      * apply Nat.eqb_eq in E. subst d. rewrite Hfind.
        exists [mkThd (next_thd w) (rq_nb r) None (out (rq_pdata r))
                      (pdata_verbose (rq_pdata r))].
        split; [reflexivity|]. split.
        -- constructor; [intros []|constructor].
        -- constructor; [|constructor]. cbn. split; [lia|].
           exists r. split; [now left|]. now repeat split.
      * exists []. repeat split; constructor.
Qed.

Lemma arrivals_arrived (d : nat) (reqs : list Request) :
  forall w, arrived d reqs w (snd (arrivals reqs w)).
Proof.
  induction reqs as [|r reqs IH]; intros w.
  - apply arrived_refl.
  - cbn [arrivals]. unfold bind.
    pose proof (serve_arrived d r w) as H1.
    destruct (serve r w) as [a w1]. cbn [snd] in H1.
    apply (arrived_trans d [r] reqs w w1); [exact H1|apply IH].
Qed.

Lemma arrivals_nil_world (w : World) : arrivals [] w = (tt, w).
Proof. reflexivity. Qed.

(** ** The broadcast loop *)

Lemma framed_refl (w : World) : framed w w.
Proof. now constructor. Qed.

Lemma framed_trans (w w1 w2 : World) :
  framed w w1 -> framed w1 w2 -> framed w w2.
Proof. intros [] []. constructor; congruence. Qed.

Lemma upd_same (fs : nat -> FILE) (k : nat) (f : FILE) : upd fs k f k = f.
Proof. unfold upd. now rewrite Nat.eqb_refl. Qed.

Lemma upd_other (fs : nat -> FILE) (k k' : nat) (f : FILE) :
  k' <> k -> upd fs k f k' = fs k'.
Proof. intros H. unfold upd. apply Nat.eqb_neq in H. now rewrite H. Qed.

Lemma hw_buf_length (r : hw_result) :
  0 <= hw_ret r -> Z.of_nat (List.length (hw_buf r)) = hw_ret r.
Proof. destruct r; simpl; lia. Qed.

Lemma set_nb_same (thd : ThdEntry) (n : Z) : n = nb thd -> set_nb n thd = thd.
Proof. intros ->. now destruct thd. Qed.

Section Broadcast.

Variable strerror_r : Z -> string.

Lemma emit_status_effect (ret : Z) (thd : ThdEntry) (w : World) :
  let w' := snd (emit_status strerror_r ret thd w) in
  framed w w' /\
  signalled w' = signalled w /\
  (forall k, k <> fd thd -> files w' k = files w k) /\
  contents (files w' (fd thd)) =
    contents (files w (fd thd)) ++ map Printed (status_of strerror_r ret thd) /\
  accepts (files w' (fd thd)) = accepts (files w (fd thd)).
Proof.
  unfold emit_status, status_of, fprintf_fd, pure.
  destruct (verbose thd); cbn [negb]; [destruct (ret <? 0)|]; cbn;
    rewrite ?upd_same, ?app_nil_r;
    (repeat split; try reflexivity); intros k Hk; now apply upd_other.
Qed.

(** What one turn of the loop does to the state, whatever the stream does:
    only the stream of the record and the signalled list change; a record
    that stays has a count that fits its type. *)
Lemma broadcast_step_any (size ret : Z) (buf : list ascii) (n : Z)
    (thd : ThdEntry) (w : World) :
  let r := broadcast_step strerror_r size ret buf n thd w in
  framed w (snd r) /\
  (forall k, k <> fd thd -> files (snd r) k = files w k) /\
  (exists l, signalled (snd r) = signalled w ++ l) /\
  (wf_thd thd -> forall thd', fst r = Some thd' -> wf_thd thd').
Proof.
  unfold broadcast_step, bind.
  pose proof (emit_status_effect ret thd w) as (Hfr & Hsig & Hother & _).
  destruct (emit_status strerror_r ret thd w) as [[] w1].
  cbn [snd] in *.
  assert (Hnil : exists l, signalled w1 = signalled w ++ l)
    by (exists []; now rewrite app_nil_r).
  assert (Hkeep : forall st : option ThdEntry * World,
             st = (Some thd, w1) ->
             framed w (snd st) /\
             (forall k, k <> fd thd -> files (snd st) k = files w k) /\
             (exists l, signalled (snd st) = signalled w ++ l) /\
             (wf_thd thd -> forall thd', fst st = Some thd' -> wf_thd thd')).
  { intros st ->. cbn. split; [exact Hfr|]. split; [exact Hother|].
    split; [exact Hnil|]. intros H thd' E. now injection E as <-. }
  destruct (ret <? 0); [now apply Hkeep|].
  destruct (n >? nb thd); [now apply Hkeep|].
  unfold write_all_fd.
  destruct (write_all buf (u64 ret) (files w1 (fd thd))) as [r f].
  set (thd1 := if u64 r >? 0 then _ else thd).
  assert (Hwf : wf_thd thd -> wf_thd thd1).
  { intros H. subst thd1. destruct (u64 r >? 0); [|exact H].
    unfold wf_thd; cbn. apply u32_range. }
  destruct Hfr as [H1 H2 H3 H4].
  destruct (u64 r <? 0); [|destruct (nb thd1 =? 0)]; cbn;
    (split; [constructor; assumption|]);
    (split; [intros k Hk; rewrite upd_other by assumption; now apply Hother|]);
    (split; [|intros ? ? E; inversion E; subst; auto]).
  - eexists. rewrite Hsig. reflexivity.
  - eexists. rewrite Hsig. reflexivity.
  - exists []. now rewrite app_nil_r.
Qed.

End Broadcast.

Lemma data_bytes_ext (f f' : FILE) (cs : list chunk) :
  contents f' = contents f ++ cs ->
  data_bytes f' = data_bytes f + data_bytes (mkFILE cs []).
Proof.
  unfold data_bytes. intros ->. cbn [contents].
  induction (contents f) as [|c l IH]; simpl; lia.
Qed.

Lemma status_lines_ext (f f' : FILE) (cs : list chunk) :
  contents f' = contents f ++ cs ->
  status_lines f' = status_lines f ++ status_lines (mkFILE cs []).
Proof.
  unfold status_lines. intros ->. cbn [contents]. apply flat_map_app.
Qed.

Lemma data_bytes_printed (l : list string) :
  data_bytes (mkFILE (map Printed l) []) = 0.
Proof. unfold data_bytes; cbn. induction l; simpl; lia. Qed.

Lemma status_lines_printed (l : list string) :
  status_lines (mkFILE (map Printed l) []) = l.
Proof.
  unfold status_lines; cbn. induction l as [|s l IH]; simpl; congruence.
Qed.

(** A write of nothing, or to a healthy stream, goes through. *)
Lemma write_all_ok (src : list ascii) (len : Z) (f : FILE) :
  0 <= len -> len = 0 \/ healthy f ->
  exists f',
    write_all src len f = (len, f') /\
    accepts f' = accepts f /\
    contents f' =
      contents f ++
      (if len =? 0 then [] else [Written (firstn (Z.to_nat len) src)]).
Proof.
  intros Hlen [->|Hf].
  - exists f. cbn. now rewrite app_nil_r.
  - rewrite write_all_healthy by assumption.
    destruct (len =? 0).
    + exists f. now rewrite app_nil_r.
    + eexists. split; [reflexivity|]. split; [now rewrite Hf|reflexivity].
Qed.

Section BroadcastOk.

Variable strerror_r : Z -> string.

(** One turn of the loop when the write, if there is one, goes through:
    the record is served or skipped as [round_record] says, and leaves the
    list exactly when it is owed nothing more. *)
Lemma broadcast_step_ok (size : Z) (r : hw_result) (thd : ThdEntry)
    (w : World) :
  0 < size -> hw_ret r < 2 ^ 63 -> wf_thd thd ->
  hw_ret r <= 0 \/ healthy (files w (fd thd)) ->
  let ret := hw_ret r in
  let res := broadcast_step strerror_r size ret (hw_buf r)
                            (u64 (Z.quot ret size)) thd w in
  fst res = (if round_done size ret thd then None
             else Some (round_record size ret thd)) /\
  signalled (snd res) =
    signalled w ++
    (if round_done size ret thd
     then [set_err 0 (round_record size ret thd)] else []) /\
  accepts (files (snd res) (fd thd)) = accepts (files w (fd thd)) /\
  data_bytes (files (snd res) (fd thd)) =
    data_bytes (files w (fd thd)) + (if served size ret thd then ret else 0) /\
  status_lines (files (snd res) (fd thd)) =
    status_lines (files w (fd thd)) ++ status_of strerror_r ret thd.
Proof.
  intros Hsize Hret Hwf Hok ret. subst ret. cbv zeta.
  unfold broadcast_step, bind.
  pose proof (emit_status_effect strerror_r (hw_ret r) thd w)
    as (Hfr & Hsig & Hother & Hcont & Hacc).
  destruct (emit_status strerror_r (hw_ret r) thd w) as [[] w1].
  cbn [snd] in *.
  assert (Hd1 : data_bytes (files w1 (fd thd)) = data_bytes (files w (fd thd)))
    by (rewrite (data_bytes_ext _ _ _ Hcont), data_bytes_printed; lia).
  assert (Hs1 : status_lines (files w1 (fd thd)) =
                status_lines (files w (fd thd)) ++
                status_of strerror_r (hw_ret r) thd)
    by (now rewrite (status_lines_ext _ _ _ Hcont), status_lines_printed).
  unfold round_done, round_record, served.
  destruct (hw_ret r <? 0) eqn:Eneg.
  { apply Z.ltb_lt in Eneg.
    assert (E : (0 <=? hw_ret r) = false) by (apply Z.leb_gt; lia).
    rewrite E. cbn. rewrite app_nil_r, Hsig, Hacc, Hd1, Hs1, Z.add_0_r.
    repeat split. }
  apply Z.ltb_ge in Eneg.
  assert (E : (0 <=? hw_ret r) = true) by (apply Z.leb_le; lia).
  rewrite E. cbn [andb].
  rewrite Z.quot_div_nonneg by lia.
  assert (Hq : 0 <= hw_ret r / size <= hw_ret r).
  { split; [apply Z.div_pos; lia|].
    apply Z.div_le_upper_bound; nia. }
  rewrite u64_small by lia.
  destruct (Z.gtb_spec (hw_ret r / size) (nb thd)) as [Hgt|Hle].
  { assert (E' : (hw_ret r / size <=? nb thd) = false) by (apply Z.leb_gt; lia).
    rewrite E'. cbn. rewrite app_nil_r, Hsig, Hacc, Hd1, Hs1, Z.add_0_r.
    repeat split. }
  assert (E' : (hw_ret r / size <=? nb thd) = true) by (apply Z.leb_le; lia).
  rewrite E'.
  rewrite u64_small by lia.
  unfold write_all_fd.
  destruct (write_all_ok (hw_buf r) (hw_ret r) (files w1 (fd thd)))
    as (f' & Hw & Hacc' & Hcont');
    [lia | destruct Hok as [Hok|Hok];
           [left; lia | right; unfold healthy; now rewrite Hacc] |].
  rewrite Hw; clear Hw.
  rewrite u64_small by lia.
  assert (Hthd : (if hw_ret r >? 0
                  then set_nb (u32 (nb thd - hw_ret r / size)) thd
                  else thd) = set_nb (nb thd - hw_ret r / size) thd).
  { destruct (Z.gtb_spec (hw_ret r) 0) as [Hpos|Hnp].
    - rewrite u32_small by (unfold wf_thd in Hwf; lia). reflexivity.
    - symmetry. apply set_nb_same.
      assert (Hz : hw_ret r = 0) by lia. rewrite Hz.
      rewrite Z.div_0_l by lia. lia. }
  rewrite Hthd; clear Hthd.
  assert (Eneg' : (hw_ret r <? 0) = false) by (apply Z.ltb_ge; lia).
  rewrite Eneg'.
  assert (Hdata : data_bytes f' =
                       data_bytes (files w (fd thd)) + hw_ret r)
    by (rewrite (data_bytes_ext _ _ _ Hcont'), Hd1;
            destruct (hw_ret r =? 0) eqn:Ez;
            [ apply Z.eqb_eq in Ez; cbn; lia
            | unfold data_bytes; cbn; rewrite length_firstn;
              pose proof (hw_buf_length r Eneg); lia ]).
  assert (Hstat : status_lines f' =
                       status_lines (files w (fd thd)) ++
                       status_of strerror_r (hw_ret r) thd)
    by (rewrite (status_lines_ext _ _ _ Hcont'), Hs1;
            destruct (hw_ret r =? 0); cbn; now rewrite app_nil_r).
  cbn [nb set_nb].
  destruct (nb thd - hw_ret r / size =? 0); cbn;
    rewrite ?upd_same, ?Hsig, ?app_nil_r;
    (split; [reflexivity|]); (split; [reflexivity|]);
    (split; [congruence|]); (split; assumption).
Qed.

End BroadcastOk.

Section BroadcastList.

Variable strerror_r : Z -> string.

Lemma broadcast_any (size ret : Z) (buf : list ascii) (n : Z)
    (thds : list ThdEntry) :
  forall w,
    let res := broadcast strerror_r size ret buf n thds w in
    framed w (snd res) /\
    (forall k, ~ In k (map fd thds) -> files (snd res) k = files w k) /\
    (exists l, signalled (snd res) = signalled w ++ l) /\
    (Forall wf_thd thds -> Forall wf_thd (fst res)).
Proof.
  induction thds as [|thd rest IH]; intros w; cbv zeta.
  - cbn. split; [apply framed_refl|]. split; [reflexivity|].
    split; [exists []; now rewrite app_nil_r|trivial].
  - cbn [broadcast]. unfold bind.
    pose proof (broadcast_step_any strerror_r size ret buf n thd w)
      as (Hfr & Hother & (l1 & Hsig) & Hwf).
    destruct (broadcast_step strerror_r size ret buf n thd w) as [o w1].
    specialize (IH w1). cbv zeta in IH.
    destruct IH as (Hfr' & Hother' & (l2 & Hsig') & Hwf').
    destruct (broadcast strerror_r size ret buf n rest w1) as [kept w2].
    cbn [fst snd pure] in *.
    split; [now apply framed_trans with w1|]. split; [|split].
    + intros k Hk. cbn in Hk.
      rewrite Hother' by (intros H; apply Hk; now right).
      apply Hother. intros E. apply Hk. left. now symmetry.
    + exists (l1 ++ l2). now rewrite Hsig', Hsig, app_assoc.
    + intros Hall. inversion Hall as [|? ? Hthd Hrest]; subst.
      destruct o as [thd'|]; auto.
Qed.

Lemma round_kept_cons (size ret : Z) (thd : ThdEntry) (rest : list ThdEntry) :
  round_kept size ret (thd :: rest) =
  if round_done size ret thd then round_kept size ret rest
  else round_record size ret thd :: round_kept size ret rest.
Proof. unfold round_kept. cbn. now destruct (round_done size ret thd). Qed.

Lemma round_signalled_cons (size ret : Z) (thd : ThdEntry)
    (rest : list ThdEntry) :
  round_signalled size ret (thd :: rest) =
  (if round_done size ret thd then [set_err 0 (round_record size ret thd)]
   else []) ++ round_signalled size ret rest.
Proof.
  unfold round_signalled. cbn. now destruct (round_done size ret thd).
Qed.

(** The whole loop when the writes go through. *)
Lemma broadcast_ok (size : Z) (r : hw_result) (thds : list ThdEntry) :
  0 < size -> hw_ret r < 2 ^ 63 -> Forall wf_thd thds ->
  forall w,
    hw_ret r <= 0 \/ (forall k, healthy (files w k)) ->
    let ret := hw_ret r in
    let res := broadcast strerror_r size ret (hw_buf r)
                         (u64 (Z.quot ret size)) thds w in
    fst res = round_kept size ret thds /\
    signalled (snd res) = signalled w ++ round_signalled size ret thds /\
    (forall k, accepts (files (snd res) k) = accepts (files w k)) /\
    (NoDup (map fd thds) ->
     forall thd, In thd thds ->
       data_bytes (files (snd res) (fd thd)) =
         data_bytes (files w (fd thd)) +
         (if served size ret thd then ret else 0) /\
       status_lines (files (snd res) (fd thd)) =
         status_lines (files w (fd thd)) ++ status_of strerror_r ret thd).
Proof.
  intros Hsize Hret Hwf.
  induction Hwf as [|thd rest Hthd Hrest IH]; intros w Hok; cbv zeta.
  - cbn. rewrite app_nil_r.
    split; [reflexivity|]. split; [reflexivity|]. split; [reflexivity|].
    intros _ t [].
  - cbn [broadcast]. unfold bind.
    pose proof (broadcast_step_any strerror_r size (hw_ret r) (hw_buf r)
                  (u64 (Z.quot (hw_ret r) size)) thd w)
      as (_ & Hother & _ & _).
    assert (Hok1 : hw_ret r <= 0 \/ healthy (files w (fd thd)))
      by (destruct Hok; [now left|now right]).
    pose proof (broadcast_step_ok strerror_r size r thd w Hsize Hret Hthd Hok1)
      as (Hres & Hsig & Hacc & Hdata & Hstat).
    cbv zeta in Hres, Hsig, Hacc, Hdata, Hstat.
    destruct (broadcast_step strerror_r size (hw_ret r) (hw_buf r)
                (u64 (Z.quot (hw_ret r) size)) thd w) as [o w1].
    cbn [fst snd] in *.
    assert (Hacc1 : forall k, accepts (files w1 k) = accepts (files w k)).
    { intros k. destruct (Nat.eq_dec k (fd thd)) as [->|Hk];
        [exact Hacc|now rewrite Hother]. }
    assert (Hok' : hw_ret r <= 0 \/ (forall k, healthy (files w1 k))).
    { destruct Hok as [Hok|Hok]; [now left|right].
      intros k. unfold healthy. rewrite Hacc1. apply Hok. }
    specialize (IH w1 Hok'). cbv zeta in IH.
    destruct IH as (Hres' & Hsig' & Hacc' & Hdata').
    pose proof (broadcast_any size (hw_ret r) (hw_buf r)
                  (u64 (Z.quot (hw_ret r) size)) rest w1)
      as (_ & Hother' & _ & _).
    destruct (broadcast strerror_r size (hw_ret r) (hw_buf r)
                (u64 (Z.quot (hw_ret r) size)) rest w1) as [kept w2].
    cbn [fst snd pure] in *.
    rewrite round_kept_cons, round_signalled_cons.
    split; [|split; [|split]].
    + subst o kept. now destruct (round_done size (hw_ret r) thd).
    + now rewrite Hsig', Hsig, app_assoc.
    + intros k. now rewrite Hacc', Hacc1.
    + intros Hnd t Hin. cbn in Hnd. inversion Hnd as [|? ? Hnotin Hnd']; subst.
      destruct Hin as [<-|Hin].
      * rewrite Hother' by assumption. split; assumption.
      * assert (Hne : fd t <> fd thd).
        { intros E. apply Hnotin. rewrite <- E. now apply in_map. }
        destruct (Hdata' Hnd' t Hin) as [Hd Hs].
        rewrite Hd, Hs, Hother by assumption. split; reflexivity.
Qed.


End BroadcastList.

(** ** Locking and logging *)

Lemma silent_refl (d : nat) (w : World) : silent d [] w w.
Proof. constructor; try reflexivity; [trivial|now rewrite app_nil_r]. Qed.

Lemma silent_trans (d : nat) (e1 e2 : list Event) (w w1 w2 : World) :
  silent d e1 w w1 -> silent d e2 w1 w2 -> silent d (e1 ++ e2) w w2.
Proof.
  intros [] []. constructor; try congruence; auto.
  rewrite si_trace1, si_trace0. now rewrite app_assoc.
Qed.

Lemma lock_devlist_silent (d : nat) (w : World) :
  silent d [Lock Devlist] w (snd (lock_devlist w)).
Proof. constructor; try reflexivity. trivial. Qed.

Lemma unlock_devlist_silent (d : nat) (w : World) :
  silent d [Unlock Devlist] w (snd (unlock_devlist w)).
Proof. constructor; try reflexivity. trivial. Qed.

Lemma emit_silent (d : nat) (e : Event) (w : World) :
  silent d [e] w (snd (emit e w)).
Proof. constructor; try reflexivity. trivial. Qed.

Lemma lock_thdlist_silent (d d' : nat) (w : World) :
  silent d [Lock (Thdlist d')] w (snd (lock_thdlist d' w)).
Proof.
  constructor; try reflexivity.
  - unfold waiters, lock_thdlist; world_simpl.
    apply waiters_update_lock.
  - unfold registered, lock_thdlist; world_simpl.
    now apply registered_update.
Qed.

Lemma unlock_thdlist_silent (d d' : nat) (w : World) :
  silent d [Unlock (Thdlist d')] w (snd (unlock_thdlist d' w)).
Proof.
  constructor; try reflexivity.
  - unfold waiters, unlock_thdlist; world_simpl.
    apply waiters_update_lock.
  - unfold registered, unlock_thdlist; world_simpl.
    now apply registered_update.
Qed.

Lemma to_read_silent (d : nat) (len : Z) (w : World) :
  silent d (read_events d len) w (snd (to_read d len w)) /\
  devlist_lock (snd (to_read d len w)) = false.
Proof.
  split.
  - unfold to_read, bind.
    pose proof (lock_devlist_silent d w) as H1.
    destruct (lock_devlist w) as [[] w1]. cbn [snd] in H1.
    pose proof (lock_thdlist_silent d d w1) as H2.
    destruct (lock_thdlist d w1) as [[] w2]. cbn [snd] in H2.
    pose proof (unlock_thdlist_silent d d w2) as H3.
    destruct (unlock_thdlist d w2) as [[] w3]. cbn [snd] in H3.
    pose proof (unlock_devlist_silent d w3) as H4.
    destruct (unlock_devlist w3) as [[] w4]. cbn [snd] in H4.
    pose proof (emit_silent d (ReadRaw d len) w4) as H5.
    destruct (emit (ReadRaw d len) w4) as [[] w5]. cbn [snd] in H5.
    exact (silent_trans d _ _ _ _ _ H1
             (silent_trans d _ _ _ _ _ H2
                (silent_trans d _ _ _ _ _ H3
                   (silent_trans d _ _ _ _ _ H4 H5)))).
  - reflexivity.
Qed.

Lemma put_thdlist_registered (d : nat) (l : list ThdEntry) (w : World) :
  registered d w ->
  waiters d (snd (put_thdlist d l w)) = l /\
  registered d (snd (put_thdlist d l w)).
Proof.
  intros Hreg. unfold put_thdlist; world_simpl. split.
  - now apply waiters_update_head.
  - unfold registered; world_simpl. now apply registered_update.
Qed.

(** ** One turn of the worker's loop *)

Section Worker.

Variable strerror_r : Z -> string.

Lemma iteration_failed (d : nat) (size max_size : Z) (env : Env) (ret : Z)
    (w : World) :
  ret < 0 ->
  read_thd_iteration strerror_r d size max_size env ret w =
  ((false, ret), snd (lock_devlist (snd (arrivals (before env) w)))).
Proof.
  intros Hret. unfold read_thd_iteration, bind.
  destruct (arrivals (before env) w) as [[] w1]. cbn [snd].
  apply Z.ltb_lt in Hret. cbn [lock_devlist]. now rewrite Hret.
Qed.

Lemma iteration_empty (d : nat) (size max_size : Z) (env : Env) (ret : Z)
    (w : World) :
  0 <= ret ->
  waiters d (snd (arrivals (before env) w)) = [] ->
  read_thd_iteration strerror_r d size max_size env ret w =
  ((false, ret),
   snd (unlock_thdlist d
          (snd (lock_thdlist d
                  (snd (lock_devlist (snd (arrivals (before env) w)))))))).
Proof.
  intros Hret Hempty. unfold read_thd_iteration, bind.
  destruct (arrivals (before env) w) as [[] w1]. cbn [snd] in *.
  apply Z.ltb_ge in Hret.
  pose proof (lock_devlist_silent d w1) as H1.
  destruct (lock_devlist w1) as [[] wa]. cbn [snd] in *.
  rewrite Hret.
  pose proof (lock_thdlist_silent d d wa) as H2.
  destruct (lock_thdlist d wa) as [[] wb]. cbn [snd] in *.
  unfold get_thdlist.
  rewrite (si_waiters _ _ _ _ H2), (si_waiters _ _ _ _ H1), Hempty.
  now destruct (unlock_thdlist d wb) as [[] wc].
Qed.

Lemma iteration_no_memory (d : nat) (size max_size : Z) (env : Env) (ret : Z)
    (w : World) :
  0 <= ret ->
  waiters d (snd (arrivals (before env) w)) <> [] ->
  malloc_buf env = false ->
  read_thd_iteration strerror_r d size max_size env ret w =
  ((false, - ENOMEM),
   snd (unlock_thdlist d
          (snd (lock_thdlist d
                  (snd (lock_devlist (snd (arrivals (before env) w)))))))).
Proof.
  intros Hret Hne Hmalloc. unfold read_thd_iteration, bind.
  destruct (arrivals (before env) w) as [[] w1]. cbn [snd] in *.
  apply Z.ltb_ge in Hret.
  pose proof (lock_devlist_silent d w1) as H1.
  destruct (lock_devlist w1) as [[] wa]. cbn [snd] in *.
  rewrite Hret.
  pose proof (lock_thdlist_silent d d wa) as H2.
  destruct (lock_thdlist d wa) as [[] wb]. cbn [snd] in *.
  unfold get_thdlist.
  rewrite (si_waiters _ _ _ _ H2), (si_waiters _ _ _ _ H1).
  destruct (waiters d w1) as [|t l]; [contradiction|].
  destruct (unlock_thdlist d wb) as [[] wc]. cbn [snd].
  now rewrite Hmalloc.
Qed.

Lemma iteration_round (d : nat) (size max_size : Z) (env : Env) (ret : Z)
    (w : World) :
  0 <= ret ->
  waiters d (snd (arrivals (before env) w)) <> [] ->
  malloc_buf env = true ->
  let w1 := snd (arrivals (before env) w) in
  read_thd_iteration strerror_r d size max_size env ret w =
  ((true, hw_ret (hw env (round_len d size max_size w1))),
   round_world strerror_r d size max_size env w1).
Proof.
  intros Hret Hne Hmalloc. cbv zeta.
  unfold read_thd_iteration, round_world, round_len, to_read,
    iio_device_read_raw, bind.
  destruct (arrivals (before env) w) as [[] w1]. cbn [snd] in *.
  apply Z.ltb_ge in Hret.
  pose proof (lock_devlist_silent d w1) as H1.
  destruct (lock_devlist w1) as [[] wa]. cbn [snd] in *.
  rewrite Hret.
  pose proof (lock_thdlist_silent d d wa) as H2.
  destruct (lock_thdlist d wa) as [[] wb]. cbn [snd] in *.
  unfold get_thdlist at 1.
  rewrite (si_waiters _ _ _ _ H2), (si_waiters _ _ _ _ H1).
  destruct (waiters d w1) as [|t l] eqn:Hw; [contradiction|].
  destruct (unlock_thdlist d wb) as [[] wc]. cbn [snd].
  rewrite Hmalloc. cbn [negb].
  destruct (unlock_devlist wc) as [[] wd]. cbn [snd].
  destruct (emit _ wd) as [[] we]. cbn [snd].
  destruct (arrivals (during env) we) as [[] w3]. cbn [snd pure].
  destruct (lock_thdlist d w3) as [[] wf]. cbn [snd].
  unfold get_thdlist.
  destruct (broadcast _ _ _ _ _ _ wf) as [kept wg]. cbn [fst snd].
  destruct (put_thdlist d kept wg) as [[] wh]. cbn [snd].
  now destruct (unlock_thdlist d wh) as [[] wi].
Qed.

End Worker.

Section Round.

Variable strerror_r : Z -> string.

Lemma round_world_obs (d : nat) (size max_size : Z) (env : Env)
    (w1 : World) :
  registered d w1 ->
  round_obs strerror_r d size env (round_len d size max_size w1) w1
            (round_world strerror_r d size max_size env w1).
Proof.
  intros Hreg. unfold round_world.
  set (len := round_len d size max_size w1).
  destruct (to_read_silent d len w1) as [H2 Hl2].
  set (w2 := snd (to_read d len w1)) in *.
  pose proof (arrivals_arrived d (during env) w2) as H3.
  set (w3 := snd (arrivals (during env) w2)) in *.
  pose proof (lock_thdlist_silent d d w3) as Hb.
  set (wb := snd (lock_thdlist d w3)) in *.
  destruct H3 as [Hf3 Hs3 Hl3 (tr & Ht3 & Hc3) Hn3 Hr3 (new & Hw3 & Hnd & Hnew)].
  destruct H2 as [Hw2 Hr2 Hf2 Hs2 Hn2 Ht2].
  destruct Hb as [Hwb Hrb Hfb Hsb Hnb Htb].
  assert (Hwaiters : waiters d wb = new ++ waiters d w1) by congruence.
  rewrite Hwaiters.
  pose proof (broadcast_any strerror_r size (hw_ret (hw env len))
                (hw_buf (hw env len))
                (u64 (Z.quot (hw_ret (hw env len)) size))
                (new ++ waiters d w1) wb) as ([Hd Hl Ht Hn] & _).
  set (res := broadcast strerror_r size (hw_ret (hw env len))
                (hw_buf (hw env len))
                (u64 (Z.quot (hw_ret (hw env len)) size))
                (new ++ waiters d w1) wb) in *.
  assert (Hregres : registered d (snd res)).
  { unfold registered. rewrite Hd. apply Hrb, Hr3, Hr2, Hreg. }
  destruct (put_thdlist_registered d (fst res) (snd res) Hregres)
    as [Hwp Hrp].
  pose proof (unlock_thdlist_silent d d (snd (put_thdlist d (fst res) (snd res))))
    as [Hw5 Hr5 Hf5 Hs5 Hn5 Ht5].
  apply (RoundObs strerror_r d size env len w1 _ new tr wb).
  - congruence.
  - congruence.
  - rewrite Hnb. rewrite <- Hn2. exact Hn3.
  - exact Hnd.
  - eapply Forall_impl; [|exact Hnew]. intros t [Hrange Hrec].
    split; [|exact Hrec]. rewrite Hnb. rewrite <- Hn2. exact Hrange.
  - exact Hc3.
  - rewrite Hw5. exact Hwp.
  - rewrite Hf5. reflexivity.
  - rewrite Hs5. reflexivity.
  - rewrite Ht5. unfold put_thdlist; world_simpl.
    rewrite Ht, Htb, Ht3, Ht2. now rewrite <- !app_assoc.
  - rewrite Hn5. unfold put_thdlist; world_simpl. exact Hn.
  - apply Hr5, Hrp.
  - unfold unlock_thdlist, put_thdlist; world_simpl.
    rewrite Hl. unfold wb, lock_thdlist; world_simpl.
    rewrite Hl3. exact Hl2.
Qed.

End Round.

(** ** Leaving the loop *)

Lemma drain_obs (ret : Z) (thds : list ThdEntry) :
  forall w,
    let w' := snd (drain ret thds w) in
    framed w w' /\ files w' = files w /\
    signalled w' = signalled w ++ drained ret thds.
Proof.
  induction thds as [|thd rest IH]; intros w; cbv zeta.
  - cbn. rewrite app_nil_r. repeat split.
  - cbn [drain]. unfold bind, pthread_cond_signal.
    specialize (IH (set_signalled
                      (signalled w ++
                       [if ret <? 0 then set_err ret thd else thd]) w)).
    cbv zeta in IH. destruct IH as ([H1 H2 H3 H4] & Hf & Hs).
    split; [constructor; assumption|]. split; [exact Hf|].
    rewrite Hs. cbn. now rewrite <- app_assoc.
Qed.

Lemma read_thd_exit_obs (d : nat) (ret : Z) (w : World) :
  exit_obs d ret w (snd (read_thd_exit d ret w)).
Proof.
  unfold read_thd_exit, bind.
  pose proof (lock_thdlist_silent d d w) as [Hw1 Hr1 Hf1 Hs1 Hn1 Ht1].
  destruct (lock_thdlist d w) as [[] w1]. cbn [snd] in *.
  unfold get_thdlist. rewrite Hw1.
  pose proof (drain_obs ret (waiters d w) w1) as ([Hd2 Hl2 Ht2 Hn2] & Hf2 & Hs2).
  cbv zeta in *.
  destruct (drain ret (waiters d w) w1) as [[] w2]. cbn [snd] in *.
  constructor; cbn.
  - apply find_entry_remove.
  - congruence.
  - congruence.
  - rewrite Ht2, Ht1. now rewrite <- !app_assoc.
  - reflexivity.
  - congruence.
Qed.

Section Step.

Variable strerror_r : Z -> string.

Lemma step_failed (d : nat) (size max_size : Z) (env : Env) (ret : Z)
    (w : World) :
  ret < 0 ->
  read_thd_step strerror_r d size max_size env ret w =
  (Terminated,
   snd (read_thd_exit d ret
          (snd (lock_devlist (snd (arrivals (before env) w)))))).
Proof.
  intros Hret. unfold read_thd_step, bind.
  rewrite iteration_failed by assumption.
  now destruct (read_thd_exit d ret _) as [[] w'].
Qed.

Lemma step_empty (d : nat) (size max_size : Z) (env : Env) (ret : Z)
    (w : World) :
  0 <= ret ->
  waiters d (snd (arrivals (before env) w)) = [] ->
  read_thd_step strerror_r d size max_size env ret w =
  (Terminated,
   snd (read_thd_exit d ret
          (snd (unlock_thdlist d
                  (snd (lock_thdlist d
                          (snd (lock_devlist
                                  (snd (arrivals (before env) w)))))))))).
Proof.
  intros Hret Hempty. unfold read_thd_step, bind.
  rewrite iteration_empty by assumption.
  now destruct (read_thd_exit d ret _) as [[] w'].
Qed.

Lemma step_no_memory (d : nat) (size max_size : Z) (env : Env) (ret : Z)
    (w : World) :
  0 <= ret ->
  waiters d (snd (arrivals (before env) w)) <> [] ->
  malloc_buf env = false ->
  read_thd_step strerror_r d size max_size env ret w =
  (Terminated,
   snd (read_thd_exit d (- ENOMEM)
          (snd (unlock_thdlist d
                  (snd (lock_thdlist d
                          (snd (lock_devlist
                                  (snd (arrivals (before env) w)))))))))).
Proof.
  intros Hret Hne Hmalloc. unfold read_thd_step, bind.
  rewrite iteration_no_memory by assumption.
  now destruct (read_thd_exit d (- ENOMEM) _) as [[] w'].
Qed.

Lemma step_round (d : nat) (size max_size : Z) (env : Env) (ret : Z)
    (w : World) :
  0 <= ret ->
  waiters d (snd (arrivals (before env) w)) <> [] ->
  malloc_buf env = true ->
  let w1 := snd (arrivals (before env) w) in
  read_thd_step strerror_r d size max_size env ret w =
  (Running (hw_ret (hw env (round_len d size max_size w1))),
   round_world strerror_r d size max_size env w1).
Proof.
  intros Hret Hne Hmalloc. cbv zeta. unfold read_thd_step, bind.
  now rewrite iteration_round by assumption.
Qed.

(** The four ways a turn can go. *)
Lemma step_cases (d : nat) (size max_size : Z) (env : Env) (ret : Z)
    (w : World) :
  let w1 := snd (arrivals (before env) w) in
  let st := read_thd_step strerror_r d size max_size env ret w in
  (0 <= ret /\ waiters d w1 <> [] /\ malloc_buf env = true /\
   st = (Running (hw_ret (hw env (round_len d size max_size w1))),
         round_world strerror_r d size max_size env w1)) \/
  (exists w2 ret',
     (ret' = ret \/ ret' = - ENOMEM) /\
     (ret < 0 \/ waiters d w1 = [] \/ malloc_buf env = false) /\
     (exists evs, silent d (Lock Devlist :: evs) w1 w2 /\
                  (evs = [] \/ evs = [Lock (Thdlist d); Unlock (Thdlist d)])) /\
     st = (Terminated, snd (read_thd_exit d ret' w2))).
Proof.
  cbv zeta.
  set (w1 := snd (arrivals (before env) w)).
  pose proof (lock_devlist_silent d w1) as H1.
  pose proof (lock_thdlist_silent d d (snd (lock_devlist w1))) as H2.
  pose proof (unlock_thdlist_silent d d
                (snd (lock_thdlist d (snd (lock_devlist w1))))) as H3.
  pose proof (silent_trans _ _ _ _ _ _ H1 (silent_trans _ _ _ _ _ _ H2 H3))
    as H123.
  destruct (Z.ltb_spec ret 0) as [Hneg|Hpos].
  { right. eexists; exists ret. split; [now left|]. split; [now left|].
    split; [exists []; split; [exact H1|now left]|].
    now apply step_failed. }
  destruct (waiters d w1) as [|t l] eqn:Hw.
  { right. eexists; exists ret. split; [now left|].
    split; [right; now left|].
    split; [eexists; split; [exact H123|now right]|].
    now apply step_empty. }
  destruct (malloc_buf env) eqn:Hm.
  - left. split; [exact Hpos|]. split; [discriminate|]. split; [reflexivity|].
    apply step_round; try assumption. fold w1. rewrite Hw. discriminate.
  - right. eexists; exists (- ENOMEM). split; [now right|].
    split; [right; now right|].
    split; [eexists; split; [exact H123|now right]|].
    apply step_no_memory; try assumption. fold w1. rewrite Hw. discriminate.
Qed.

End Step.

(** ** Traces *)

Lemma reads_app (d : nat) (a b : list Event) :
  reads d (a ++ b) = reads d a ++ reads d b.
Proof. unfold reads. apply flat_map_app. Qed.

Lemma holds_from_app (m : mutex) (init : bool) (a b : list Event) :
  holds_from m init (a ++ b) = holds_from m (holds_from m init a) b.
Proof. unfold holds_from. apply fold_left_app. Qed.

Lemma client_events_neutral (d : nat) (tr : list Event) :
  forallb client_event tr = true ->
  reads d tr = [] /\
  (forall m b, holds_from m b tr = b) /\
  (forall dl tl, reads_unlocked d dl tl tr = true).
Proof.
  induction tr as [|e tr IH]; intros H; [repeat split|].
  cbn in H. apply andb_true_iff in H as [He Htr].
  destruct (IH Htr) as (IH1 & IH2 & IH3).
  destruct e; try discriminate; cbn; auto.
Qed.

Lemma reads_unlocked_app (d : nat) (a b : list Event) :
  forall dl tl,
    reads_unlocked d dl tl (a ++ b) =
    reads_unlocked d dl tl a &&
    reads_unlocked d (holds_from Devlist dl a) (holds_from (Thdlist d) tl a) b.
Proof.
  induction a as [|e a IH]; intros dl tl; [reflexivity|].
  cbn [app reads_unlocked]. rewrite IH. cbn. now rewrite andb_assoc.
Qed.

Lemma reads_unlocked_sound (d : nat) (tr : list Event) :
  forall dl tl,
    reads_unlocked d dl tl tr = true ->
    forall pre len post,
      tr = pre ++ ReadRaw d len :: post ->
      holds_from Devlist dl pre = false /\
      holds_from (Thdlist d) tl pre = false.
Proof.
  induction tr as [|e tr IH]; intros dl tl Hchk pre len post Heq.
  - now destruct pre.
  - cbn in Hchk. apply andb_true_iff in Hchk as [He Htr].
    destruct pre as [|e' pre]; cbn in Heq; injection Heq as -> ->.
    + rewrite Nat.eqb_refl in He. cbn.
      destruct dl, tl; try discriminate. now split.
    + cbn. now apply (IH _ _ Htr pre len post).
Qed.

Lemma mutex_eqb_refl (m : mutex) : mutex_eqb m m = true.
Proof. destruct m; [reflexivity|apply Nat.eqb_refl]. Qed.

Lemma read_events_unlocked (d : nat) (len : Z) :
  reads_unlocked d false false (read_events d len) = true /\
  holds_from Devlist false (read_events d len) = false /\
  holds_from (Thdlist d) false (read_events d len) = false /\
  reads d (read_events d len) = [len].
Proof. cbn. rewrite !Nat.eqb_refl. repeat split. Qed.

(** The batch size of the code is the one of the design document. *)
Lemma batch_samples_min (a cap : Z) (thds : list ThdEntry) :
  batch_samples (Z.min a cap) thds = Z.min a (batch_samples cap thds).
Proof.
  unfold batch_samples.
  induction thds as [|t l IH]; cbn; [reflexivity|]. rewrite IH. lia.
Qed.

Lemma min_nb_batch_samples (thds : list ThdEntry) :
  forall cap, min_nb thds cap = batch_samples cap thds.
Proof.
  unfold min_nb.
  induction thds as [|t l IH]; intros cap; [reflexivity|].
  cbn [fold_left]. rewrite IH.
  replace (if nb t <? cap then nb t else cap) with (Z.min (nb t) cap)
    by (destruct (Z.ltb_spec (nb t) cap); lia).
  apply batch_samples_min.
Qed.

Lemma batch_samples_bounds (cap : Z) (thds : list ThdEntry) :
  0 <= cap -> Forall wf_thd thds ->
  0 <= batch_samples cap thds <= cap.
Proof.
  intros Hcap Hwf. unfold batch_samples.
  induction Hwf as [|t l Ht Hl IH]; cbn; [lia|].
  unfold wf_thd in Ht. lia.
Qed.

Lemma cap_bounds (size : Z) :
  0 < size -> 0 <= 1024 / size <= 1024 /\ 1024 / size * size <= 1024.
Proof.
  intros Hsize. split; [split|].
  - apply Z.div_pos; lia.
  - apply Z.div_le_upper_bound; nia.
  - rewrite Z.mul_comm. apply Z.mul_div_le. lia.
Qed.

(** The length of the hardware read of a round. *)
Lemma round_len_batch (d : nat) (size : Z) (w1 : World) :
  0 < size -> Forall wf_thd (waiters d w1) ->
  round_len d size (u32 (1024 / size)) w1 =
    batch_samples (1024 / size) (waiters d w1) * size /\
  0 <= round_len d size (u32 (1024 / size)) w1 <= 1024.
Proof.
  intros Hsize Hwf. unfold round_len.
  destruct (cap_bounds size Hsize) as [Hcap Hmul].
  rewrite u32_small by lia. rewrite min_nb_batch_samples.
  pose proof (batch_samples_bounds (1024 / size) _ ltac:(lia) Hwf) as Hb.
  assert (0 <= batch_samples (1024 / size) (waiters d w1) * size <= 1024)
    by nia.
  rewrite u64_small by lia. split; [reflexivity|assumption].
Qed.

Section Properties.

Variable strerror_r : Z -> string.

(** ** Attribute read on an unknown device *)

(** C8.  When [get_device] finds no device for the identifier,
    [read_dev_attr] returns -19 ([-ENODEV]) and puts exactly one line on the
    client's stream: the bare code ["-19"] when the client is not verbose,
    and ["ERROR: <message>"], without the code, when it is.  No other stream
    and no session is touched. *)
Theorem read_dev_attr_no_device
    (attr_read : iio_device -> string -> Z * list ascii)
    (pdata : parser_pdata) (id attr : string) (w : World) :
  get_device (ctx pdata) id = None ->
  let r := read_dev_attr strerror_r attr_read pdata id attr w in
  fst r = -19 /\
  contents (files (snd r) (out pdata)) =
    contents (files w (out pdata)) ++
    [Printed (if pdata_verbose pdata
              then "ERROR: " ++ strerror_r 19 ++ nl
              else "-19" ++ nl)] /\
  (forall k, k <> out pdata -> files (snd r) k = files w k) /\
  devlist_head (snd r) = devlist_head w /\
  signalled (snd r) = signalled w.
Proof.
  intros Hdev. unfold read_dev_attr. rewrite Hdev.
  destruct (pdata_verbose pdata); cbn; unfold upd;
    rewrite Nat.eqb_refl; (repeat split; try reflexivity);
    intros k Hk; apply Nat.eqb_neq in Hk; now rewrite Hk.
Qed.

(** ** Attaching to a session *)

(** C7.  A request that finds a session for its device with another sample
    size returns [-EINVAL] at once and leaves the whole state as it was: the
    sessions and their waiters, every stream, the signalled records. *)
Theorem read_buffer_size_mismatch
    (sys : Sys) (pdata : parser_pdata) (d : nat) (n size : Z)
    (entry : DevEntry) (w : World) :
  devlist_lock w = false ->
  find_entry d (devlist_head w) = Some entry ->
  sample_size entry <> size ->
  read_buffer_attach sys pdata d n size w = (Returned (-22), w).
Proof.
  intros Hlock Hfind Hsize. unfold read_buffer_attach.
  rewrite Hlock, Hfind.
  apply Z.eqb_neq in Hsize. now rewrite Hsize.
Qed.


(** ** The size of a batch *)

(** C1.  In a turn of the loop that finds waiters (and memory for the
    buffer), the worker issues exactly one hardware read, for
    [min (cap, min of the waiters' remaining counts)] samples, that is for
    that many times [sample_size] bytes; the cap is [1024 / sample_size]
    and does not depend on the waiters. *)
Theorem batch_is_min_of_cap_and_remaining
    (d : nat) (size : Z) (env : Env) (ret : Z) (w : World) :
  0 < size -> 0 <= ret -> malloc_buf env = true ->
  let w1 := snd (arrivals (before env) w) in
  waiters d w1 <> [] -> Forall wf_thd (waiters d w1) ->
  reads d (trace (snd (read_thd_iteration strerror_r d size
                         (u32 (1024 / size)) env ret w))) =
  reads d (trace w) ++
  [batch_samples (1024 / size) (waiters d w1) * size].
Proof.
  intros Hsize Hret Hmalloc w1 Hne Hwf.
  rewrite iteration_round by assumption. cbn [snd]. fold w1.
  destruct (round_world_obs strerror_r d size (u32 (1024 / size)) env w1
              (waiters_nonempty_registered d w1 Hne))
    as [new tr wb _ _ _ _ _ Htr _ _ _ Ht5 _ _ _].
  destruct (arrivals_arrived d (before env) w) as [_ _ _ (tr0 & Ht0 & Hc0) _ _ _].
  fold w1 in Ht0.
  rewrite Ht5, Ht0, !reads_app.
  destruct (client_events_neutral d tr0 Hc0) as (-> & _ & _).
  destruct (client_events_neutral d tr Htr) as (-> & _ & _).
  destruct (read_events_unlocked d (round_len d size (u32 (1024 / size)) w1))
    as (_ & _ & _ & ->).
  destruct (round_len_batch d size w1 Hsize Hwf) as [-> _].
  cbn. now rewrite !app_nil_r.
Qed.

(** ** The locks around the hardware read *)

Lemma balanced_app (d : nat) (a b : list Event) :
  balanced d a -> balanced d b -> balanced d (a ++ b).
Proof.
  intros (Ha & Hda & Hta) (Hb & Hdb & Htb). unfold balanced.
  rewrite reads_unlocked_app, !holds_from_app, Hda, Hta, Ha, Hb.
  now repeat split.
Qed.

Lemma balanced_client (d : nat) (tr : list Event) :
  forallb client_event tr = true -> balanced d tr.
Proof.
  intros H. destruct (client_events_neutral d tr H) as (_ & Hh & Hr).
  unfold balanced. now rewrite Hr, !Hh.
Qed.

Lemma balanced_nil (d : nat) : balanced d [].
Proof. now repeat split. Qed.

Lemma step_balanced (d : nat) (size max_size : Z) (env : Env) (ret : Z)
    (w : World) :
  exists tr,
    trace (snd (read_thd_step strerror_r d size max_size env ret w)) =
      trace w ++ tr /\
    balanced d tr.
Proof.
  destruct (arrivals_arrived d (before env) w)
    as [_ _ _ (tr0 & Ht0 & Hc0) _ _ _].
  destruct (step_cases strerror_r d size max_size env ret w)
    as [(Hret & Hne & Hm & ->)|(w2 & ret' & _ & _ & (evs & Hs & Hevs) & ->)];
    cbn [snd].
  - destruct (round_world_obs strerror_r d size max_size env _
                (waiters_nonempty_registered d _ Hne))
      as [new tr wb _ _ _ _ _ Htr _ _ _ Ht5 _ _ _].
    eexists. split.
    + rewrite Ht5, Ht0, <- app_assoc. reflexivity.
    + apply balanced_app; [now apply balanced_client|].
      apply balanced_app.
      * destruct (read_events_unlocked
                    d (round_len d size max_size
                         (snd (arrivals (before env) w))))
          as (H1 & H2 & H3 & _).
        now repeat split.
      * apply balanced_app; [now apply balanced_client|].
        unfold balanced. cbn. rewrite ?Nat.eqb_refl. now repeat split.
  - destruct (read_thd_exit_obs d ret' w2) as [_ _ _ Htx _ _].
    destruct Hs as [_ _ _ _ _ Ht2].
    eexists. split.
    + rewrite Htx, Ht2, Ht0, <- !app_assoc. reflexivity.
    + apply balanced_app; [now apply balanced_client|].
      destruct Hevs as [->| ->]; unfold balanced; cbn; rewrite ?Nat.eqb_refl;
        now repeat split.
Qed.

Lemma loop_balanced (d : nat) (size max_size : Z) (envs : list Env) :
  forall ret w,
  exists tr,
    trace (snd (read_thd_loop strerror_r d size max_size envs ret w)) =
      trace w ++ tr /\
    balanced d tr.
Proof.
  induction envs as [|env envs IH]; intros ret w.
  - exists []. cbn. rewrite app_nil_r. split; [reflexivity|apply balanced_nil].
  - cbn [read_thd_loop]. unfold bind.
    destruct (step_balanced d size max_size env ret w) as (tr1 & Ht1 & Hb1).
    destruct (read_thd_step strerror_r d size max_size env ret w) as [st w1].
    cbn [snd] in Ht1.
    destruct st as [ret'| |].
    + destruct (IH ret' w1) as (tr2 & Ht2 & Hb2).
      exists (tr1 ++ tr2). split.
      * now rewrite Ht2, Ht1, app_assoc.
      * now apply balanced_app.
    + exists tr1. now split.
    + exists tr1. now split.
Qed.

(** C9.  Whatever the environment does, every hardware read of the worker
    of a session is issued at a moment when the worker holds neither
    [devlist_lock] nor the session's [thdlist_lock]: in the events the
    worker adds to the trace, the locks taken before a read have all been
    released before it (the next [Lock] of [thdlist_lock] comes after the
    read). *)
Theorem read_raw_without_locks (entry : DevEntry) (envs : list Env)
    (w : World) :
  exists tr,
    trace (snd (read_thd strerror_r entry envs w)) = trace w ++ tr /\
    forall pre len post,
      tr = pre ++ ReadRaw (dev entry) len :: post ->
      holds Devlist pre = false /\ holds (Thdlist (dev entry)) pre = false.
Proof.
  unfold read_thd.
  destruct (sample_size entry =? 0).
  - exists []. cbn. rewrite app_nil_r. split; [reflexivity|].
    intros pre len post H. now destruct pre.
  - destruct (loop_balanced (dev entry) (sample_size entry)
                (u32 (1024 / sample_size entry)) envs 0 w)
      as (tr & Ht & Hb & _).
    exists tr. split; [exact Ht|].
    intros pre len post Heq.
    exact (reads_unlocked_sound (dev entry) tr false false Hb pre len post Heq).
Qed.

(** ** The length of a hardware read *)

Lemma wf_of_request (r : Request) (t : ThdEntry) :
  wf_request r -> record_of r t -> wf_thd t.
Proof. unfold wf_request, record_of, wf_thd. intros H (-> & _). exact H. Qed.

Lemma arrived_wf (d : nat) (reqs : list Request) (w w' : World) :
  arrived d reqs w w' -> Forall wf_request reqs ->
  Forall wf_thd (waiters d w) -> Forall wf_thd (waiters d w').
Proof.
  intros [_ _ _ _ _ _ (new & -> & _ & Hnew)] Hreqs Hwf.
  apply Forall_app. split; [|exact Hwf].
  rewrite Forall_forall in *. intros t Ht.
  destruct (Hnew t Ht) as [_ (r & Hr & Hrec)].
  exact (wf_of_request r t (Hreqs r Hr) Hrec).
Qed.

Lemma arrived_origin (d : nat) (reqs : list Request) (w w' : World) :
  arrived d reqs w w' ->
  forall t, In t (waiters d w') ->
    In t (waiters d w) \/ exists r, In r reqs /\ record_of r t.
Proof.
  intros [_ _ _ _ _ _ (new & -> & _ & Hnew)] t Ht.
  apply in_app_or in Ht as [Ht|Ht]; [right|now left].
  rewrite Forall_forall in Hnew. now destruct (Hnew t Ht).
Qed.

Lemma new_wf (env_reqs : list Request) (lo hi : nat) (new : list ThdEntry) :
  Forall wf_request env_reqs ->
  Forall (fun t => (lo <= tid t < hi)%nat /\
                   exists r, In r env_reqs /\ record_of r t) new ->
  Forall wf_thd new.
Proof.
  intros Hreqs Hnew. rewrite Forall_forall in *. intros t Ht.
  destruct (Hnew t Ht) as [_ (r & Hr & Hrec)].
  exact (wf_of_request r t (Hreqs r Hr) Hrec).
Qed.

Lemma waiters_gone (d : nat) (w : World) :
  find_entry d (devlist_head w) = None -> waiters d w = [].
Proof. unfold waiters. now intros ->. Qed.

(** A round that brought nothing leaves every record that stays as it was. *)
Lemma round_kept_incl (size ret : Z) (thds : list ThdEntry) :
  0 < size -> ret <= 0 -> incl (round_kept size ret thds) thds.
Proof.
  intros Hsize Hret t Ht. unfold round_kept in Ht.
  apply in_map_iff in Ht as (t0 & <- & Ht0).
  apply filter_In in Ht0 as [Hin _].
  unfold round_record, served.
  destruct (Z.leb_spec 0 ret); cbn [andb]; [|exact Hin].
  assert (ret = 0) as -> by lia. rewrite Z.div_0_l by lia.
  destruct (0 <=? nb t0); [|exact Hin].
  rewrite set_nb_same by lia. exact Hin.
Qed.

Lemma step_reads (d : nat) (size : Z) (env : Env) (ret : Z) (w : World) :
  0 < size ->
  Forall wf_thd (waiters d w) ->
  Forall wf_request (before env ++ during env) ->
  let w' := snd (read_thd_step strerror_r d size (u32 (1024 / size)) env ret w)
  in
  Forall wf_thd (waiters d w') /\
  exists lens,
    reads d (trace w') = reads d (trace w) ++ lens /\
    Forall (fun len => 0 <= len <= 1024) lens /\
    (1024 < size -> hw_contract env ->
     Forall (fun len => len = 0) lens /\
     forall t, In t (waiters d w') ->
       In t (waiters d w) \/
       exists r, In r (before env ++ during env) /\ record_of r t).
Proof.
  intros Hsize Hwf Hreqs. cbv zeta.
  apply Forall_app in Hreqs as [Hbefore Hduring].
  pose proof (arrivals_arrived d (before env) w) as Harr.
  pose proof (arrived_wf _ _ _ _ Harr Hbefore Hwf) as Hwf1.
  pose proof (arrived_origin _ _ _ _ Harr) as Horigin.
  destruct Harr as [_ _ _ (tr0 & Ht0 & Hc0) _ _ _].
  destruct (client_events_neutral d tr0 Hc0) as (Hr0 & _ & _).
  destruct (step_cases strerror_r d size (u32 (1024 / size)) env ret w)
    as [(Hret & Hne & Hm & ->)|(w2 & ret' & _ & _ & (evs & Hs & Hevs) & ->)];
    cbn [snd].
  - set (w1 := snd (arrivals (before env) w)) in *.
    destruct (round_len_batch d size w1 Hsize Hwf1) as [Hlen Hbound].
    destruct (round_world_obs strerror_r d size (u32 (1024 / size)) env w1
                (waiters_nonempty_registered d w1 Hne))
      as [new tr wb Hfb Hsb _ _ Hnew Htr Hw5 _ _ Ht5 _ _ _].
    set (len := round_len d size (u32 (1024 / size)) w1) in *.
    pose proof (new_wf _ _ _ _ Hduring Hnew) as Hwfnew.
    assert (Hall : Forall wf_thd (new ++ waiters d w1))
      by (apply Forall_app; now split).
    destruct (broadcast_any strerror_r size (hw_ret (hw env len))
                (hw_buf (hw env len))
                (u64 (Z.quot (hw_ret (hw env len)) size))
                (new ++ waiters d w1) wb) as (_ & _ & _ & Hkept).
    split; [rewrite Hw5; now apply Hkept|].
    exists [len]. split; [|split].
    + rewrite Ht5, Ht0, !reads_app, Hr0.
      destruct (client_events_neutral d tr Htr) as (-> & _ & _).
      destruct (read_events_unlocked d len) as (_ & _ & _ & ->).
      cbn. now rewrite !app_nil_r.
    + now constructor.
    + intros Hbig Hhw.
      assert (Hzero : len = 0).
      { subst len. rewrite Hlen.
        rewrite Z.div_small by lia.
        pose proof (batch_samples_bounds 0 _ ltac:(lia) Hwf1). lia. }
      split; [now constructor|].
      intros t Ht. rewrite Hw5 in Ht.
      assert (Hret0 : hw_ret (hw env len) <= 0)
        by (rewrite Hzero; apply Hhw; lia).
      destruct (broadcast_ok strerror_r size (hw env len)
                  (new ++ waiters d w1) Hsize ltac:(lia) Hall wb
                  ltac:(now left)) as (Hres & _).
      cbv zeta in Hres. rewrite Hres in Ht.
      apply (round_kept_incl size _ _ Hsize Hret0) in Ht.
      apply in_app_or in Ht as [Ht|Ht].
      * right. rewrite Forall_forall in Hnew.
        destruct (Hnew t Ht) as [_ (r & Hr & Hrec)].
        exists r. split; [apply in_or_app; now right|exact Hrec].
      * destruct (Horigin t Ht) as [H|(r & Hr & Hrec)]; [now left|right].
        exists r. split; [apply in_or_app; now left|exact Hrec].
  - destruct (read_thd_exit_obs d ret' w2) as [Hgone _ _ Htx _ _].
    rewrite (waiters_gone d _ Hgone).
    split; [constructor|].
    exists []. split; [|split].
    + destruct Hs as [_ _ _ _ _ Ht2].
      rewrite Htx, Ht2, Ht0, !reads_app, Hr0.
      destruct Hevs as [->| ->]; cbn; now rewrite !app_nil_r.
    + constructor.
    + intros _ _. split; [constructor|intros t []].
Qed.

Lemma loop_reads (d : nat) (size : Z) (envs : list Env) :
  0 < size ->
  forall ret w,
    Forall wf_thd (waiters d w) ->
    Forall wf_request (requests envs) ->
    let w' := snd (read_thd_loop strerror_r d size (u32 (1024 / size)) envs
                                 ret w) in
    exists lens,
      reads d (trace w') = reads d (trace w) ++ lens /\
      Forall (fun len => 0 <= len <= 1024) lens /\
      (1024 < size -> Forall hw_contract envs ->
       Forall (fun len => len = 0) lens /\
       forall t, In t (waiters d w') ->
         In t (waiters d w) \/
         exists r, In r (requests envs) /\ record_of r t).
Proof.
  intros Hsize.
  induction envs as [|env envs IH]; intros ret w Hwf Hreqs; cbv zeta.
  - exists []. cbn. rewrite app_nil_r. split; [reflexivity|].
    split; [constructor|]. intros _ _. split; [constructor|now left].
  - cbn [requests flat_map] in Hreqs.
    apply Forall_app in Hreqs as [Hhere Hlater].
    cbn [read_thd_loop]. unfold bind.
    pose proof (step_reads d size env ret w Hsize Hwf Hhere)
      as (Hwf1 & lens1 & Hr1 & Hb1 & Hbig1).
    cbv zeta in *.
    destruct (read_thd_step strerror_r d size (u32 (1024 / size)) env ret w)
      as [st w1].
    cbn [snd] in *.
    assert (Hstop :
      exists lens,
        reads d (trace w1) = reads d (trace w) ++ lens /\
        Forall (fun len => 0 <= len <= 1024) lens /\
        (1024 < size -> Forall hw_contract (env :: envs) ->
         Forall (fun len => len = 0) lens /\
         forall t, In t (waiters d w1) ->
           In t (waiters d w) \/
           exists r, In r (requests (env :: envs)) /\ record_of r t)).
    { exists lens1. split; [exact Hr1|]. split; [exact Hb1|].
      intros Hbig Hhw. inversion Hhw as [|? ? Hhw1 Hhw2]; subst.
      destruct (Hbig1 Hbig Hhw1) as [Hz Ho]. split; [exact Hz|].
      intros t Ht. destruct (Ho t Ht) as [H|(r & Hr & Hrec)]; [now left|].
      right. exists r. split; [|exact Hrec].
      cbn [requests flat_map]. apply in_or_app. now left. }
    destruct st as [ret'| |]; cbn [pure snd]; try exact Hstop.
    destruct (IH ret' w1 Hwf1 Hlater) as (lens2 & Hr2 & Hb2 & Hbig2).
    exists (lens1 ++ lens2). split; [|split].
    + now rewrite Hr2, Hr1, app_assoc.
    + apply Forall_app. now split.
    + intros Hbig Hhw. inversion Hhw as [|? ? Hhw1 Hhw2]; subst.
      destruct (Hbig1 Hbig Hhw1) as [Hz1 Ho1].
      destruct (Hbig2 Hbig Hhw2) as [Hz2 Ho2].
      split; [apply Forall_app; now split|].
      intros t Ht. cbn [requests flat_map].
      destruct (Ho2 t Ht) as [H|(r & Hr & Hrec)].
      * destruct (Ho1 t H) as [H'|(r & Hr & Hrec)]; [now left|].
        right. exists r. split; [apply in_or_app; now left|exact Hrec].
      * right. exists r. split; [apply in_or_app; now right|exact Hrec].
Qed.

(** C10.  No hardware read of a session asks for more than 1024 bytes.  When
    the sample size is larger than 1024 the cap [1024 / sample_size] is
    zero: every read asks for 0 bytes and, the device returning no more
    than it is asked for, every record attached at the end is the very
    record that was attached at the start or that a request built: nobody's
    remaining count has decreased. *)
Theorem read_length_bounded_large_samples_stall
    (entry : DevEntry) (envs : list Env) (w : World) :
  0 <= sample_size entry ->
  Forall wf_thd (waiters (dev entry) w) ->
  Forall wf_request (requests envs) ->
  let w' := snd (read_thd strerror_r entry envs w) in
  exists lens,
    reads (dev entry) (trace w') = reads (dev entry) (trace w) ++ lens /\
    Forall (fun len => 0 <= len <= 1024) lens /\
    (1024 < sample_size entry -> Forall hw_contract envs ->
     1024 / sample_size entry = 0 /\
     Forall (fun len => len = 0) lens /\
     forall t, In t (waiters (dev entry) w') ->
       In t (waiters (dev entry) w) \/
       exists r, In r (requests envs) /\ record_of r t).
Proof.
  intros Hsize Hwf Hreqs. cbv zeta. unfold read_thd.
  destruct (Z.eqb_spec (sample_size entry) 0) as [Hz|Hnz].
  - exists []. cbn. rewrite app_nil_r. split; [reflexivity|].
    split; [constructor|]. intros Hbig. lia.
  - destruct (loop_reads (dev entry) (sample_size entry) envs ltac:(lia) 0 w
                Hwf Hreqs) as (lens & Hr & Hb & Hbig).
    exists lens. split; [exact Hr|]. split; [exact Hb|].
    intros H1 H2. split; [apply Z.div_small; lia|]. now apply Hbig.
Qed.

(** ** A failed hardware read *)

Lemma broadcast_error (size ret : Z) (buf : list ascii) (n : Z)
    (thds : list ThdEntry) :
  ret < 0 ->
  forall w,
    fst (broadcast strerror_r size ret buf n thds w) = thds /\
    signalled (snd (broadcast strerror_r size ret buf n thds w)) =
      signalled w.
Proof.
  intros Hret. apply Z.ltb_lt in Hret.
  induction thds as [|thd rest IH]; intros w; [now split|].
  cbn [broadcast]. unfold bind at 1 2. unfold broadcast_step, bind.
  pose proof (emit_status_effect strerror_r ret thd w) as (_ & Hsig & _).
  destruct (emit_status strerror_r ret thd w) as [[] w1]. cbn [snd] in Hsig.
  rewrite Hret. cbn [pure].
  destruct (IH w1) as [Hk Hs].
  destruct (broadcast strerror_r size ret buf n rest w1) as [kept w2].
  cbn [fst snd pure] in *. split; congruence.
Qed.


(** ** A stream that refuses the data *)

(** Whatever [write_all] returns, a record signalled by the broadcast loop
    carries the outcome 0: the branch [ret2 < 0] is never taken, [ret2]
    being unsigned. *)
Lemma broadcast_step_never_reports (size ret : Z) (buf : list ascii) (n : Z)
    (thd : ThdEntry) (w : World) :
  exists l,
    signalled (snd (broadcast_step strerror_r size ret buf n thd w)) =
      signalled w ++ l /\
    Forall (fun t => err t = Some 0) l.
Proof.
  unfold broadcast_step, bind.
  pose proof (emit_status_effect strerror_r ret thd w) as (_ & Hsig & _).
  destruct (emit_status strerror_r ret thd w) as [[] w1]. cbn [snd] in Hsig.
  assert (Hnil : exists l, signalled w1 = signalled w ++ l /\
                           Forall (fun t => err t = Some 0) l)
    by (exists []; rewrite app_nil_r; now split).
  destruct (ret <? 0); [exact Hnil|].
  destruct (n >? nb thd); [exact Hnil|].
  unfold write_all_fd.
  destruct (write_all buf (u64 ret) (files w1 (fd thd))) as [r f].
  destruct (Z.ltb_spec (u64 r) 0) as [Hneg|_].
  { pose proof (u64_range r). lia. }
  destruct (nb (if u64 r >? 0 then _ else thd) =? 0); cbn.
  - eexists. rewrite Hsig. split; [reflexivity|]. now repeat constructor.
  - exists []. rewrite app_nil_r. now split.
Qed.

(** ** Records are served, and removed, in an orderly way *)

Lemma filter_partition (A : Type) (f : A -> bool) (l : list A) :
  Permutation (filter f l ++ filter (fun x => negb (f x)) l) l.
Proof.
  induction l as [|a l IH]; cbn; [constructor|].
  destruct (f a); cbn.
  - now constructor.
  - apply Permutation_sym, Permutation_cons_app, Permutation_sym, IH.
Qed.

Lemma round_record_tid (size ret : Z) (t : ThdEntry) :
  tid (round_record size ret t) = tid t.
Proof. unfold round_record. now destruct (served size ret t). Qed.

Lemma round_record_nb (size ret : Z) (t : ThdEntry) :
  0 < size -> wf_thd t ->
  0 <= nb (round_record size ret t) <= nb t.
Proof.
  intros Hsize Hwf. unfold round_record, served, wf_thd in *.
  destruct (Z.leb_spec 0 ret); cbn [andb]; [|lia].
  destruct (Z.leb_spec (ret / size) (nb t)); cbn; [|lia].
  assert (0 <= ret / size) by (apply Z.div_pos; lia). lia.
Qed.

Lemma round_tids (size ret : Z) (l sig : list ThdEntry) :
  Permutation (map tid (round_kept size ret l ++ sig ++
                        round_signalled size ret l))
              (map tid (l ++ sig)).
Proof.
  unfold round_kept, round_signalled. rewrite !map_app, !map_map.
  rewrite (map_ext (fun x => tid (round_record size ret x)) tid)
    by (intros; apply round_record_tid).
  rewrite (map_ext (fun x => tid (set_err 0 (round_record size ret x))) tid)
    by (intros; cbn; apply round_record_tid).
  apply Permutation_trans
    with (map tid (filter (fun thd => negb (round_done size ret thd)) l) ++
          map tid (filter (round_done size ret) l) ++ map tid sig).
  { apply Permutation_app_head, Permutation_app_comm. }
  rewrite app_assoc. apply Permutation_app_tail.
  rewrite <- map_app. apply Permutation_map.
  apply Permutation_trans
    with (filter (round_done size ret) l ++
          filter (fun thd => negb (round_done size ret thd)) l).
  - apply Permutation_app_comm.
  - apply filter_partition.
Qed.

Lemma round_member (size ret : Z) (l : list ThdEntry) (t : ThdEntry) :
  In t l ->
  In (round_record size ret t) (round_kept size ret l) \/
  In (set_err 0 (round_record size ret t)) (round_signalled size ret l).
Proof.
  intros Hin. unfold round_kept, round_signalled.
  destruct (round_done size ret t) eqn:E; [right|left];
    apply in_map_iff; exists t; (split; [reflexivity|]);
    apply filter_In; split; try assumption. now rewrite E.
Qed.

Lemma fresh_join (old new : list ThdEntry) (lo hi : nat) :
  (lo <= hi)%nat ->
  NoDup (map tid old) -> Forall (fun t => (tid t < lo)%nat) old ->
  NoDup (map tid new) ->
  Forall (fun t => (lo <= tid t < hi)%nat) new ->
  NoDup (map tid (new ++ old)) /\
  Forall (fun t => (tid t < hi)%nat) (new ++ old).
Proof.
  intros Hle Hold Hlo Hnew Hrange. split.
  - rewrite map_app. apply NoDup_app; try assumption.
    intros x Hx Hx'.
    apply in_map_iff in Hx as (t & <- & Ht).
    apply in_map_iff in Hx' as (t' & Heq & Ht').
    rewrite Forall_forall in Hlo, Hrange.
    specialize (Hlo _ Ht'). specialize (Hrange _ Ht). lia.
  - apply Forall_app. split.
    + eapply Forall_impl; [|exact Hrange]. cbn. intros; lia.
    + eapply Forall_impl; [|exact Hlo]. cbn. intros; lia.
Qed.

Lemma new_range (reqs : list Request) (lo hi : nat) (new : list ThdEntry) :
  Forall (fun t => (lo <= tid t < hi)%nat /\
                   exists r, In r reqs /\ record_of r t) new ->
  Forall (fun t => (lo <= tid t < hi)%nat) new.
Proof. apply Forall_impl. now intros t [H _]. Qed.

Lemma arrived_tidy (d : nat) (reqs : list Request) (w w' : World) :
  arrived d reqs w w' -> Forall wf_request reqs ->
  tidy d w -> tidy d w'.
Proof.
  intros Harr Hreqs [Hnd Hfresh Hwf Hhealthy].
  pose proof (arrived_wf _ _ _ _ Harr Hreqs Hwf) as Hwf'.
  destruct Harr as [Hf Hs _ _ Hn _ (new & Hw & Hndnew & Hnew)].
  destruct (fresh_join _ new _ _ Hn Hnd Hfresh Hndnew (new_range _ _ _ _ Hnew))
    as [Hnd' Hfresh'].
  constructor.
  - now rewrite Hw, Hs, <- app_assoc.
  - now rewrite Hw, Hs, <- app_assoc.
  - exact Hwf'.
  - intros k. rewrite Hf. apply Hhealthy.
Qed.

Lemma drained_tids (ret : Z) (l : list ThdEntry) :
  map tid (drained ret l) = map tid l.
Proof.
  unfold drained. rewrite map_map. apply map_ext.
  intros t. now destruct (ret <? 0).
Qed.

Lemma fresh_tids (n : nat) (l : list ThdEntry) :
  Forall (fun t => (tid t < n)%nat) l <->
  Forall (fun x => (x < n)%nat) (map tid l).
Proof. symmetry. apply Forall_map. Qed.

Lemma step_tidy (d : nat) (size max_size : Z) (env : Env) (ret : Z)
    (w : World) :
  0 < size -> tidy d w -> wf_env env ->
  let st := read_thd_step strerror_r d size max_size env ret w in
  tidy d (snd st) /\
  descends d w (snd st) /\
  (exists l, signalled (snd st) = signalled w ++ l) /\
  (fst st = Terminated -> waiters d (snd st) = []).
Proof.
  intros Hsize Htidy (Hbefore & Hduring & Hhw). cbv zeta.
  pose proof (arrivals_arrived d (before env) w) as Harr.
  pose proof (arrived_tidy _ _ _ _ Harr Hbefore Htidy) as Htidy1.
  assert (Hsub : forall t, In t (waiters d w) ->
                           In t (waiters d (snd (arrivals (before env) w)))).
  { destruct Harr as [_ _ _ _ _ _ (new0 & -> & _)].
    intros t Ht. apply in_or_app. now right. }
  assert (Hsig0 : signalled (snd (arrivals (before env) w)) = signalled w)
    by now destruct Harr.
  destruct Htidy as [_ _ Hwf0 _]. clear Harr.
  destruct (step_cases strerror_r d size max_size env ret w)
    as [(Hret & Hne & Hm & ->)|(w2 & ret' & _ & _ & (evs & Hs & _) & ->)];
    cbn [fst snd].
  - set (w1 := snd (arrivals (before env) w)) in *.
    destruct Htidy1 as [Hnd1 Hfresh1 Hwf1 Hhealthy1].
    destruct (round_world_obs strerror_r d size max_size env w1
                (waiters_nonempty_registered d w1 Hne))
      as [new tr wb Hfb Hsb Hnext Hndnew Hnew _ Hw5 Hf5 Hs5 _ Hn5 _ _].
    set (len := round_len d size max_size w1) in *.
    set (L := new ++ waiters d w1) in *.
    destruct (fresh_join _ new _ _ Hnext Hnd1 Hfresh1 Hndnew
                (new_range _ _ _ _ Hnew)) as [HndL HfreshL].
    rewrite app_assoc in HndL, HfreshL. fold L in HndL, HfreshL.
    assert (HwfL : Forall wf_thd L)
      by (apply Forall_app; split; [exact (new_wf _ _ _ _ Hduring Hnew)|
                                    exact Hwf1]).
    assert (Hhb : forall k, healthy (files wb k))
      by (intros k; rewrite Hfb; apply Hhealthy1).
    destruct (broadcast_ok strerror_r size (hw env len) L Hsize (Hhw len)
                HwfL wb (or_intror Hhb)) as (Hres & Hsigres & Hacc & _).
    destruct (broadcast_any strerror_r size (hw_ret (hw env len))
                (hw_buf (hw env len))
                (u64 (Z.quot (hw_ret (hw env len)) size)) L wb)
      as (_ & _ & _ & Hwfkept).
    cbv zeta in Hres, Hsigres, Hacc.
    set (res := broadcast strerror_r size (hw_ret (hw env len))
                  (hw_buf (hw env len))
                  (u64 (Z.quot (hw_ret (hw env len)) size)) L wb) in *.
    split; [|split; [|split]].
    + constructor.
      * rewrite Hw5, Hs5, Hres, Hsigres, Hsb.
        eapply Permutation_NoDup; [|exact HndL].
        apply Permutation_sym, round_tids.
      * rewrite Hw5, Hs5, Hres, Hsigres, Hsb, Hn5.
        apply fresh_tids.
        eapply Permutation_Forall;
          [apply Permutation_sym, round_tids|].
        now apply fresh_tids.
      * rewrite Hw5. now apply Hwfkept.
      * intros k. unfold healthy. rewrite Hf5, Hacc. apply Hhb.
    + intros t Ht.
      assert (HtL : In t L) by (apply in_or_app; right; now apply Hsub).
      rewrite Forall_forall in Hwf0.
      pose proof (round_record_nb size (hw_ret (hw env len)) t Hsize
                    (Hwf0 t Ht)) as Hnb.
      rewrite Hw5, Hs5, Hres, Hsigres.
      destruct (round_member size (hw_ret (hw env len)) L t HtL) as [H|H].
      * exists (round_record size (hw_ret (hw env len)) t).
        split; [apply in_or_app; now left|].
        split; [apply round_record_tid|exact Hnb].
      * exists (set_err 0 (round_record size (hw_ret (hw env len)) t)).
        split; [apply in_or_app; right; apply in_or_app; now right|].
        split; [apply round_record_tid|exact Hnb].
    + eexists. rewrite Hs5, Hsigres, Hsb, Hsig0. reflexivity.
    + discriminate.
  - set (w1 := snd (arrivals (before env) w)) in *.
    destruct Htidy1 as [Hnd1 Hfresh1 Hwf1 Hhealthy1].
    destruct Hs as [Hw2 _ Hf2 Hs2 Hn2 _].
    destruct (read_thd_exit_obs d ret' w2) as [Hgone Hfx Hsx _ _ Hnx].
    pose proof (waiters_gone d _ Hgone) as Hempty.
    rewrite Hw2, Hs2 in Hsx.
    assert (Hperm : Permutation
                      (map tid (signalled w1 ++ drained ret' (waiters d w1)))
                      (map tid (waiters d w1 ++ signalled w1))).
    { rewrite !map_app, drained_tids. apply Permutation_app_comm. }
    split; [|split; [|split]].
    + constructor.
      * rewrite Hempty, Hsx. cbn [app].
        eapply Permutation_NoDup; [apply Permutation_sym, Hperm|exact Hnd1].
      * rewrite Hempty, Hsx, Hnx, Hn2. cbn [app].
        apply fresh_tids.
        eapply Permutation_Forall; [apply Permutation_sym, Hperm|].
        now apply fresh_tids.
      * rewrite Hempty. constructor.
      * intros k. rewrite Hfx, Hf2. apply Hhealthy1.
    + intros t Ht. rewrite Hempty, Hsx. cbn [app].
      exists (if ret' <? 0 then set_err ret' t else t).
      split; [|split].
      * apply in_or_app. right. unfold drained.
        apply in_map_iff. exists t. split; [reflexivity|now apply Hsub].
      * now destruct (ret' <? 0).
      * rewrite Forall_forall in Hwf0. specialize (Hwf0 t Ht).
        unfold wf_thd in Hwf0. destruct (ret' <? 0); cbn; lia.
    + eexists. rewrite Hsx, Hsig0. reflexivity.
    + intros _. exact Hempty.
Qed.





(** ** Requests complete *)




End Properties.

(** ** Instances *)

Lemma read_dev_attr_no_device_witness :
  fst (read_dev_attr messages (fun _ _ => (0, [])) (client 3 true)
         "iio:device9" "sampling_frequency" world0) = -19 /\
  contents (files (snd (read_dev_attr messages (fun _ _ => (0, []))
                          (client 3 true) "iio:device9" "sampling_frequency"
                          world0)) 3) =
    [Printed ("ERROR: No such device" ++ nl)].
Proof.
  pose proof (read_dev_attr_no_device messages (fun _ _ => (0, []))
                (client 3 true) "iio:device9" "sampling_frequency" world0
                eq_refl) as H.
  cbv zeta in H. destruct H as (H1 & H2 & _). split; [exact H1|exact H2].
Defined.

Lemma read_buffer_size_mismatch_witness :
  read_buffer_attach sys_ok (client 2 false) 7 50 8
    (one_waiter_world false 100) =
  (Returned (-22), one_waiter_world false 100).
Proof.
  apply (read_buffer_size_mismatch sys_ok (client 2 false) 7 50 8
           (mkDev 7 4 [mkThd 0 100 None 1 false] false)).
  - reflexivity.
  - reflexivity.
  - simpl. lia.
Defined.

Lemma wf_thd_intro (t : ThdEntry) :
  (0 <=? nb t) && (nb t <? 2 ^ 32) = true -> wf_thd t.
Proof.
  intros H. apply andb_true_iff in H as [H1 H2].
  apply Z.leb_le in H1. apply Z.ltb_lt in H2. now split.
Qed.

Lemma full_read_fits (len : Z) : hw_ret (full_read len) < 2 ^ 63.
Proof. unfold full_read, hw_ret. rewrite repeat_length. lia. Qed.

Lemma full_read_contract : hw_contract (calm full_read).
Proof.
  intros len Hlen. unfold calm, full_read, hw, hw_ret.
  rewrite repeat_length. lia.
Qed.



Lemma no_files_healthy (k : nat) : healthy (no_files k).
Proof. reflexivity. Qed.

(** The round of a session with one waiter owed a hundred four-byte samples
    reads 400 bytes: the waiter's need is below the cap of 256 samples. *)
Lemma batch_is_min_of_cap_and_remaining_witness :
  reads 7 (trace (snd (read_thd_iteration messages 7 4 (u32 (1024 / 4))
                         (calm full_read) 0 (one_waiter_world true 100)))) =
  [400].
Proof.
  apply (batch_is_min_of_cap_and_remaining messages 7 4 (calm full_read) 0
           (one_waiter_world true 100)).
  - lia.
  - lia.
  - reflexivity.
  - discriminate.
  - constructor; [apply wf_thd_intro; reflexivity|constructor].
Defined.

(** Samples of 2048 bytes: three turns, three reads of zero bytes. *)
Lemma read_length_bounded_large_samples_stall_witness :
  exists lens,
    reads 7 (trace (snd (read_thd messages (mkDev 7 2048 [] false)
                           [calm full_read; calm full_read; calm full_read]
                           big_sample_world))) = lens /\
    Forall (fun len => len = 0) lens /\
    forall t,
      In t (waiters 7 (snd (read_thd messages (mkDev 7 2048 [] false)
                              [calm full_read; calm full_read; calm full_read]
                              big_sample_world))) ->
      t = mkThd 0 1 None 1 true.
Proof.
  destruct (read_length_bounded_large_samples_stall messages
              (mkDev 7 2048 [] false)
              [calm full_read; calm full_read; calm full_read]
              big_sample_world) as (lens & Hr & _ & Hbig).
  - simpl. lia.
  - repeat constructor; apply wf_thd_intro; reflexivity.
  - constructor.
  - destruct Hbig as (_ & Hzero & Hsame).
    + simpl. lia.
    + do 3 (apply Forall_cons; [exact full_read_contract|]).
      apply Forall_nil.
    + exists lens. split; [exact Hr|]. split; [exact Hzero|].
      intros t Ht. destruct (Hsame t Ht) as [[H|[]]|(r & [] & _)].
      symmetry. exact H.
Defined.

(** ** Where the design document and the code part *)

(** C4: the stream of the only waiter refuses the ten bytes of the round.
    [write_all] returns [-EIO]; the record is neither removed nor
    signalled, and is now owed fifteen samples instead of ten. *)
Lemma write_failure_not_delivered :
  fst (write_all (hw_buf (full_read 10)) 10
         (fprintf ("10" ++ nl) (files stuck_sink_world 1))) = - EIO /\
  fst (read_thd_step messages 7 1 1024 (calm full_read) 0 stuck_sink_world) =
    Running 10 /\
  waiters 7 (snd (read_thd_step messages 7 1 1024 (calm full_read) 0
                    stuck_sink_world)) = [mkThd 0 15 None 1 false] /\
  signalled (snd (read_thd_step messages 7 1 1024 (calm full_read) 0
                    stuck_sink_world)) = [].
Proof. vm_compute. repeat split. Qed.

(** * Further properties of ops.c *)

(** ** [write_all] *)

Lemma written_ext (f f' : FILE) (cs : list chunk) :
  contents f' = contents f ++ cs ->
  written f' = written f ++ written (mkFILE cs []).
Proof.
  unfold written. intros ->. cbn [contents]. apply flat_map_app.
Qed.

Lemma fwrite_written (ptr : list ascii) (len : Z) (f : FILE) :
  written (snd (fwrite ptr len f)) =
  written f ++ firstn (Z.to_nat (fst (fwrite ptr len f))) ptr.
Proof.
  unfold fwrite. destruct (accepts f) as [|k rest]; cbn [fst snd];
    unfold written; cbn [contents]; rewrite flat_map_app; cbn;
    now rewrite app_nil_r.
Qed.

Lemma fwrite_accepts (ptr : list ascii) (len : Z) (f : FILE) :
  accepts (snd (fwrite ptr len f)) = tl (accepts f).
Proof. unfold fwrite. now destruct (accepts f). Qed.

Lemma firstn_more (A : Type) (n m : nat) (l : list A) :
  firstn n l ++ firstn m (skipn n l) = firstn (n + m) l.
Proof.
  revert l. induction n as [|n IH]; intros l; [reflexivity|].
  destruct l as [|a l]; cbn; [now rewrite firstn_nil|].
  now rewrite IH.
Qed.

(** What the loop of [write_all] has pushed through the stream is always a
    prefix of what was left to write, and the result tells whether it is
    all of it. *)
Lemma write_all_loop_prefix (src : list ascii) :
  forall (fuel : nat) (ptr len : Z) (f : FILE),
    0 <= ptr -> 0 <= len -> (Z.to_nat len <= fuel)%nat ->
    exists k,
      0 <= k <= len /\
      written (snd (write_all_loop fuel src ptr len f)) =
        written f ++ firstn (Z.to_nat k) (skipn (Z.to_nat ptr) src) /\
      ((fst (write_all_loop fuel src ptr len f) = ptr + len /\ k = len) \/
       (fst (write_all_loop fuel src ptr len f) = - EIO /\ k < len)).
Proof.
  induction fuel as [|fuel IH]; intros ptr len f Hptr Hlen Hfuel.
  - exists 0. assert (len = 0) by lia. subst. cbn.
    rewrite app_nil_r. split; [lia|]. split; [reflexivity|]. left. lia.
  - cbn [write_all_loop]. destruct (Z.eqb_spec len 0) as [->|Hnz].
    + exists 0. cbn. rewrite app_nil_r. split; [lia|].
      split; [reflexivity|]. left. lia.
    + pose proof (fwrite_bounds (skipn (Z.to_nat ptr) src) len f Hlen) as Hb.
      pose proof (fwrite_written (skipn (Z.to_nat ptr) src) len f) as Hw.
      destruct (fwrite (skipn (Z.to_nat ptr) src) len f) as [ret f'].
      cbn [fst snd] in Hb, Hw.
      destruct (Z.eqb_spec ret 0) as [->|Hret].
      * exists 0. cbn [snd fst]. split; [lia|]. split; [exact Hw|].
        right. split; [reflexivity|lia].
      * destruct (IH (ptr + ret) (len - ret) f') as (k & Hk & Hwk & Hres);
          try lia.
        exists (ret + k). split; [lia|]. split.
        -- rewrite Hwk, Hw, <- app_assoc. f_equal.
           replace (Z.to_nat (ptr + ret))
             with (Z.to_nat ret + Z.to_nat ptr)%nat by lia.
           rewrite <- skipn_skipn.
           replace (Z.to_nat (ret + k))
             with (Z.to_nat ret + Z.to_nat k)%nat by lia.
           apply firstn_more.
        -- destruct Hres as [[Hr ->]|[Hr Hlt]]; [left|right];
             (split; [rewrite Hr|]); lia.
Qed.

(** X1.  [write_all] either returns [len], and then the stream has taken
    exactly the first [len] bytes of the buffer, or returns [-EIO], and
    then it has taken a proper prefix of them; nothing else reaches the
    stream, and the bytes arrive in order. *)
Theorem write_all_all_or_prefix (src : list ascii) (len : Z) (f : FILE) :
  0 <= len ->
  exists k,
    0 <= k <= len /\
    written (snd (write_all src len f)) =
      written f ++ firstn (Z.to_nat k) src /\
    ((fst (write_all src len f) = len /\ k = len) \/
     (fst (write_all src len f) = - EIO /\ k < len)).
Proof.
  intros Hlen. unfold write_all.
  destruct (write_all_loop_prefix src (Z.to_nat len) 0 len f)
    as (k & Hk & Hw & Hres); try lia.
  exists k. split; [exact Hk|]. split; [exact Hw|].
  destruct Hres as [[Hr ->]|[Hr Hlt]]; [left|right]; (split; [|lia]).
  - rewrite Hr. lia.
  - exact Hr.
Qed.

Lemma write_all_loop_progress (src : list ascii) :
  forall (fuel : nat) (ptr len : Z) (f : FILE),
    0 <= len -> (Z.to_nat len <= fuel)%nat ->
    Forall (fun k => (0 < k)%nat) (accepts f) ->
    fst (write_all_loop fuel src ptr len f) = ptr + len.
Proof.
  induction fuel as [|fuel IH]; intros ptr len f Hlen Hfuel Hpos.
  - cbn. lia.
  - cbn [write_all_loop]. destruct (Z.eqb_spec len 0) as [->|Hnz]; [cbn; lia|].
    pose proof (fwrite_accepts (skipn (Z.to_nat ptr) src) len f) as Hacc.
    assert (Hret : 0 < fst (fwrite (skipn (Z.to_nat ptr) src) len f) <= len).
    { unfold fwrite. destruct (accepts f) as [|k rest]; cbn [fst]; [lia|].
      inversion Hpos; subst. lia. }
    destruct (fwrite (skipn (Z.to_nat ptr) src) len f) as [ret f'].
    cbn [fst snd] in Hacc, Hret.
    destruct (Z.eqb_spec ret 0) as [->|_]; [lia|].
    rewrite IH; try lia.
    rewrite Hacc. destruct (accepts f); [constructor|].
    now inversion Hpos.
Qed.

(** X2.  On a stream that takes at least one byte at every attempt, however
    few, [write_all] returns [len] and the stream has taken exactly the
    first [len] bytes of the buffer. *)
Theorem write_all_partial_writes (src : list ascii) (len : Z) (f : FILE) :
  0 <= len ->
  Forall (fun k => (0 < k)%nat) (accepts f) ->
  fst (write_all src len f) = len /\
  written (snd (write_all src len f)) =
    written f ++ firstn (Z.to_nat len) src.
Proof.
  intros Hlen Hpos.
  assert (Hr : fst (write_all src len f) = len).
  { unfold write_all. rewrite write_all_loop_progress by (lia || assumption).
    lia. }
  split; [exact Hr|].
  unfold write_all in *.
  destruct (write_all_loop_prefix src (Z.to_nat len) 0 len f)
    as (k & Hk & Hw & [[_ ->]|[Hfail Hlt]]); try lia; [exact Hw|].
  rewrite Hr in Hfail. unfold EIO in Hfail. lia.
Qed.

Lemma total_nonneg (l : list nat) : 0 <= total l.
Proof. unfold total. induction l; cbn; lia. Qed.

Lemma write_all_loop_refusal (src : list ascii) (rest : list nat) :
  forall (pre : list nat) (fuel : nat) (ptr len : Z) (f : FILE),
    accepts f = pre ++ 0%nat :: rest ->
    Forall (fun k => (0 < k)%nat) pre ->
    total pre < len -> 0 <= ptr -> (Z.to_nat len <= fuel)%nat ->
    fst (write_all_loop fuel src ptr len f) = - EIO /\
    written (snd (write_all_loop fuel src ptr len f)) =
      written f ++
      firstn (Z.to_nat (total pre)) (skipn (Z.to_nat ptr) src) /\
    accepts (snd (write_all_loop fuel src ptr len f)) = rest.
Proof.
  induction pre as [|k pre IH]; intros fuel ptr len f Hacc Hpos Hlt Hptr Hfuel.
  - cbn in Hlt. destruct fuel as [|fuel]; [lia|].
    cbn [write_all_loop].
    destruct (Z.eqb_spec len 0) as [->|_]; [lia|].
    unfold fwrite. rewrite Hacc. cbn [app].
    replace (Z.min (Z.of_nat 0) len) with 0 by lia.
    cbn. unfold written; cbn. rewrite flat_map_app. cbn.
    now rewrite !app_nil_r.
  - cbn [total fold_right] in Hlt. fold (total pre) in Hlt.
    inversion Hpos as [|? ? Hk Hpre]; subst.
    pose proof (total_nonneg pre) as Htot.
    destruct fuel as [|fuel]; [lia|].
    cbn [write_all_loop].
    destruct (Z.eqb_spec len 0) as [->|_]; [lia|].
    pose proof (fwrite_written (skipn (Z.to_nat ptr) src) len f) as Hw.
    pose proof (fwrite_accepts (skipn (Z.to_nat ptr) src) len f) as Ha.
    assert (Hret : fst (fwrite (skipn (Z.to_nat ptr) src) len f) = Z.of_nat k).
    { unfold fwrite. rewrite Hacc. cbn. lia. }
    destruct (fwrite (skipn (Z.to_nat ptr) src) len f) as [ret f'].
    cbn [fst snd] in Hw, Ha, Hret. subst ret.
    destruct (Z.eqb_spec (Z.of_nat k) 0) as [E|_]; [lia|].
    rewrite Hacc in Ha. cbn in Ha.
    destruct (IH fuel (ptr + Z.of_nat k) (len - Z.of_nat k) f' Ha Hpre)
      as (Hr & Hwr & Har); try lia.
    split; [exact Hr|]. split; [|exact Har].
    rewrite Hwr, Hw, <- app_assoc. f_equal.
    cbn [total fold_right]. fold (total pre).
    replace (Z.to_nat (ptr + Z.of_nat k))
      with (Z.to_nat (Z.of_nat k) + Z.to_nat ptr)%nat by lia.
    rewrite <- skipn_skipn.
    replace (Z.to_nat (Z.of_nat k + total pre))
      with (Z.to_nat (Z.of_nat k) + Z.to_nat (total pre))%nat by lia.
    apply firstn_more.
Qed.

(** X3.  When the stream, after taking some bytes in pieces, refuses a
    non-empty write, [write_all] returns [-EIO] at that very attempt: the
    stream has taken what it took before the refusal and nothing further,
    and no later attempt is made. *)
Theorem write_all_stops_at_refusal
    (src : list ascii) (len : Z) (f : FILE) (pre rest : list nat) :
  accepts f = pre ++ 0%nat :: rest ->
  Forall (fun k => (0 < k)%nat) pre ->
  total pre < len ->
  fst (write_all src len f) = - EIO /\
  written (snd (write_all src len f)) =
    written f ++ firstn (Z.to_nat (total pre)) src /\
  accepts (snd (write_all src len f)) = rest.
Proof.
  intros Hacc Hpos Hlt. unfold write_all.
  exact (write_all_loop_refusal src rest pre (Z.to_nat len) 0 len f Hacc Hpos
           Hlt (Z.le_refl 0) (le_n _)).
Qed.

(** ** [get_device] *)

(** X4.  [get_device] returns the first device of the context whose
    identifier or whose name is the given string - no device before it
    matches either way - and returns nothing exactly when no device of the
    context matches. *)
Theorem get_device_first_match (ctx0 : iio_context) (id : string) :
  match get_device ctx0 id with
  | Some device =>
      exists pre post,
        ctx0 = pre ++ device :: post /\
        (id = dev_id device \/ id = dev_name device) /\
        forall other, In other pre ->
                      id <> dev_id other /\ id <> dev_name other
  | None =>
      forall other, In other ctx0 ->
                    id <> dev_id other /\ id <> dev_name other
  end.
Proof.
  unfold get_device. induction ctx0 as [|a l IH]; cbn [find]; [intros ? []|].
  destruct (String.eqb_spec id (dev_id a)) as [Hid|Hid]; cbn [orb].
  - exists [], l. split; [reflexivity|]. split; [now left|intros ? []].
  - destruct (String.eqb_spec id (dev_name a)) as [Hname|Hname].
    + exists [], l. split; [reflexivity|]. split; [now right|intros ? []].
    + destruct (find _ l) as [device|].
      * destruct IH as (pre & post & -> & Hmatch & Hpre).
        exists (a :: pre), post. split; [reflexivity|].
        split; [exact Hmatch|].
        intros other [<-|Hin]; [now split|now apply Hpre].
      * intros other [<-|Hin]; [now split|now apply IH].
Qed.

Section Attributes.

Variable strerror_r : Z -> string.

(** ** [write_dev_attr] *)

(** X5.  [write_dev_attr] returns the result of the hardware's attribute
    write, or -19 when the device is unknown, and in every case puts
    exactly one status line on the client's stream and touches nothing
    else: the message of the error when the client is verbose and the
    result is negative, the number otherwise.  An unknown device is
    reported exactly as a hardware failure with the code -19 would be. *)
Theorem write_dev_attr_one_status_line
    (attr_write : iio_device -> string -> string -> Z)
    (pdata : parser_pdata) (id attr value : string) (w : World) :
  let code := match get_device (ctx pdata) id with
              | Some device => attr_write device attr value
              | None => -19
              end in
  let r := write_dev_attr strerror_r attr_write pdata id attr value w in
  fst r = code /\
  contents (files (snd r) (out pdata)) =
    contents (files w (out pdata)) ++
    [Printed (attr_status strerror_r (pdata_verbose pdata) code)] /\
  accepts (files (snd r) (out pdata)) = accepts (files w (out pdata)) /\
  (forall k, k <> out pdata -> files (snd r) k = files w k) /\
  devlist_head (snd r) = devlist_head w /\
  signalled (snd r) = signalled w /\
  trace (snd r) = trace w.
Proof.
  cbv zeta. unfold write_dev_attr, attr_status.
  destruct (get_device (ctx pdata) id) as [device|].
  - destruct (pdata_verbose pdata && (attr_write device attr value <? 0));
      cbn; rewrite upd_same; (repeat split; try reflexivity);
      intros k Hk; now apply upd_other.
  - destruct (pdata_verbose pdata); cbn; rewrite upd_same;
      (repeat split; try reflexivity); intros k Hk; now apply upd_other.
Qed.

(** ** [read_dev_attr] *)

(** X6.  When the attribute cannot be read - the device is unknown (code
    -19) or the hardware returns a negative code - [read_dev_attr] returns
    that code and puts exactly one status line on the client's stream, the
    message when the client is verbose and the number otherwise; no value
    and no newline follow. *)
Theorem read_dev_attr_failure
    (attr_read : iio_device -> string -> Z * list ascii)
    (pdata : parser_pdata) (id attr : string) (w : World) :
  let code := match get_device (ctx pdata) id with
              | Some device => fst (attr_read device attr)
              | None => -19
              end in
  code < 0 ->
  let r := read_dev_attr strerror_r attr_read pdata id attr w in
  fst r = code /\
  contents (files (snd r) (out pdata)) =
    contents (files w (out pdata)) ++
    [Printed (attr_status strerror_r (pdata_verbose pdata) code)] /\
  accepts (files (snd r) (out pdata)) = accepts (files w (out pdata)) /\
  (forall k, k <> out pdata -> files (snd r) k = files w k).
Proof.
  cbv zeta. unfold read_dev_attr, attr_status.
  destruct (get_device (ctx pdata) id) as [device|].
  - destruct (attr_read device attr) as [ret buf]. cbn [fst]. intros Hneg.
    apply Z.ltb_lt in Hneg.
    unfold bind. rewrite Hneg.
    destruct (pdata_verbose pdata); cbn; rewrite upd_same;
      (repeat split; try reflexivity); intros k Hk; now apply upd_other.
  - intros _.
    destruct (pdata_verbose pdata); cbn; rewrite upd_same;
      (repeat split; try reflexivity); intros k Hk; now apply upd_other.
Qed.

(** X7.  When the hardware returns [ret >= 0] bytes for the attribute and
    the client's stream takes what it is given, [read_dev_attr] returns
    [ret] after putting on the stream the line with the number [ret] -
    verbose or not -, the [ret] bytes of the value, and a newline. *)
Theorem read_dev_attr_success
    (attr_read : iio_device -> string -> Z * list ascii)
    (pdata : parser_pdata) (id attr : string) (w : World)
    (device : iio_device) (ret : Z) (buf : list ascii) :
  get_device (ctx pdata) id = Some device ->
  attr_read device attr = (ret, buf) ->
  0 <= ret <= 1024 ->
  healthy (files w (out pdata)) ->
  let r := read_dev_attr strerror_r attr_read pdata id attr w in
  fst r = ret /\
  status_lines (files (snd r) (out pdata)) =
    status_lines (files w (out pdata)) ++ [(fmt_int ret ++ nl)%string] /\
  written (files (snd r) (out pdata)) =
    written (files w (out pdata)) ++ firstn (Z.to_nat ret) buf ++
    ["010"%char] /\
  (forall k, k <> out pdata -> files (snd r) k = files w k).
Proof.
  intros Hdev Hattr Hret Hhealthy. cbv zeta.
  unfold read_dev_attr. rewrite Hdev, Hattr.
  assert (Hneg : (ret <? 0) = false) by (apply Z.ltb_ge; lia).
  rewrite Hneg, andb_false_r. unfold bind, fprintf_fd, write_all_fd.
  cbn [files set_files]. rewrite !upd_same.
  rewrite u64_small by lia.
  set (f1 := fprintf (fmt_int ret ++ nl) (files w (out pdata))).
  destruct (write_all_ok buf ret f1 ltac:(lia) (or_intror Hhealthy))
    as (f2 & Hw2 & Hacc2 & Hcont2).
  rewrite Hw2.
  assert (Hh2 : healthy f2) by (unfold healthy; now rewrite Hacc2).
  destruct (write_all_ok ["010"%char] 1 f2 ltac:(lia) (or_intror Hh2))
    as (f3 & Hw3 & Hacc3 & Hcont3).
  cbn [files set_files]. rewrite !upd_same. rewrite Hw3.
  cbn [fst snd pure files set_files]. rewrite ?upd_same. cbn [Z.eqb] in Hcont3.
  split; [reflexivity|]. split; [|split].
  - rewrite (status_lines_ext _ _ _ Hcont3), (status_lines_ext _ _ _ Hcont2).
    unfold f1, fprintf. rewrite status_lines_app.
    destruct (ret =? 0); cbn; now rewrite !app_nil_r.
  - rewrite (written_ext _ _ _ Hcont3), (written_ext _ _ _ Hcont2).
    unfold f1, fprintf.
    rewrite (written_ext (files w (out pdata)) _ [Printed (fmt_int ret ++ nl)])
      by reflexivity.
    destruct (Z.eqb_spec ret 0) as [->|_]; cbn; rewrite ?app_nil_r;
      [reflexivity|]. now rewrite <- app_assoc.
  - intros k Hk. now rewrite !upd_other by assumption.
Qed.

End Attributes.

(** ** [read_buffer] and [read_dev] *)

Lemma opens_app (d : nat) (a b : list Event) :
  opens d (a ++ b) = (opens d a + opens d b)%nat.
Proof. unfold opens. now rewrite filter_app, length_app. Qed.

Lemma closes_app (d : nat) (a b : list Event) :
  closes d (a ++ b) = (closes d a + closes d b)%nat.
Proof. unfold closes. now rewrite filter_app, length_app. Qed.

Lemma read_buffer_attach_files (sys : Sys) (pdata : parser_pdata) (d : nat)
    (n size : Z) (w : World) :
  files (snd (read_buffer_attach sys pdata d n size w)) = files w.
Proof.
  unfold read_buffer_attach.
  destruct (devlist_lock w); [reflexivity|].
  destruct (find_entry d (devlist_head w)) as [entry|].
  - destruct (negb (sample_size entry =? size)); [reflexivity|].
    destruct (negb (malloc_thd sys)); [reflexivity|].
    destruct (thdlist_lock entry); reflexivity.
  - destruct (negb (malloc_thd sys)); [reflexivity|].
    destruct (negb (malloc_entry sys)); [reflexivity|].
    destruct (negb (open_ret sys =? 0)); [reflexivity|].
    destruct (negb (create_ret sys =? 0)); reflexivity.
Qed.

(** X8.  The first half of [read_buffer] never writes to a stream and never
    signals anybody.  When it returns a code instead of waiting - sample
    size mismatch, no memory, failure to open the device or to start the
    thread - the session list and the allocator are as before, and a device
    it did open is closed again: provided [iio_device_open] succeeded, the
    calls to open and to close the device are balanced. *)
Theorem read_buffer_failure_leaves_nothing
    (sys : Sys) (pdata : parser_pdata) (d : nat) (n size : Z) (w : World) :
  let r := read_buffer_attach sys pdata d n size w in
  files (snd r) = files w /\
  signalled (snd r) = signalled w /\
  forall code, fst r = Returned code ->
    devlist_head (snd r) = devlist_head w /\
    next_thd (snd r) = next_thd w /\
    (open_ret sys = 0 ->
     (opens d (trace (snd r)) + closes d (trace w) =
      closes d (trace (snd r)) + opens d (trace w))%nat).
Proof.
  cbv zeta. unfold read_buffer_attach.
  assert (Hsame : forall a : Attach,
            files (snd (a, w)) = files w /\
            signalled (snd (a, w)) = signalled w /\
            forall code, fst (a, w) = Returned code ->
              devlist_head (snd (a, w)) = devlist_head w /\
              next_thd (snd (a, w)) = next_thd w /\
              (open_ret sys = 0 ->
               (opens d (trace (snd (a, w))) + closes d (trace w) =
                closes d (trace (snd (a, w))) + opens d (trace w))%nat)).
  { intros a. cbn. repeat split. intros _. lia. }
  destruct (devlist_lock w); [apply Hsame|].
  destruct (find_entry d (devlist_head w)) as [entry|].
  - destruct (negb (sample_size entry =? size)); [apply Hsame|].
    destruct (negb (malloc_thd sys)); [apply Hsame|].
    destruct (thdlist_lock entry); [apply Hsame|].
    cbn [fst snd]; world_simpl. repeat split; discriminate.
  - destruct (negb (malloc_thd sys)); [apply Hsame|].
    destruct (negb (malloc_entry sys)); [apply Hsame|].
    destruct (Z.eqb_spec (open_ret sys) 0) as [Hopen|Hopen]; cbn [negb].
    + destruct (negb (create_ret sys =? 0)); cbn [fst snd]; world_simpl.
      * repeat split. intros _.
        rewrite <- app_assoc, opens_app, closes_app.
        assert (Ho : opens d [Open d; Close d] = 1%nat)
          by (unfold opens; cbn; now rewrite Nat.eqb_refl).
        assert (Hc : closes d [Open d; Close d] = 1%nat)
          by (unfold closes; cbn; now rewrite Nat.eqb_refl).
        cbn [app]. rewrite Ho, Hc. lia.
      * repeat split; discriminate.
    + cbn [fst snd]; world_simpl. repeat split. intros; contradiction.
Qed.

Section ReadDev.

Variable strerror_r : Z -> string.

(** X9.  [read_dev] reports an unknown device on the client's stream, with
    the line of a failure with code -19, and opens nothing; for a known
    device it is [read_buffer] on that device, which reports its own
    failures through the return value only: nothing is written to any
    stream. *)
Theorem read_dev_reporting
    (sys : Sys) (pdata : parser_pdata) (id : string) (n size : Z)
    (w : World) :
  let r := read_dev_attach strerror_r sys pdata id n size w in
  match get_device (ctx pdata) id with
  | None =>
      fst r = Returned (-19) /\
      contents (files (snd r) (out pdata)) =
        contents (files w (out pdata)) ++
        [Printed (attr_status strerror_r (pdata_verbose pdata) (-19))] /\
      (forall k, k <> out pdata -> files (snd r) k = files w k) /\
      devlist_head (snd r) = devlist_head w /\
      trace (snd r) = trace w
  | Some device =>
      r = read_buffer_attach sys pdata (handle device) n size w /\
      files (snd r) = files w
  end.
Proof.
  cbv zeta. unfold read_dev_attach, attr_status.
  destruct (get_device (ctx pdata) id) as [device|].
  - split; [reflexivity|].
    apply read_buffer_attach_files.
  - destruct (pdata_verbose pdata); cbn; rewrite upd_same;
      (repeat split; try reflexivity); intros k Hk; now apply upd_other.
Qed.

End ReadDev.

(** ** One session per device *)

Lemma devices_update (d : nat) (f : DevEntry -> DevEntry) (l : list DevEntry) :
  (forall e, dev (f e) = dev e) ->
  devices (update_entry d f l) = devices l.
Proof.
  intros Hf. unfold devices, update_entry. rewrite map_map.
  apply map_ext. intros e. now destruct (Nat.eqb (dev e) d).
Qed.

Lemma find_entry_none (d : nat) (l : list DevEntry) :
  find_entry d l = None -> ~ In d (devices l).
Proof.
  unfold find_entry, devices. induction l as [|e l IH]; cbn; [tauto|].
  destruct (Nat.eqb_spec (dev e) d) as [E|E]; [discriminate|].
  intros H [H'|H']; [contradiction|now apply IH].
Qed.

Lemma devices_remove (d : nat) (l : list DevEntry) :
  NoDup (devices l) -> NoDup (devices (remove_entry d l)).
Proof.
  unfold devices, remove_entry. induction l as [|e l IH]; cbn; [trivial|].
  intros H. apply NoDup_cons_iff in H as [Hnew Hrest].
  destruct (Nat.eqb (dev e) d); cbn; [now apply IH|].
  apply NoDup_cons_iff. split; [|now apply IH].
  intros Hin. apply Hnew.
  apply in_map_iff in Hin as (x & Hx & Hin).
  apply filter_In in Hin as [Hin _].
  apply in_map_iff. now exists x.
Qed.

Lemma serve_devices (r : Request) (w : World) :
  NoDup (devices (devlist_head w)) ->
  NoDup (devices (devlist_head (snd (serve r w)))).
Proof.
  intros Hnd. unfold serve, read_buffer_attach.
  destruct (devlist_lock w); [exact Hnd|].
  destruct (find_entry (rq_dev r) (devlist_head w)) as [entry|] eqn:Hfind.
  - destruct (negb (sample_size entry =? rq_sample_size r)); [exact Hnd|].
    destruct (negb (malloc_thd (rq_sys r))); [exact Hnd|].
    destruct (thdlist_lock entry); [exact Hnd|].
    world_simpl. now rewrite devices_update.
  - destruct (negb (malloc_thd (rq_sys r))); [exact Hnd|].
    destruct (negb (malloc_entry (rq_sys r))); [exact Hnd|].
    destruct (negb (open_ret (rq_sys r) =? 0)); [exact Hnd|].
    destruct (negb (create_ret (rq_sys r) =? 0)); [exact Hnd|].
    world_simpl. cbn. apply NoDup_cons_iff.
    split; [now apply find_entry_none|exact Hnd].
Qed.

Lemma arrivals_devices (reqs : list Request) :
  forall w,
    NoDup (devices (devlist_head w)) ->
    NoDup (devices (devlist_head (snd (arrivals reqs w)))).
Proof.
  induction reqs as [|r reqs IH]; intros w Hnd; [exact Hnd|].
  cbn [arrivals]. unfold bind.
  pose proof (serve_devices r w Hnd) as H1.
  destruct (serve r w) as [a w1]. now apply IH.
Qed.

Lemma lock_devices (d : nat) (b : bool) (w : World) :
  devices (devlist_head (snd (lock_thdlist d w))) = devices (devlist_head w) /\
  devices (devlist_head (snd (unlock_thdlist d w))) =
    devices (devlist_head w).
Proof.
  unfold lock_thdlist, unlock_thdlist; world_simpl.
  now rewrite !devices_update.
Qed.

Lemma to_read_devices (d : nat) (len : Z) (w : World) :
  devices (devlist_head (snd (to_read d len w))) = devices (devlist_head w).
Proof.
  unfold to_read, bind, lock_devlist, lock_thdlist, unlock_thdlist,
    unlock_devlist, emit. world_simpl.
  now rewrite !devices_update.
Qed.

Lemma exit_devices (d : nat) (ret : Z) (w : World) :
  NoDup (devices (devlist_head w)) ->
  NoDup (devices (devlist_head (snd (read_thd_exit d ret w)))).
Proof.
  intros Hnd. unfold read_thd_exit, bind.
  destruct (lock_devices d true w) as [Hl _].
  destruct (lock_thdlist d w) as [[] w1]. cbn [snd] in Hl.
  unfold get_thdlist.
  pose proof (drain_obs ret (waiters d w1) w1) as ([Hd _ _ _] & _).
  cbv zeta in Hd.
  destruct (drain ret (waiters d w1) w1) as [[] w2]. cbn [snd] in Hd.
  unfold put_thdlist, unlock_thdlist, unlock_devlist, emit. world_simpl.
  apply devices_remove. rewrite !devices_update by reflexivity.
  now rewrite Hd, Hl.
Qed.

Section Registry.

Variable strerror_r : Z -> string.

Lemma step_devices (d : nat) (size max_size : Z) (env : Env) (ret : Z)
    (w : World) :
  NoDup (devices (devlist_head w)) ->
  NoDup (devices (devlist_head
                    (snd (read_thd_step strerror_r d size max_size env ret w)))).
Proof.
  intros Hnd.
  pose proof (arrivals_devices (before env) w Hnd) as Hnd1.
  set (w1 := snd (arrivals (before env) w)) in *.
  assert (Hlocked : NoDup (devices (devlist_head
             (snd (unlock_thdlist d
                     (snd (lock_thdlist d (snd (lock_devlist w1)))))))))
    by (unfold unlock_thdlist, lock_thdlist, lock_devlist; world_simpl;
        now rewrite !devices_update).
  destruct (Z.ltb_spec ret 0) as [Hneg|Hpos].
  { rewrite step_failed by assumption. cbn [snd]. now apply exit_devices. }
  destruct (waiters d w1) as [|t l] eqn:Hw.
  { rewrite step_empty by assumption. cbn [snd]. now apply exit_devices. }
  assert (Hne : waiters d w1 <> []) by (rewrite Hw; discriminate).
  destruct (malloc_buf env) eqn:Hm.
  - rewrite step_round by assumption. cbn [snd]. fold w1.
    unfold round_world.
    set (len := round_len d size max_size w1).
    set (w3 := snd (arrivals (during env) (snd (to_read d len w1)))).
    assert (Hnd3 : NoDup (devices (devlist_head w3)))
      by (apply arrivals_devices; now rewrite to_read_devices).
    set (wb := snd (lock_thdlist d w3)).
    assert (Hndb : NoDup (devices (devlist_head wb)))
      by (unfold wb; destruct (lock_devices d true w3) as [-> _]; exact Hnd3).
    destruct (broadcast_any strerror_r size (hw_ret (hw env len))
                (hw_buf (hw env len))
                (u64 (Z.quot (hw_ret (hw env len)) size))
                (waiters d wb) wb) as ([Hd _ _ _] & _).
    unfold unlock_thdlist, put_thdlist. world_simpl.
    rewrite !devices_update by reflexivity. now rewrite Hd.
  - rewrite step_no_memory by assumption. cbn [snd]. now apply exit_devices.
Qed.

Lemma loop_devices (d : nat) (size max_size : Z) (envs : list Env) :
  forall ret w,
    NoDup (devices (devlist_head w)) ->
    NoDup (devices (devlist_head
             (snd (read_thd_loop strerror_r d size max_size envs ret w)))).
Proof.
  induction envs as [|env envs IH]; intros ret w Hnd; [exact Hnd|].
  cbn [read_thd_loop]. unfold bind.
  pose proof (step_devices d size max_size env ret w Hnd) as H1.
  destruct (read_thd_step strerror_r d size max_size env ret w) as [st w1].
  cbn [snd] in H1.
  destruct st as [ret'| |]; [now apply IH|exact H1|exact H1].
Qed.

(** X10.  The session list never holds two sessions for one device: if the
    devices of the registered sessions are pairwise distinct, they are so
    after any request served by [read_buffer] and after any number of turns
    of a worker, whatever requests arrive in between. *)
Theorem one_session_per_device
    (r : Request) (entry : DevEntry) (envs : list Env) (w : World) :
  NoDup (devices (devlist_head w)) ->
  NoDup (devices (devlist_head (snd (serve r w)))) /\
  NoDup (devices (devlist_head (snd (read_thd strerror_r entry envs w)))).
Proof.
  intros Hnd. split; [now apply serve_devices|].
  unfold read_thd.
  destruct (sample_size entry =? 0); [exact Hnd|].
  now apply loop_devices.
Qed.

End Registry.

(** ** More on the worker *)

Section WorkerMore.

Variable strerror_r : Z -> string.

(** X12.  The loop is left with [devlist_lock] held and [thdlist_lock]
    released, and a turn that goes on ends with both released: in the
    events a turn adds to the trace, the session's [thdlist_lock] is never
    left held, and [devlist_lock] is left held exactly when the turn leaves
    the loop. *)
Theorem loop_exit_lock_posture
    (d : nat) (size max_size : Z) (env : Env) (ret : Z) (w : World) :
  let it := read_thd_iteration strerror_r d size max_size env ret w in
  exists tr,
    trace (snd it) = trace w ++ tr /\
    holds (Thdlist d) tr = false /\
    holds Devlist tr = negb (fst (fst it)) /\
    devlist_lock (snd it) = negb (fst (fst it)).
Proof.
  cbv zeta.
  destruct (arrivals_arrived d (before env) w)
    as [_ _ _ (tr0 & Ht0 & Hc0) _ _ _].
  destruct (client_events_neutral d tr0 Hc0) as (_ & Hh0 & _).
  set (w1 := snd (arrivals (before env) w)) in *.
  pose proof (lock_devlist_silent d w1) as H1.
  pose proof (lock_thdlist_silent d d (snd (lock_devlist w1))) as H2.
  pose proof (unlock_thdlist_silent d d
                (snd (lock_thdlist d (snd (lock_devlist w1))))) as H3.
  pose proof (silent_trans _ _ _ _ _ _ H1 (silent_trans _ _ _ _ _ _ H2 H3))
    as [_ _ _ _ _ Ht123].
  assert (Hleft :
    exists tr,
      trace (snd (unlock_thdlist d
                    (snd (lock_thdlist d (snd (lock_devlist w1)))))) =
        trace w ++ tr /\
      holds (Thdlist d) tr = false /\ holds Devlist tr = true /\
      devlist_lock (snd (unlock_thdlist d
                           (snd (lock_thdlist d (snd (lock_devlist w1)))))) =
        true).
  { eexists. split; [rewrite Ht123, Ht0, <- app_assoc; reflexivity|].
    unfold holds. rewrite !holds_from_app, !Hh0. cbn.
    rewrite Nat.eqb_refl. now repeat split. }
  destruct (Z.ltb_spec ret 0) as [Hneg|Hpos].
  { rewrite iteration_failed by assumption. cbn [fst snd]. fold w1.
    destruct H1 as [_ _ _ _ _ Ht1].
    eexists. split; [rewrite Ht1, Ht0, <- app_assoc; reflexivity|].
    unfold holds. rewrite !holds_from_app, !Hh0. cbn. now repeat split. }
  destruct (waiters d w1) as [|t l] eqn:Hw.
  { rewrite iteration_empty by assumption. cbn [fst snd]. exact Hleft. }
  assert (Hne : waiters d w1 <> []) by (rewrite Hw; discriminate).
  destruct (malloc_buf env) eqn:Hm.
  - rewrite iteration_round by assumption. cbn [fst snd]. fold w1.
    destruct (round_world_obs strerror_r d size max_size env w1
                (waiters_nonempty_registered d w1 Hne))
      as [new tr wb _ _ _ _ _ Htr _ _ _ Ht5 _ _ Hl5].
    destruct (client_events_neutral d tr Htr) as (_ & Hh & _).
    eexists. split; [rewrite Ht5, Ht0, <- app_assoc; reflexivity|].
    unfold holds, read_events.
    rewrite !holds_from_app, !Hh0.
    assert (E1 : holds_from (Thdlist d) false
                   [Lock Devlist; Lock (Thdlist d); Unlock (Thdlist d);
                    Unlock Devlist;
                    ReadRaw d (round_len d size max_size w1)] = false)
      by (cbn; now rewrite Nat.eqb_refl).
    assert (E2 : holds_from Devlist false
                   [Lock Devlist; Lock (Thdlist d); Unlock (Thdlist d);
                    Unlock Devlist;
                    ReadRaw d (round_len d size max_size w1)] = false)
      by reflexivity.
    rewrite E1, E2, !Hh. cbn. rewrite Nat.eqb_refl.
    split; [reflexivity|]. split; [reflexivity|exact Hl5].
  - rewrite iteration_no_memory by assumption. cbn [fst snd]. exact Hleft.
Qed.

Lemma broadcast_never_reports (size ret : Z) (buf : list ascii) (n : Z)
    (thds : list ThdEntry) :
  forall w,
  exists l,
    signalled (snd (broadcast strerror_r size ret buf n thds w)) =
      signalled w ++ l /\
    Forall (fun t => err t = Some 0) l.
Proof.
  induction thds as [|thd rest IH]; intros w.
  - exists []. cbn. rewrite app_nil_r. now split.
  - cbn [broadcast]. unfold bind.
    destruct (broadcast_step_never_reports strerror_r size ret buf n thd w)
      as (l1 & Hl1 & Hf1).
    destruct (broadcast_step strerror_r size ret buf n thd w) as [o w1].
    cbn [snd] in Hl1.
    destruct (IH w1) as (l2 & Hl2 & Hf2).
    destruct (broadcast strerror_r size ret buf n rest w1) as [kept w2].
    cbn [snd pure] in *.
    exists (l1 ++ l2). split; [now rewrite Hl2, Hl1, app_assoc|].
    apply Forall_app. now split.
Qed.

End WorkerMore.

Section Outcomes.

Variable strerror_r : Z -> string.

Lemma some_zero_outcome (l : list ThdEntry) :
  Forall (fun t => err t = Some 0) l -> Forall (fun t => err t <> None) l.
Proof. apply Forall_impl. intros t ->. discriminate. Qed.

Lemma drained_outcome (ret : Z) (l : list ThdEntry) :
  ret < 0 -> Forall (fun t => err t <> None) (drained ret l).
Proof.
  intros Hret. apply Z.ltb_lt in Hret. unfold drained.
  apply Forall_map. apply Forall_forall. intros t _. rewrite Hret.
  discriminate.
Qed.

Lemma step_outcomes (d : nat) (size max_size : Z) (env : Env) (ret : Z)
    (w : World) :
  Forall (fun t => err t <> None) (signalled w) ->
  Forall (fun t => err t <> None)
         (signalled (snd (read_thd_step strerror_r d size max_size env ret w))).
Proof.
  intros Hall.
  destruct (arrivals_arrived d (before env) w) as [_ Hs0 _ _ _ _ _].
  set (w1 := snd (arrivals (before env) w)) in *.
  pose proof (lock_devlist_silent d w1) as H1.
  pose proof (lock_thdlist_silent d d (snd (lock_devlist w1))) as H2.
  pose proof (unlock_thdlist_silent d d
                (snd (lock_thdlist d (snd (lock_devlist w1))))) as H3.
  pose proof (silent_trans _ _ _ _ _ _ H1 (silent_trans _ _ _ _ _ _ H2 H3))
    as [Hw2 _ _ Hs2 _ _].
  destruct (Z.ltb_spec ret 0) as [Hneg|Hpos].
  { rewrite step_failed by assumption. cbn [snd]. fold w1.
    destruct (read_thd_exit_obs d ret (snd (lock_devlist w1)))
      as [_ _ Hsx _ _ _].
    destruct H1 as [_ _ _ Hs1 _ _].
    rewrite Hsx, Hs1, Hs0. apply Forall_app.
    split; [exact Hall|now apply drained_outcome]. }
  destruct (waiters d w1) as [|t l] eqn:Hw.
  { rewrite step_empty by assumption. cbn [snd]. fold w1.
    destruct (read_thd_exit_obs d ret
                (snd (unlock_thdlist d
                        (snd (lock_thdlist d (snd (lock_devlist w1)))))))
      as [_ _ Hsx _ _ _].
    rewrite Hsx, Hs2, Hs0, Hw2. cbn. now rewrite app_nil_r. }
  assert (Hne : waiters d w1 <> []) by (rewrite Hw; discriminate).
  destruct (malloc_buf env) eqn:Hm.
  - rewrite step_round by assumption. cbn [snd]. fold w1.
    destruct (round_world_obs strerror_r d size max_size env w1
                (waiters_nonempty_registered d w1 Hne))
      as [new tr wb _ Hsb _ _ _ _ _ _ Hs5 _ _ _ _].
    rewrite Hs5.
    destruct (broadcast_never_reports strerror_r size
                (hw_ret (hw env (round_len d size max_size w1)))
                (hw_buf (hw env (round_len d size max_size w1)))
                (u64 (Z.quot (hw_ret (hw env (round_len d size max_size w1)))
                             size))
                (new ++ waiters d w1) wb) as (l0 & -> & Hl0).
    rewrite Hsb, Hs0. apply Forall_app.
    split; [exact Hall|now apply some_zero_outcome].
  - rewrite step_no_memory by assumption. cbn [snd]. fold w1.
    destruct (read_thd_exit_obs d (- ENOMEM)
                (snd (unlock_thdlist d
                        (snd (lock_thdlist d (snd (lock_devlist w1)))))))
      as [_ _ Hsx _ _ _].
    rewrite Hsx, Hs2, Hs0. apply Forall_app.
    split; [exact Hall|apply drained_outcome; unfold ENOMEM; lia].
Qed.

Lemma loop_outcomes (d : nat) (size max_size : Z) (envs : list Env) :
  forall ret w,
    Forall (fun t => err t <> None) (signalled w) ->
    Forall (fun t => err t <> None)
      (signalled (snd (read_thd_loop strerror_r d size max_size envs ret w))).
Proof.
  induction envs as [|env envs IH]; intros ret w Hall; [exact Hall|].
  cbn [read_thd_loop]. unfold bind.
  pose proof (step_outcomes d size max_size env ret w Hall) as H1.
  destruct (read_thd_step strerror_r d size max_size env ret w) as [st w1].
  cbn [snd] in H1.
  destruct st as [ret'| |]; [now apply IH|exact H1|exact H1].
Qed.

(** X13.  [read_buffer] never initialises the field [err] of its record, yet
    no client ever reads it unset: whatever the requests, the hardware and
    the streams do, every record the worker signals carries an outcome -
    0 from the broadcast loop, the negative code from the final loop, which
    only finds records when there is such a code - so that the call that
    owns the record has a defined return value. *)
Theorem signalled_records_have_outcome
    (entry : DevEntry) (envs : list Env) (w : World) :
  Forall (fun t => err t <> None) (signalled w) ->
  forall t,
    In t (signalled (snd (read_thd strerror_r entry envs w))) ->
    err t <> None /\
    forall n size, read_buffer_return n size t <> None.
Proof.
  intros Hall t Ht.
  assert (H : err t <> None).
  { unfold read_thd in Ht.
    destruct (sample_size entry =? 0).
    - rewrite Forall_forall in Hall. now apply Hall.
    - pose proof (loop_outcomes (dev entry) (sample_size entry)
                    (u32 (1024 / sample_size entry)) envs 0 w Hall) as H.
      rewrite Forall_forall in H. now apply H. }
  split; [exact H|].
  intros n size. unfold read_buffer_return.
  destruct (err t); [discriminate|contradiction].
Qed.

End Outcomes.

Section SameBytes.

Variable strerror_r : Z -> string.

Lemma written_printed (l : list string) :
  written (mkFILE (map Printed l) []) = [].
Proof. unfold written; cbn. induction l; [reflexivity|exact IHl]. Qed.

Lemma broadcast_step_written (size : Z) (r : hw_result) (thd : ThdEntry)
    (w : World) :
  0 < size -> hw_ret r < 2 ^ 63 ->
  hw_ret r <= 0 \/ healthy (files w (fd thd)) ->
  written
    (files (snd (broadcast_step strerror_r size (hw_ret r) (hw_buf r)
                   (u64 (Z.quot (hw_ret r) size)) thd w)) (fd thd)) =
  written (files w (fd thd)) ++
  (if served size (hw_ret r) thd then hw_buf r else []).
Proof.
  intros Hsize Hret Hok.
  unfold broadcast_step, bind.
  pose proof (emit_status_effect strerror_r (hw_ret r) thd w)
    as (_ & _ & _ & Hcont & Hacc).
  destruct (emit_status strerror_r (hw_ret r) thd w) as [[] w1].
  cbn [snd] in *.
  assert (Hw1 : written (files w1 (fd thd)) = written (files w (fd thd)))
    by (rewrite (written_ext _ _ _ Hcont), written_printed;
        now rewrite app_nil_r).
  unfold served.
  destruct (Z.ltb_spec (hw_ret r) 0) as [Hneg|Hpos].
  { assert (E : (0 <=? hw_ret r) = false) by (apply Z.leb_gt; lia).
    rewrite E. cbn. now rewrite app_nil_r. }
  assert (E : (0 <=? hw_ret r) = true) by (apply Z.leb_le; lia).
  rewrite E. cbn [andb].
  rewrite Z.quot_div_nonneg by lia.
  assert (Hq : 0 <= hw_ret r / size <= hw_ret r).
  { split; [apply Z.div_pos; lia|apply Z.div_le_upper_bound; nia]. }
  rewrite u64_small by lia.
  destruct (Z.gtb_spec (hw_ret r / size) (nb thd)) as [Hgt|Hle].
  { assert (E' : (hw_ret r / size <=? nb thd) = false) by (apply Z.leb_gt; lia).
    rewrite E'. cbn. now rewrite app_nil_r. }
  assert (E' : (hw_ret r / size <=? nb thd) = true) by (apply Z.leb_le; lia).
  rewrite E'. rewrite u64_small by lia.
  unfold write_all_fd.
  destruct (write_all_ok (hw_buf r) (hw_ret r) (files w1 (fd thd)))
    as (f' & Hw & _ & Hcont');
    [lia | destruct Hok as [Hok|Hok];
           [left; lia | right; unfold healthy; now rewrite Hacc] |].
  rewrite Hw. clear Hw.
  assert (Hf' : written f' = written (files w (fd thd)) ++ hw_buf r).
  { rewrite (written_ext _ _ _ Hcont'), Hw1. f_equal.
    pose proof (hw_buf_length r Hpos) as Hlen.
    destruct (Z.eqb_spec (hw_ret r) 0) as [Hz|Hnz].
    - destruct (hw_buf r); [reflexivity|cbn in Hlen; lia].
    - unfold written; cbn. rewrite app_nil_r.
      apply firstn_all2. lia. }
  destruct (u64 (hw_ret r) <? 0);
    [|destruct (nb (if u64 (hw_ret r) >? 0 then _ else thd) =? 0)];
    cbn; rewrite upd_same; exact Hf'.
Qed.

(** The data of a round, for the loop that reaches every record. *)
Lemma broadcast_written
    (size : Z) (r : hw_result) (thds : list ThdEntry) (w : World) :
  0 < size -> hw_ret r < 2 ^ 63 ->
  (forall k, healthy (files w k)) ->
  NoDup (map fd thds) ->
  forall thd, In thd thds ->
    written
      (files (snd (broadcast strerror_r size (hw_ret r) (hw_buf r)
                     (u64 (Z.quot (hw_ret r) size)) thds w)) (fd thd)) =
    written (files w (fd thd)) ++
    (if served size (hw_ret r) thd then hw_buf r else []).
Proof.
  intros Hsize Hret. revert w.
  induction thds as [|t rest IH]; intros w Hhealthy Hnd thd Hin; [easy|].
  cbn [map] in Hnd. apply NoDup_cons_iff in Hnd as [Hfresh Hnd'].
  cbn [broadcast]. unfold bind.
  pose proof (broadcast_step_written size r t w Hsize Hret
                (or_intror (Hhealthy (fd t)))) as Hstep.
  pose proof (broadcast_step_any strerror_r size (hw_ret r) (hw_buf r)
                (u64 (Z.quot (hw_ret r) size)) t w) as (_ & Hother & _ & _).
  assert (Hh1 : forall k,
            healthy (files (snd (broadcast_step strerror_r size (hw_ret r)
                                   (hw_buf r) (u64 (Z.quot (hw_ret r) size))
                                   t w)) k)).
  { intros k. destruct (Nat.eq_dec k (fd t)) as [->|Hk].
    - unfold healthy, broadcast_step, bind.
      pose proof (emit_status_effect strerror_r (hw_ret r) t w)
        as (_ & _ & _ & _ & Hacc).
      destruct (emit_status strerror_r (hw_ret r) t w) as [[] w1].
      cbn [snd] in Hacc.
      assert (Hh : accepts (files w1 (fd t)) = [])
        by (rewrite Hacc; apply Hhealthy).
      destruct (hw_ret r <? 0); [exact Hh|].
      destruct (u64 (Z.quot (hw_ret r) size) >? nb t); [exact Hh|].
      unfold write_all_fd.
      pose proof (u64_range (hw_ret r)) as Hu.
      destruct (write_all_ok (hw_buf r) (u64 (hw_ret r)) (files w1 (fd t))
                  ltac:(lia) (or_intror Hh)) as (f' & Hw & Hacc' & _).
      rewrite Hw.
      destruct (u64 (u64 (hw_ret r)) <? 0);
        [|destruct (nb (if u64 (u64 (hw_ret r)) >? 0 then _ else t) =? 0)];
        cbn; rewrite upd_same; congruence.
    - rewrite Hother by assumption. apply Hhealthy. }
  destruct (broadcast_step strerror_r size (hw_ret r) (hw_buf r)
              (u64 (Z.quot (hw_ret r) size)) t w) as [o w1].
  cbn [snd] in Hstep, Hother, Hh1.
  pose proof (broadcast_any strerror_r size (hw_ret r) (hw_buf r)
                (u64 (Z.quot (hw_ret r) size)) rest w1)
    as (_ & Hother' & _ & _).
  specialize (IH w1 Hh1 Hnd').
  destruct (broadcast strerror_r size (hw_ret r) (hw_buf r)
              (u64 (Z.quot (hw_ret r) size)) rest w1) as [kept w2].
  cbn [snd pure] in *.
  destruct Hin as [<-|Hin].
  - rewrite Hother' by assumption. exact Hstep.
  - rewrite (IH thd Hin). rewrite Hother; [reflexivity|].
    intros E. apply Hfresh. rewrite <- E. now apply in_map.
Qed.

End SameBytes.

Section Joining.

Variable strerror_r : Z -> string.




End Joining.

(** ** Opening and closing the device *)

Lemma serve_calls (d : nat) (r : Request) (w : World) :
  registered d w ->
  opens d (trace (snd (serve r w))) = opens d (trace w) /\
  closes d (trace (snd (serve r w))) = closes d (trace w).
Proof.
  intros Hreg. unfold serve, read_buffer_attach.
  destruct (devlist_lock w); [now split|].
  destruct (find_entry (rq_dev r) (devlist_head w)) as [entry|] eqn:Hfind.
  - destruct (negb (sample_size entry =? rq_sample_size r)); [now split|].
    destruct (negb (malloc_thd (rq_sys r))); [now split|].
    destruct (thdlist_lock entry); now split.
  - assert (Hother : Nat.eqb (rq_dev r) d = false).
    { apply Nat.eqb_neq. intros E. apply Hreg. now rewrite <- E. }
    assert (Ho1 : opens d [Open (rq_dev r)] = 0%nat)
      by (unfold opens; cbn; now rewrite Hother).
    assert (Hc1 : closes d [Close (rq_dev r)] = 0%nat)
      by (unfold closes; cbn; now rewrite Hother).
    assert (Ho2 : opens d [Close (rq_dev r)] = 0%nat) by reflexivity.
    assert (Hc2 : closes d [Open (rq_dev r)] = 0%nat) by reflexivity.
    destruct (negb (malloc_thd (rq_sys r))); [now split|].
    destruct (negb (malloc_entry (rq_sys r))); [now split|].
    destruct (negb (open_ret (rq_sys r) =? 0));
      [|destruct (negb (create_ret (rq_sys r) =? 0))];
      cbn [snd]; world_simpl;
      rewrite ?opens_app, ?closes_app, ?Ho1, ?Ho2, ?Hc1, ?Hc2; split; lia.
Qed.

Lemma arrivals_calls (d : nat) (reqs : list Request) :
  forall w,
    registered d w ->
    opens d (trace (snd (arrivals reqs w))) = opens d (trace w) /\
    closes d (trace (snd (arrivals reqs w))) = closes d (trace w).
Proof.
  induction reqs as [|r reqs IH]; intros w Hreg; [now split|].
  cbn [arrivals]. unfold bind.
  destruct (serve_calls d r w Hreg) as [Ho Hc].
  pose proof (arr_registered _ _ _ _ (serve_arrived d r w) Hreg) as Hreg1.
  destruct (serve r w) as [a w1]. cbn [snd] in *.
  destruct (IH w1 Hreg1) as [Ho1 Hc1]. split; congruence.
Qed.

Section Lifetime.

Variable strerror_r : Z -> string.

Lemma round_calls (d : nat) (size max_size : Z) (env : Env) (w1 : World) :
  registered d w1 ->
  opens d (trace (round_world strerror_r d size max_size env w1)) =
    opens d (trace w1) /\
  closes d (trace (round_world strerror_r d size max_size env w1)) =
    closes d (trace w1).
Proof.
  intros Hreg. unfold round_world.
  set (len := round_len d size max_size w1).
  destruct (to_read_silent d len w1) as [[_ Hr2 _ _ _ Ht2] _].
  set (w2 := snd (to_read d len w1)) in *.
  destruct (arrivals_calls d (during env) w2 (Hr2 Hreg)) as [Ho3 Hc3].
  set (w3 := snd (arrivals (during env) w2)) in *.
  destruct (lock_thdlist_silent d d w3) as [_ _ _ _ _ Htb].
  set (wb := snd (lock_thdlist d w3)) in *.
  destruct (broadcast_any strerror_r size (hw_ret (hw env len))
              (hw_buf (hw env len))
              (u64 (Z.quot (hw_ret (hw env len)) size))
              (waiters d wb) wb) as ([_ _ Ht _] & _).
  set (res := broadcast strerror_r size (hw_ret (hw env len))
                (hw_buf (hw env len))
                (u64 (Z.quot (hw_ret (hw env len)) size))
                (waiters d wb) wb) in *.
  destruct (unlock_thdlist_silent d d (snd (put_thdlist d (fst res) (snd res))))
    as [_ _ _ _ _ Ht5].
  assert (Htp : trace (snd (put_thdlist d (fst res) (snd res))) =
                trace (snd res)) by reflexivity.
  rewrite Ht5, Htp, Ht, Htb, !opens_app, !closes_app, Ho3, Hc3, Ht2,
    opens_app, closes_app.
  assert (Ho : opens d (read_events d len) = 0%nat) by reflexivity.
  assert (Hc : closes d (read_events d len) = 0%nat) by reflexivity.
  rewrite Ho, Hc. cbn. split; lia.
Qed.

Lemma step_calls (d : nat) (size max_size : Z) (env : Env) (ret : Z)
    (w : World) :
  registered d w ->
  let st := read_thd_step strerror_r d size max_size env ret w in
  opens d (trace (snd st)) = opens d (trace w) /\
  closes d (trace (snd st)) =
    (closes d (trace w) +
     match fst st with Terminated => 1 | _ => 0 end)%nat /\
  (forall ret', fst st = Running ret' -> registered d (snd st)).
Proof.
  intros Hreg. cbv zeta.
  destruct (arrivals_calls d (before env) w Hreg) as [Ho1 Hc1].
  pose proof (arr_registered _ _ _ _ (arrivals_arrived d (before env) w) Hreg)
    as Hreg1.
  destruct (step_cases strerror_r d size max_size env ret w)
    as [(_ & _ & _ & ->)|(w2 & ret' & _ & _ & (evs & Hs & Hevs) & ->)];
    cbn [fst snd].
  - destruct (round_calls d size max_size env _ Hreg1) as [Ho Hc].
    destruct (round_world_obs strerror_r d size max_size env _ Hreg1)
      as [new tr wb _ _ _ _ _ _ _ _ _ _ _ Hr5 _].
    split; [congruence|]. split; [lia|]. intros _ _. exact Hr5.
  - destruct (read_thd_exit_obs d ret' w2) as [_ _ _ Htx _ _].
    destruct Hs as [_ _ _ _ _ Ht2].
    rewrite Htx, Ht2, !opens_app, !closes_app, Ho1, Hc1.
    assert (Hc : closes d [Lock (Thdlist d); Unlock (Thdlist d);
                           Unlock Devlist; Close d] = 1%nat)
      by (unfold closes; cbn; now rewrite Nat.eqb_refl).
    rewrite Hc.
    split; [|split; [|discriminate]];
      destruct Hevs as [->| ->]; cbn; lia.
Qed.

Lemma loop_calls (d : nat) (size max_size : Z) (envs : list Env) :
  forall ret w,
    registered d w ->
    let st := read_thd_loop strerror_r d size max_size envs ret w in
    opens d (trace (snd st)) = opens d (trace w) /\
    closes d (trace (snd st)) =
      (closes d (trace w) +
       match fst st with Terminated => 1 | _ => 0 end)%nat.
Proof.
  induction envs as [|env envs IH]; intros ret w Hreg; cbv zeta.
  - cbn. split; lia.
  - cbn [read_thd_loop]. unfold bind.
    destruct (step_calls d size max_size env ret w Hreg) as (Ho & Hc & Hrun).
    destruct (read_thd_step strerror_r d size max_size env ret w) as [st w1].
    cbn [fst snd] in *.
    destruct st as [ret'| |]; cbn [fst snd]; [|now split|now split].
    destruct (IH ret' w1 (Hrun ret' eq_refl)) as [Ho2 Hc2].
    cbv zeta in Ho2, Hc2. split; [congruence|]. rewrite Hc2. lia.
Qed.

End Lifetime.

(** ** The frame a round puts on a stream *)

Section Framing.

Variable strerror_r : Z -> string.

Lemma broadcast_step_healthy (size : Z) (r : hw_result) (thd : ThdEntry)
    (w : World) :
  (forall k, healthy (files w k)) ->
  forall k,
    healthy (files (snd (broadcast_step strerror_r size (hw_ret r) (hw_buf r)
                           (u64 (Z.quot (hw_ret r) size)) thd w)) k).
Proof.
  intros Hhealthy k.
  pose proof (broadcast_step_any strerror_r size (hw_ret r) (hw_buf r)
                (u64 (Z.quot (hw_ret r) size)) thd w) as (_ & Hother & _ & _).
  destruct (Nat.eq_dec k (fd thd)) as [->|Hk];
    [|rewrite Hother by assumption; apply Hhealthy].
  clear Hother. unfold healthy, broadcast_step, bind.
  pose proof (emit_status_effect strerror_r (hw_ret r) thd w)
    as (_ & _ & _ & _ & Hacc).
  destruct (emit_status strerror_r (hw_ret r) thd w) as [[] w1].
  cbn [snd] in Hacc.
  assert (Hh : accepts (files w1 (fd thd)) = [])
    by (rewrite Hacc; apply Hhealthy).
  destruct (hw_ret r <? 0); [exact Hh|].
  destruct (u64 (Z.quot (hw_ret r) size) >? nb thd); [exact Hh|].
  unfold write_all_fd.
  pose proof (u64_range (hw_ret r)) as Hu.
  destruct (write_all_ok (hw_buf r) (u64 (hw_ret r)) (files w1 (fd thd))
              ltac:(lia) (or_intror Hh)) as (f' & Hw & Hacc' & _).
  rewrite Hw.
  destruct (u64 (u64 (hw_ret r)) <? 0);
    [|destruct (nb (if u64 (u64 (hw_ret r)) >? 0 then _ else thd) =? 0)];
    cbn; rewrite upd_same; congruence.
Qed.

Lemma broadcast_step_frame (size : Z) (r : hw_result) (thd : ThdEntry)
    (w : World) :
  0 < size -> hw_ret r < 2 ^ 63 ->
  healthy (files w (fd thd)) ->
  contents
    (files (snd (broadcast_step strerror_r size (hw_ret r) (hw_buf r)
                   (u64 (Z.quot (hw_ret r) size)) thd w)) (fd thd)) =
  contents (files w (fd thd)) ++
  map Printed (status_of strerror_r (hw_ret r) thd) ++
  (if served size (hw_ret r) thd && (0 <? hw_ret r)
   then [Written (hw_buf r)] else []).
Proof.
  intros Hsize Hret Hok.
  unfold broadcast_step, bind.
  pose proof (emit_status_effect strerror_r (hw_ret r) thd w)
    as (_ & _ & _ & Hcont & Hacc).
  destruct (emit_status strerror_r (hw_ret r) thd w) as [[] w1].
  cbn [snd] in *.
  unfold served.
  destruct (Z.ltb_spec (hw_ret r) 0) as [Hneg|Hpos].
  { assert (E : (0 <=? hw_ret r) = false) by (apply Z.leb_gt; lia).
    rewrite E. cbn. now rewrite app_nil_r. }
  assert (E : (0 <=? hw_ret r) = true) by (apply Z.leb_le; lia).
  rewrite E. cbn [andb].
  rewrite Z.quot_div_nonneg by lia.
  assert (Hq : 0 <= hw_ret r / size <= hw_ret r).
  { split; [apply Z.div_pos; lia|apply Z.div_le_upper_bound; nia]. }
  rewrite u64_small by lia.
  destruct (Z.gtb_spec (hw_ret r / size) (nb thd)) as [Hgt|Hle].
  { assert (E' : (hw_ret r / size <=? nb thd) = false) by (apply Z.leb_gt; lia).
    rewrite E'. cbn. now rewrite app_nil_r. }
  assert (E' : (hw_ret r / size <=? nb thd) = true) by (apply Z.leb_le; lia).
  rewrite E'. rewrite u64_small by lia. cbn [andb].
  unfold write_all_fd.
  destruct (write_all_ok (hw_buf r) (hw_ret r) (files w1 (fd thd)))
    as (f' & Hw & _ & Hcont');
    [lia | right; unfold healthy; now rewrite Hacc |].
  rewrite Hw. clear Hw.
  assert (Hf' : contents f' =
                contents (files w (fd thd)) ++
                map Printed (status_of strerror_r (hw_ret r) thd) ++
                (if 0 <? hw_ret r then [Written (hw_buf r)] else [])).
  { rewrite Hcont', Hcont, <- app_assoc. do 2 f_equal.
    pose proof (hw_buf_length r Hpos) as Hlen.
    destruct (Z.eqb_spec (hw_ret r) 0) as [Hz|Hnz].
    - rewrite Hz. reflexivity.
    - assert (E2 : (0 <? hw_ret r) = true) by (apply Z.ltb_lt; lia).
      rewrite E2. do 2 f_equal. apply firstn_all2. lia. }
  destruct (u64 (hw_ret r) <? 0);
    [|destruct (nb (if u64 (hw_ret r) >? 0 then _ else thd) =? 0)];
    cbn; rewrite upd_same; exact Hf'.
Qed.

(** The frame of a round, for the loop that reaches every record. *)
Lemma broadcast_frame
    (size : Z) (r : hw_result) (thds : list ThdEntry) (w : World) :
  0 < size -> hw_ret r < 2 ^ 63 ->
  (forall k, healthy (files w k)) ->
  NoDup (map fd thds) ->
  forall thd, In thd thds ->
    contents
      (files (snd (broadcast strerror_r size (hw_ret r) (hw_buf r)
                     (u64 (Z.quot (hw_ret r) size)) thds w)) (fd thd)) =
    contents (files w (fd thd)) ++
    map Printed (status_of strerror_r (hw_ret r) thd) ++
    (if served size (hw_ret r) thd && (0 <? hw_ret r)
     then [Written (hw_buf r)] else []).
Proof.
  intros Hsize Hret. revert w.
  induction thds as [|t rest IH]; intros w Hhealthy Hnd thd Hin; [easy|].
  cbn [map] in Hnd. apply NoDup_cons_iff in Hnd as [Hfresh Hnd'].
  cbn [broadcast]. unfold bind.
  pose proof (broadcast_step_frame size r t w Hsize Hret (Hhealthy (fd t)))
    as Hstep.
  pose proof (broadcast_step_any strerror_r size (hw_ret r) (hw_buf r)
                (u64 (Z.quot (hw_ret r) size)) t w) as (_ & Hother & _ & _).
  pose proof (broadcast_step_healthy size r t w Hhealthy) as Hh1.
  destruct (broadcast_step strerror_r size (hw_ret r) (hw_buf r)
              (u64 (Z.quot (hw_ret r) size)) t w) as [o w1].
  cbn [snd] in Hstep, Hother, Hh1.
  pose proof (broadcast_any strerror_r size (hw_ret r) (hw_buf r)
                (u64 (Z.quot (hw_ret r) size)) rest w1)
    as (_ & Hother' & _ & _).
  specialize (IH w1 Hh1 Hnd').
  destruct (broadcast strerror_r size (hw_ret r) (hw_buf r)
              (u64 (Z.quot (hw_ret r) size)) rest w1) as [kept w2].
  cbn [snd pure] in *.
  destruct Hin as [<-|Hin].
  - rewrite Hother' by assumption. exact Hstep.
  - rewrite (IH thd Hin). rewrite Hother; [reflexivity|].
    intros E. apply Hfresh. rewrite <- E. now apply in_map.
Qed.

End Framing.

(** ** Instances of the further properties *)

(** A stream that takes two bytes and then refuses: [write_all] of three
    bytes leaves a prefix. *)
Lemma write_all_all_or_prefix_witness :
  exists k,
    0 <= k <= 3 /\
    written (snd (write_all ["a"; "b"; "c"]%char 3
                    (mkFILE [] [2%nat; 0%nat]))) =
      written (mkFILE [] [2%nat; 0%nat]) ++
      firstn (Z.to_nat k) ["a"; "b"; "c"]%char /\
    ((fst (write_all ["a"; "b"; "c"]%char 3 (mkFILE [] [2%nat; 0%nat])) = 3 /\
      k = 3) \/
     (fst (write_all ["a"; "b"; "c"]%char 3 (mkFILE [] [2%nat; 0%nat])) =
        - EIO /\ k < 3)).
Proof.
  apply (write_all_all_or_prefix ["a"; "b"; "c"]%char 3
           (mkFILE [] [2%nat; 0%nat])).
  lia.
Defined.

(** A stream that takes one byte at a time. *)
Lemma write_all_partial_writes_witness :
  fst (write_all ["a"; "b"; "c"]%char 3
         (mkFILE [] [1%nat; 1%nat; 1%nat])) = 3 /\
  written (snd (write_all ["a"; "b"; "c"]%char 3
                  (mkFILE [] [1%nat; 1%nat; 1%nat]))) =
    ["a"; "b"; "c"]%char.
Proof.
  apply (write_all_partial_writes ["a"; "b"; "c"]%char 3
           (mkFILE [] [1%nat; 1%nat; 1%nat])).
  - lia.
  - simpl. do 3 (apply Forall_cons; [lia|]). apply Forall_nil.
Defined.

(** A stream that takes two bytes, refuses, and would then take five. *)
Lemma write_all_stops_at_refusal_witness :
  fst (write_all ["a"; "b"; "c"; "d"]%char 4
         (mkFILE [] [2%nat; 0%nat; 5%nat])) = -5 /\
  written (snd (write_all ["a"; "b"; "c"; "d"]%char 4
                  (mkFILE [] [2%nat; 0%nat; 5%nat]))) = ["a"; "b"]%char /\
  accepts (snd (write_all ["a"; "b"; "c"; "d"]%char 4
                  (mkFILE [] [2%nat; 0%nat; 5%nat]))) = [5%nat].
Proof.
  apply (write_all_stops_at_refusal ["a"; "b"; "c"; "d"]%char 4
           (mkFILE [] [2%nat; 0%nat; 5%nat]) [2%nat] [5%nat]).
  - reflexivity.
  - apply Forall_cons; [lia|]. apply Forall_nil.
  - simpl. lia.
Defined.

(** The attribute ["bad"] of the device named ["adc"] cannot be read. *)
Lemma read_dev_attr_failure_witness :
  fst (read_dev_attr messages sample_attr_read (mk_pdata two_devices 3 true)
         "adc" "bad" world0) = -22.
Proof.
  refine (proj1 (read_dev_attr_failure messages sample_attr_read
                   (mk_pdata two_devices 3 true) "adc" "bad" world0 _)).
  vm_compute. reflexivity.
Defined.

(** The attribute of the first device reads as the four bytes ["1000"]. *)
Lemma read_dev_attr_success_witness :
  fst (read_dev_attr messages sample_attr_read (mk_pdata two_devices 3 false)
         "iio:device0" "sampling_frequency" world0) = 4 /\
  written (files (snd (read_dev_attr messages sample_attr_read
                         (mk_pdata two_devices 3 false)
                         "iio:device0" "sampling_frequency" world0)) 3) =
    ["1"; "0"; "0"; "0"; "010"]%char.
Proof.
  destruct (read_dev_attr_success messages sample_attr_read
              (mk_pdata two_devices 3 false)
              "iio:device0" "sampling_frequency" world0
              (mk_iio_device 1 "iio:device0" "adc") 4
              ["1"; "0"; "0"; "0"]%char) as (H1 & _ & H3 & _).
  - reflexivity.
  - reflexivity.
  - lia.
  - reflexivity.
  - split; [exact H1|exact H3].
Defined.

(** A second request for device 7 and a turn of its worker. *)
Lemma one_session_per_device_witness :
  NoDup (devices (devlist_head
                    (snd (serve late_request (one_waiter_world false 100))))) /\
  NoDup (devices (devlist_head
                    (snd (read_thd messages (mkDev 7 4 [] false)
                            [calm full_read] (one_waiter_world false 100))))).
Proof.
  apply (one_session_per_device messages late_request (mkDev 7 4 [] false)
           [calm full_read] (one_waiter_world false 100)).
  simpl. apply NoDup_cons; [intros []|apply NoDup_nil].
Defined.

(** The record of a request for one sample, after the round that serves
    it. *)
Lemma signalled_records_have_outcome_witness :
  err (mkThd 0 0 (Some 0) 1 false) <> None /\
  forall n size,
    read_buffer_return n size (mkThd 0 0 (Some 0) 1 false) <> None.
Proof.
  apply (signalled_records_have_outcome messages (mkDev 7 4 [] false)
           [calm exact_read] (one_waiter_world false 1)).
  - apply Forall_nil.
  - vm_compute. left. reflexivity.
Defined.

(** * The worker among the threads of the requests *)

Lemma find_tid (l : list ThdEntry) (t : ThdEntry) :
  NoDup (map tid l) -> In t l ->
  find (fun thd => Nat.eqb (tid thd) (tid t)) l = Some t.
Proof.
  induction l as [|a l IH]; [easy|].
  cbn [map]. intros Hnd Hin. apply NoDup_cons_iff in Hnd as [Hnew Hnd].
  cbn [find]. destruct (Nat.eqb_spec (tid a) (tid t)) as [E|E].
  - destruct Hin as [->|Hin]; [reflexivity|].
    exfalso. apply Hnew. rewrite E. now apply in_map.
  - destruct Hin as [->|Hin]; [contradiction|]. now apply IH.
Qed.

(** The call of a request whose record was signalled while its owner was
    waiting returns what [read_buffer_return] says. *)
Lemma read_buffer_wait_returns (s : Schedule) (n size : Z) (t : ThdEntry)
    (w : World) :
  NoDup (map tid (signalled w)) -> In t (signalled w) ->
  parked s (tid t) = true ->
  read_buffer_wait s n size (tid t) w = Returns (read_buffer_return n size t).
Proof.
  intros Hnd Hin Hp. unfold read_buffer_wait.
  now rewrite (find_tid _ _ Hnd Hin), Hp.
Qed.

Lemma exit_unregister (d : nat) (ret : Z) (w : World) :
  read_thd_exit d ret w =
  emit (Close d) (snd (read_thd_unregister d ret w)).
Proof.
  unfold read_thd_exit, read_thd_unregister, bind.
  destruct (lock_thdlist d w) as [[] w1].
  unfold get_thdlist. cbv beta iota.
  destruct (drain ret (waiters d w1) w1) as [[] w2].
  destruct (put_thdlist d [] w2) as [[] w3].
  destruct (unlock_thdlist d w3) as [[] w4].
  now destruct (unlock_devlist _) as [[] w5].
Qed.

Lemma closes_after_nobody (s : Schedule) (d : nat) (w_seq w : World) :
  closes_after s d w_seq w -> closing s = [] -> w = w_seq.
Proof. intros (wu & -> & ->) Hc. now rewrite Hc. Qed.

Lemma closes_after_streams (s : Schedule) (d : nat) (w_seq w : World) :
  closes_after s d w_seq w ->
  files w = files w_seq /\ signalled w = signalled w_seq.
Proof.
  intros (wu & -> & ->).
  destruct (arrivals_arrived d (closing s) wu) as [Hf Hs _ _ _ _ _].
  split; [exact Hf|exact Hs].
Qed.

Section Racing.

Variable strerror_r : Z -> string.

(** As long as no record is freed under it, the loop is the sequential
    loop. *)
Lemma broadcast_racing_benign (s : Schedule) (size ret : Z)
    (buf : list ascii) (n : Z) (thds : list ThdEntry) :
  (forall t, In t thds -> freed s t = false) ->
  forall w,
    broadcast_racing strerror_r s size ret buf n thds w =
    ((fst (broadcast strerror_r size ret buf n thds w), None),
     snd (broadcast strerror_r size ret buf n thds w)).
Proof.
  induction thds as [|thd rest IH]; intros Hb w; [reflexivity|].
  cbn [broadcast_racing broadcast]. unfold bind.
  assert (Hrest : forall t, In t rest -> freed s t = false)
    by (intros t Ht; apply Hb; now right).
  destruct (broadcast_step strerror_r size ret buf n thd w) as [o w1].
  destruct o as [thd'|].
  - rewrite (IH Hrest w1).
    now destruct (broadcast strerror_r size ret buf n rest w1) as [kept w2].
  - rewrite (Hb thd (or_introl eq_refl)), (IH Hrest w1).
    now destruct (broadcast strerror_r size ret buf n rest w1) as [kept w2].
Qed.

(** A loop that came to its end is the sequential loop. *)
Lemma broadcast_racing_walked (s : Schedule) (size ret : Z)
    (buf : list ascii) (n : Z) (thds : list ThdEntry) :
  forall w,
    snd (fst (broadcast_racing strerror_r s size ret buf n thds w)) = None ->
    broadcast_racing strerror_r s size ret buf n thds w =
    ((fst (broadcast strerror_r size ret buf n thds w), None),
     snd (broadcast strerror_r size ret buf n thds w)).
Proof.
  induction thds as [|thd rest IH]; intros w; [reflexivity|].
  cbn [broadcast_racing broadcast]. unfold bind.
  destruct (broadcast_step strerror_r size ret buf n thd w) as [o w1].
  specialize (IH w1).
  destruct o as [thd'|].
  - destruct (broadcast_racing strerror_r s size ret buf n rest w1)
      as [[kept lost] w2].
    cbn [fst snd pure] in *. intros ->. specialize (IH eq_refl).
    injection IH as Hk Hw.
    destruct (broadcast strerror_r size ret buf n rest w1) as [kept' w2'].
    cbn [fst snd] in *. now subst.
  - destruct (freed s thd); [discriminate|].
    intros H. rewrite (IH H).
    now destruct (broadcast strerror_r size ret buf n rest w1) as [kept w2].
Qed.

(** Whatever the owners do, the loop touches only the streams of the
    records it is given, and only adds to the signalled records. *)
Lemma broadcast_racing_any (s : Schedule) (size ret : Z) (buf : list ascii)
    (n : Z) (thds : list ThdEntry) :
  forall w,
    let res := broadcast_racing strerror_r s size ret buf n thds w in
    framed w (snd res) /\
    (forall k, ~ In k (map fd thds) -> files (snd res) k = files w k) /\
    (exists l, signalled (snd res) = signalled w ++ l).
Proof.
  induction thds as [|thd rest IH]; intros w; cbv zeta.
  - cbn. split; [apply framed_refl|]. split; [reflexivity|].
    exists []. now rewrite app_nil_r.
  - cbn [broadcast_racing]. unfold bind.
    pose proof (broadcast_step_any strerror_r size ret buf n thd w)
      as (Hfr & Hother & (l1 & Hl1) & _).
    destruct (broadcast_step strerror_r size ret buf n thd w) as [o w1].
    cbn [snd] in Hfr, Hother, Hl1.
    destruct (IH w1) as (Hfr2 & Hother2 & (l2 & Hl2)).
    assert (Hstop : framed w w1 /\
                    (forall k, ~ In k (map fd (thd :: rest)) ->
                               files w1 k = files w k) /\
                    (exists l, signalled w1 = signalled w ++ l)).
    { split; [exact Hfr|]. split; [|now exists l1].
      intros k Hk. apply Hother. intros E. apply Hk. now left. }
    assert (Hgo : framed w
                    (snd (broadcast_racing strerror_r s size ret buf n rest
                            w1)) /\
                  (forall k, ~ In k (map fd (thd :: rest)) ->
                     files (snd (broadcast_racing strerror_r s size ret buf n
                                   rest w1)) k = files w k) /\
                  (exists l,
                     signalled (snd (broadcast_racing strerror_r s size ret
                                       buf n rest w1)) = signalled w ++ l)).
    { split; [exact (framed_trans _ _ _ Hfr Hfr2)|]. split.
      - intros k Hk. rewrite Hother2 by (intros E; apply Hk; now right).
        apply Hother. intros E. apply Hk. now left.
      - exists (l1 ++ l2). now rewrite Hl2, Hl1, app_assoc. }
    destruct o as [thd'|].
    + destruct (broadcast_racing strerror_r s size ret buf n rest w1)
        as [[kept lost] w2]. exact Hgo.
    + destruct (freed s thd); [exact Hstop|exact Hgo].
Qed.

(** The stream of a record that the loop reaches is what the sequential
    loop makes it, whatever becomes of the loop afterwards. *)
Lemma broadcast_racing_reach (s : Schedule) (size ret : Z)
    (buf : list ascii) (n : Z) (pre : list ThdEntry) (thd : ThdEntry)
    (post : list ThdEntry) :
  NoDup (map fd (pre ++ thd :: post)) ->
  (forall t, In t pre -> freed s t = false) ->
  forall w,
    files (snd (broadcast_racing strerror_r s size ret buf n
                  (pre ++ thd :: post) w)) (fd thd) =
    files (snd (broadcast strerror_r size ret buf n (pre ++ thd :: post) w))
          (fd thd).
Proof.
  induction pre as [|a pre IH]; intros Hnd Hb w.
  - cbn [app] in *. cbn [map] in Hnd.
    apply NoDup_cons_iff in Hnd as [Hfresh _].
    cbn [broadcast_racing broadcast]. unfold bind.
    destruct (broadcast_step strerror_r size ret buf n thd w) as [o w1].
    destruct (broadcast_racing_any s size ret buf n post w1)
      as (_ & Hr & _).
    destruct (broadcast_any strerror_r size ret buf n post w1)
      as (_ & Hs & _).
    cbv zeta in Hr, Hs. specialize (Hr _ Hfresh). specialize (Hs _ Hfresh).
    destruct (broadcast strerror_r size ret buf n post w1) as [kept w2].
    cbn [fst snd pure] in *. rewrite Hs.
    destruct o as [thd'|].
    + destruct (broadcast_racing strerror_r s size ret buf n post w1)
        as [[kept' lost] w2']. exact Hr.
    + destruct (freed s thd); [reflexivity|exact Hr].
  - cbn [app map] in Hnd. apply NoDup_cons_iff in Hnd as [_ Hnd].
    assert (Hpre : forall t, In t pre -> freed s t = false)
      by (intros t Ht; apply Hb; now right).
    cbn [app broadcast_racing broadcast]. unfold bind.
    destruct (broadcast_step strerror_r size ret buf n a w) as [o w1].
    specialize (IH Hnd Hpre w1).
    destruct (broadcast strerror_r size ret buf n (pre ++ thd :: post) w1)
      as [kept w2].
    cbn [fst snd pure] in *.
    destruct o as [a'|].
    + destruct (broadcast_racing strerror_r s size ret buf n
                  (pre ++ thd :: post) w1) as [[kept' lost] w2'].
      exact IH.
    + rewrite (Hb a (or_introl eq_refl)). exact IH.
Qed.

Lemma drain_racing_benign (s : Schedule) (ret : Z) (thds : list ThdEntry) :
  (forall t, In t thds -> freed s t = false) ->
  forall w,
    drain_racing s ret thds w = (([], None), snd (drain ret thds w)).
Proof.
  induction thds as [|thd rest IH]; intros Hb w; [reflexivity|].
  cbn [drain_racing drain]. unfold bind.
  destruct (pthread_cond_signal _ w) as [[] w1].
  rewrite (Hb thd (or_introl eq_refl)).
  apply IH. intros t Ht. apply Hb. now right.
Qed.

End Racing.

Section RacingTurn.

Variable strerror_r : Z -> string.

(** A turn of a worker under whose loops no record is freed is the turn of
    the sequential worker. *)
Lemma iteration_racing_benign (s : Schedule) (d : nat) (size max_size : Z)
    (env : Env) (ret : Z) (w : World) :
  unhurried s ->
  read_thd_iteration_racing strerror_r s d size max_size env ret w =
  (Valid (fst (read_thd_iteration strerror_r d size max_size env ret w)),
   snd (read_thd_iteration strerror_r d size max_size env ret w)).
Proof.
  intros Hs. unfold read_thd_iteration_racing, read_thd_iteration, bind.
  destruct (arrivals (before env) w) as [[] w1].
  destruct (lock_devlist w1) as [[] wa].
  destruct (ret <? 0); [reflexivity|].
  destruct (lock_thdlist d wa) as [[] wb].
  unfold get_thdlist. cbv beta iota.
  destruct (waiters d wb) as [|t l].
  { now destruct (unlock_thdlist d wb) as [[] wc]. }
  destruct (unlock_thdlist d wb) as [[] wc].
  destruct (negb (malloc_buf env)); [reflexivity|].
  destruct (unlock_devlist wc) as [[] wd].
  destruct (iio_device_read_raw d env _ wd) as [r we].
  destruct (lock_thdlist d we) as [[] wf].
  rewrite broadcast_racing_benign by (intros; apply Hs).
  destruct (broadcast strerror_r size (hw_ret r) (hw_buf r)
              (u64 (Z.quot (hw_ret r) size)) (waiters d wf) wf) as [kept wg].
  cbn [fst snd].
  destruct (put_thdlist d kept wg) as [[] wh].
  now destruct (unlock_thdlist d wh) as [[] wi].
Qed.

Lemma exit_racing_benign (s : Schedule) (d : nat) (ret : Z) (w : World) :
  unhurried s ->
  read_thd_exit_racing s d ret w =
  (Valid tt,
   snd (emit (Close d)
          (snd (arrivals (closing s) (snd (read_thd_unregister d ret w)))))).
Proof.
  intros Hs.
  unfold read_thd_exit_racing, read_thd_drain_racing, read_thd_leave_racing,
    read_thd_unregister, bind.
  unfold lock_thdlist, get_thdlist, put_thdlist, unlock_thdlist,
    unlock_devlist, emit, pure.
  cbv beta iota.
  rewrite drain_racing_benign by (intros; apply Hs).
  destruct (drain ret _ _) as [[] w2]. cbn [fst snd].
  now destruct (arrivals (closing s) _) as [[] w6].
Qed.

(** A turn of the worker, when no record is freed under its loops: the
    turn of the sequential worker, but for the requests served while it
    leaves. *)
Lemma step_racing_benign (s : Schedule) (d : nat) (size max_size : Z)
    (env : Env) (ret : Z) (w : World) :
  unhurried s ->
  let seq := read_thd_step strerror_r d size max_size env ret w in
  let rac := read_thd_step_racing strerror_r s d size max_size env ret w in
  fst rac = Valid (fst seq) /\
  match fst seq with
  | Terminated => closes_after s d (snd seq) (snd rac)
  | _ => snd rac = snd seq
  end.
Proof.
  intros Hs. cbv zeta.
  unfold read_thd_step_racing, read_thd_step, bind.
  rewrite iteration_racing_benign by assumption.
  destruct (read_thd_iteration strerror_r d size max_size env ret w)
    as [[go ret'] w1].
  cbn [fst snd]. destruct go; [now split|].
  rewrite exit_racing_benign by assumption.
  rewrite exit_unregister.
  destruct (emit (Close d) (snd (read_thd_unregister d ret' w1))) as [[] w2]
    eqn:E.
  cbn [fst snd pure]. split; [reflexivity|].
  exists (snd (read_thd_unregister d ret' w1)). split; [now rewrite E|].
  reflexivity.
Qed.




End RacingTurn.

(** * What a round puts on a stream *)




Section Lines.

Variable strerror_r : Z -> string.




(** X17.  What a round puts on the stream of a record that its loop
    reaches, when streams take what they are given and no two records
    share one: first the status line of the round, if the record gets one,
    and then, for a record the round serves with a read that brought
    something, the buffer of the read in one piece - and nothing else.  A
    terse record that the round skips is sent the byte count of the read
    and no data after it. *)
Theorem round_frame
    (s : Schedule) (size : Z) (r : hw_result)
    (pre : list ThdEntry) (thd : ThdEntry) (post : list ThdEntry)
    (w : World) :
  0 < size -> hw_ret r < 2 ^ 63 ->
  (forall k, healthy (files w k)) ->
  NoDup (map fd (pre ++ thd :: post)) ->
  (forall t, In t pre -> freed s t = false) ->
  contents
    (files (snd (broadcast_racing strerror_r s size (hw_ret r) (hw_buf r)
                   (u64 (Z.quot (hw_ret r) size)) (pre ++ thd :: post) w))
           (fd thd)) =
  contents (files w (fd thd)) ++
  map Printed (status_of strerror_r (hw_ret r) thd) ++
  (if served size (hw_ret r) thd && (0 <? hw_ret r)
   then [Written (hw_buf r)] else []).
Proof.
  intros Hsize Hret Hhealthy Hnd Hpre.
  rewrite broadcast_racing_reach by assumption.
  apply broadcast_frame; try assumption.
  apply in_or_app. right. now left.
Qed.

(** X14.  A round is a broadcast: with streams that take what they are
    given, one per record, every record that the loop reaches and the
    round serves gets the whole buffer of the hardware read, the same
    bytes for all of them, and a record that is skipped, or any record
    when the read failed, gets no data. *)
Theorem broadcast_same_bytes
    (s : Schedule) (size : Z) (r : hw_result)
    (pre : list ThdEntry) (thd : ThdEntry) (post : list ThdEntry)
    (w : World) :
  0 < size -> hw_ret r < 2 ^ 63 ->
  (forall k, healthy (files w k)) ->
  NoDup (map fd (pre ++ thd :: post)) ->
  (forall t, In t pre -> freed s t = false) ->
  written
    (files (snd (broadcast_racing strerror_r s size (hw_ret r) (hw_buf r)
                   (u64 (Z.quot (hw_ret r) size)) (pre ++ thd :: post) w))
           (fd thd)) =
  written (files w (fd thd)) ++
  (if served size (hw_ret r) thd then hw_buf r else []).
Proof.
  intros Hsize Hret Hhealthy Hnd Hpre.
  rewrite broadcast_racing_reach by assumption.
  apply broadcast_written; try assumption.
  apply in_or_app. right. now left.
Qed.

End Lines.

(** * Turns that came to their end *)


Lemma drain_racing_walked (s : Schedule) (ret : Z) (thds : list ThdEntry) :
  forall w,
    snd (fst (drain_racing s ret thds w)) = None ->
    drain_racing s ret thds w = (([], None), snd (drain ret thds w)).
Proof.
  induction thds as [|thd rest IH]; intros w; [reflexivity|].
  cbn [drain_racing drain]. unfold bind.
  destruct (pthread_cond_signal _ w) as [[] w1].
  destruct (freed s thd); [discriminate|]. apply IH.
Qed.

Section RacingValid.

Variable strerror_r : Z -> string.

Lemma iteration_racing_valid (s : Schedule) (d : nat) (size max_size : Z)
    (env : Env) (ret : Z) (w : World) :
  match fst (read_thd_iteration_racing strerror_r s d size max_size env ret w)
  with
  | Valid _ =>
      read_thd_iteration_racing strerror_r s d size max_size env ret w =
      (Valid (fst (read_thd_iteration strerror_r d size max_size env ret w)),
       snd (read_thd_iteration strerror_r d size max_size env ret w))
  | Undefined _ => True
  end.
Proof.
  unfold read_thd_iteration_racing, read_thd_iteration, bind.
  destruct (arrivals (before env) w) as [[] w1].
  destruct (lock_devlist w1) as [[] wa].
  destruct (ret <? 0); [reflexivity|].
  destruct (lock_thdlist d wa) as [[] wb].
  unfold get_thdlist. cbv beta iota.
  destruct (waiters d wb) as [|t l].
  { now destruct (unlock_thdlist d wb) as [[] wc]. }
  destruct (unlock_thdlist d wb) as [[] wc].
  destruct (negb (malloc_buf env)); [reflexivity|].
  destruct (unlock_devlist wc) as [[] wd].
  destruct (iio_device_read_raw d env _ wd) as [r we].
  destruct (lock_thdlist d we) as [[] wf].
  pose proof (broadcast_racing_walked strerror_r s size (hw_ret r) (hw_buf r)
                (u64 (Z.quot (hw_ret r) size)) (waiters d wf) wf) as Hwalk.
  destruct (broadcast_racing strerror_r s size (hw_ret r) (hw_buf r)
              (u64 (Z.quot (hw_ret r) size)) (waiters d wf) wf)
    as [[kept lost] wg].
  cbn [fst snd] in Hwalk.
  destruct lost as [t'|].
  { now destruct (put_thdlist d kept wg) as [[] wh]. }
  specialize (Hwalk eq_refl). injection Hwalk as Hk Hw.
  destruct (broadcast strerror_r size (hw_ret r) (hw_buf r)
              (u64 (Z.quot (hw_ret r) size)) (waiters d wf) wf)
    as [kept' wg'].
  cbn [fst snd] in Hk, Hw. subst kept' wg'.
  destruct (put_thdlist d kept wg) as [[] wh].
  now destruct (unlock_thdlist d wh) as [[] wi].
Qed.

Lemma exit_racing_valid (s : Schedule) (d : nat) (ret : Z) (w : World) :
  match fst (read_thd_exit_racing s d ret w) with
  | Valid _ =>
      read_thd_exit_racing s d ret w =
      (Valid tt,
       snd (emit (Close d)
              (snd (arrivals (closing s)
                      (snd (read_thd_unregister d ret w))))))
  | Undefined _ => True
  end.
Proof.
  unfold read_thd_exit_racing, read_thd_drain_racing, read_thd_leave_racing,
    read_thd_unregister, bind.
  unfold lock_thdlist, get_thdlist, put_thdlist, unlock_thdlist,
    unlock_devlist, emit, pure.
  cbv beta iota.
  match goal with
  | |- context [drain_racing s ret ?l ?w0] =>
      pose proof (drain_racing_walked s ret l w0) as Hwalk;
      destruct (drain_racing s ret l w0) as [[rest lost] w2]
  end.
  cbn [fst snd] in Hwalk.
  destruct lost as [t'|]; [exact I|].
  specialize (Hwalk eq_refl). injection Hwalk as Hr Hw. subst rest.
  destruct (drain ret _ _) as [[] w2']. cbn [fst snd] in *. subst w2'.
  now destruct (arrivals (closing s) _) as [[] w6].
Qed.

(** A turn that found no freed record is the turn of the sequential
    worker, but for the requests served while the worker leaves. *)
Lemma step_racing_valid (s : Schedule) (d : nat) (size max_size : Z)
    (env : Env) (ret : Z) (w : World) :
  let seq := read_thd_step strerror_r d size max_size env ret w in
  let rac := read_thd_step_racing strerror_r s d size max_size env ret w in
  match fst rac with
  | Valid st =>
      st = fst seq /\
      match st with
      | Terminated => closes_after s d (snd seq) (snd rac)
      | _ => snd rac = snd seq
      end
  | Undefined _ => True
  end.
Proof.
  cbv zeta. unfold read_thd_step_racing, read_thd_step, bind.
  pose proof (iteration_racing_valid s d size max_size env ret w) as Hit.
  destruct (read_thd_iteration_racing strerror_r s d size max_size env ret w)
    as [it w1'].
  cbn [fst] in Hit. destruct it as [[go ret']|t']; [|exact I].
  injection Hit as Hgo Hw.
  destruct (read_thd_iteration strerror_r d size max_size env ret w)
    as [[go0 ret0] w1].
  cbn [fst snd] in Hgo, Hw. injection Hgo as -> ->. subst w1'.
  destruct go0; [now split|].
  pose proof (exit_racing_valid s d ret0 w1) as Hex.
  destruct (read_thd_exit_racing s d ret0 w1) as [r w2'].
  cbn [fst] in Hex. destruct r as [[]|t']; [|exact I].
  injection Hex as Hw2. rewrite exit_unregister.
  unfold emit, pure in *. cbv beta iota. cbn [fst snd] in *.
  split; [reflexivity|].
  exists (snd (read_thd_unregister d ret0 w1)).
  split; [reflexivity|exact Hw2].
Qed.

End RacingValid.

Section RacingRun.

Variable strerror_r : Z -> string.

Lemma loop_racing_valid (s : Schedule) (d : nat) (size max_size : Z)
    (envs : list Env) :
  forall ret w,
    let seq := read_thd_loop strerror_r d size max_size envs ret w in
    let rac := read_thd_loop_racing strerror_r s d size max_size envs ret w in
    match fst rac with
    | Valid st =>
        st = fst seq /\
        match st with
        | Terminated => closes_after s d (snd seq) (snd rac)
        | _ => snd rac = snd seq
        end
    | Undefined _ => True
    end.
Proof.
  induction envs as [|env envs IH]; intros ret w; cbv zeta.
  - now split.
  - cbn [read_thd_loop_racing read_thd_loop]. unfold bind.
    pose proof (step_racing_valid strerror_r s d size max_size env ret w)
      as Hstep.
    cbv zeta in Hstep.
    destruct (read_thd_step_racing strerror_r s d size max_size env ret w)
      as [st' w1'].
    destruct (read_thd_step strerror_r d size max_size env ret w)
      as [st w1].
    cbn [fst snd] in Hstep.
    destruct st' as [st'|t']; [|exact I].
    destruct Hstep as [-> Hw].
    destruct st as [ret'| |]; cbn [pure fst snd].
    + subst w1'. apply IH.
    + now split.
    + now split.
Qed.

Lemma read_thd_racing_valid (s : Schedule) (entry : DevEntry)
    (envs : list Env) (w : World) :
  let seq := read_thd strerror_r entry envs w in
  let rac := read_thd_racing strerror_r s entry envs w in
  match fst rac with
  | Valid st =>
      st = fst seq /\
      match st with
      | Terminated => closes_after s (dev entry) (snd seq) (snd rac)
      | _ => snd rac = snd seq
      end
  | Undefined _ => True
  end.
Proof.
  cbv zeta. unfold read_thd_racing, read_thd.
  destruct (sample_size entry =? 0); [now split|].
  apply loop_racing_valid.
Qed.



End RacingRun.

(** ** Every request gets what it asked for *)

(** *** Counting what is asked for *)







(** *** The records of new requests *)






(** *** Streams of their own *)





(** *** The work left after a round *)


(** *** The books stay right *)

Section Books.

Variables (failures : Prop) (d : nat) (size : Z) (base : nat -> Z).
Variables (L : list (nat * Z)) (sig0 : list ThdEntry).






End Books.

(** *** A turn of the loop keeps the books right *)

Section Turn.

Variable strerror_r : Z -> string.
Variables (failures : Prop) (d : nat) (size : Z) (base : nat -> Z).
Variables (L : list (nat * Z)) (sig0 : list ThdEntry).
Hypothesis Hsize : 1 <= size <= 1024.


End Turn.

Section Run.

Variable strerror_r : Z -> string.
Variables (failures : Prop) (d : nat) (size : Z) (base : nat -> Z).
Variables (L : list (nat * Z)) (sig0 : list ThdEntry).
Hypothesis Hsize : 1 <= size <= 1024.




End Run.

(** *** The whole run *)

Section WholeRun.

Variable strerror_r : Z -> string.
Variables (failures : Prop) (d : nat) (size : Z) (base : nat -> Z).
Variables (L : list (nat * Z)) (sig0 : list ThdEntry).
Hypothesis Hsize : 1 <= size <= 1024.


End WholeRun.

(** *** The worker among the threads of the requests *)





Section Nobody.

Variable strerror_r : Z -> string.



End Nobody.

Section Complete.

Variable strerror_r : Z -> string.



End Complete.

(** ** Leaving the loop among the threads of the requests *)

Lemma drained_error (code : Z) (l : list ThdEntry) :
  code < 0 -> drained code l = map (set_err code) l.
Proof.
  intros Hneg. apply Z.ltb_lt in Hneg. unfold drained. now rewrite Hneg.
Qed.

Lemma closes_after_reads (s : Schedule) (d d' : nat) (w_seq w : World) :
  closes_after s d w_seq w ->
  reads d' (trace w) = reads d' (trace w_seq).
Proof.
  intros (wu & -> & ->).
  destruct (arrivals_arrived d (closing s) wu)
    as [_ _ _ (tr & Htr & Hc) _ _ _].
  destruct (client_events_neutral d' tr Hc) as (Hr & _ & _).
  cbn [emit snd trace set_trace]. rewrite Htr, !reads_app, Hr.
  now rewrite app_nil_r.
Qed.

(** Lines 168-177, when no owner frees its record under the loop:
    everybody is signalled, with the error if there is one, and the list
    is left empty, in a session that is still in the list of sessions. *)
Lemma drain_phase (s : Schedule) (d : nat) (code : Z) (w : World) :
  unhurried s ->
  let rd := read_thd_drain_racing s d code w in
  fst rd = Valid tt /\
  signalled (snd rd) = signalled w ++ drained code (waiters d w) /\
  files (snd rd) = files w /\
  next_thd (snd rd) = next_thd w /\
  devlist_lock (snd rd) = devlist_lock w /\
  (registered d w -> registered d (snd rd) /\ waiters d (snd rd) = []).
Proof.
  intros Hs. cbv zeta. unfold read_thd_drain_racing, bind.
  pose proof (lock_thdlist_silent d d w) as [Hw1 Hr1 Hf1 Hs1 Hn1 _].
  assert (Hl1 : devlist_lock (snd (lock_thdlist d w)) = devlist_lock w)
    by reflexivity.
  destruct (lock_thdlist d w) as [[] w1]. cbn [snd] in *.
  unfold get_thdlist. rewrite Hw1.
  rewrite drain_racing_benign by (intros; apply Hs).
  pose proof (drain_obs code (waiters d w) w1) as ([Hd2 Hl2 _ Hn2] & Hf2 & Hs2).
  cbv zeta in Hd2, Hl2, Hn2, Hf2, Hs2.
  destruct (drain code (waiters d w) w1) as [[] w2]. cbn [fst snd] in *.
  assert (Hput : registered d w2 ->
                 waiters d (snd (put_thdlist d [] w2)) = [] /\
                 registered d (snd (put_thdlist d [] w2)))
    by apply put_thdlist_registered.
  assert (Hfp : files (snd (put_thdlist d [] w2)) = files w2) by reflexivity.
  assert (Hsp : signalled (snd (put_thdlist d [] w2)) = signalled w2)
    by reflexivity.
  assert (Hnp : next_thd (snd (put_thdlist d [] w2)) = next_thd w2)
    by reflexivity.
  assert (Hlp : devlist_lock (snd (put_thdlist d [] w2)) = devlist_lock w2)
    by reflexivity.
  destruct (put_thdlist d [] w2) as [[] w3]. cbn [snd] in *.
  pose proof (unlock_thdlist_silent d d w3) as [Hw4 Hr4 Hf4 Hs4 Hn4 _].
  assert (Hl4 : devlist_lock (snd (unlock_thdlist d w3)) = devlist_lock w3)
    by reflexivity.
  destruct (unlock_thdlist d w3) as [[] w4]. cbn [fst snd pure] in *.
  split; [reflexivity|]. split; [congruence|]. split; [congruence|].
  split; [congruence|]. split; [congruence|].
  intros Hreg.
  assert (Hreg2 : registered d w2)
    by (unfold registered; rewrite Hd2; now apply Hr1).
  destruct (Hput Hreg2) as [Hempty Hreg3].
  split; [now apply Hr4|congruence].
Qed.

(** Lines 168-190 in two phases. *)
Lemma exit_phases (s : Schedule) (d : nat) (code : Z) (w : World) :
  unhurried s ->
  read_thd_exit_racing s d code w =
  (Valid tt,
   snd (read_thd_leave_racing s d (snd (read_thd_drain_racing s d code w)))).
Proof.
  intros Hs. unfold read_thd_exit_racing, bind.
  destruct (drain_phase s d code w Hs) as (Hv & _).
  destruct (read_thd_drain_racing s d code w) as [r wd]. cbn [fst snd] in *.
  subst r. now destruct (read_thd_leave_racing s d wd) as [[] wx].
Qed.

(** Lines 179-184: the session leaves the list, the lock is released,
    and the device is closed after the requests that came in between. *)
Lemma leave_phase (s : Schedule) (d : nat) (w : World) :
  let wx := snd (read_thd_leave_racing s d w) in
  signalled wx = signalled w /\ files wx = files w /\
  (closing s = [] ->
   find_entry d (devlist_head wx) = None /\ devlist_lock wx = false /\
   next_thd wx = next_thd w).
Proof.
  cbv zeta. unfold read_thd_leave_racing, bind, unlock_devlist, emit.
  cbv beta iota.
  match goal with
  | |- context [arrivals (closing s) ?w0] =>
      destruct (arrivals_arrived d (closing s) w0) as [Hf Hsg _ _ _ _ _];
      assert (Hnil : closing s = [] -> snd (arrivals (closing s) w0) = w0)
        by (intros ->; reflexivity);
      destruct (arrivals (closing s) w0) as [[] wc]
  end.
  cbn [snd fst] in *.
  split; [exact Hsg|]. split; [exact Hf|].
  intros Hc. rewrite (Hnil Hc). cbn.
  split; [apply find_entry_remove|]. now split.
Qed.

Section Leaving.

Variable strerror_r : Z -> string.

(** A turn that starts after a failed read goes straight to the exit. *)
Lemma step_racing_failed (s : Schedule) (d : nat) (size max_size : Z)
    (env : Env) (ret : Z) (w : World) :
  unhurried s -> ret < 0 ->
  read_thd_step_racing strerror_r s d size max_size env ret w =
  (Valid Terminated,
   snd (read_thd_exit_racing s d ret
          (snd (lock_devlist (snd (arrivals (before env) w)))))).
Proof.
  intros Hs Hneg. apply Z.ltb_lt in Hneg.
  unfold read_thd_step_racing, read_thd_iteration_racing, bind.
  destruct (arrivals (before env) w) as [[] w1]. cbn [snd].
  destruct (lock_devlist w1) as [[] wa]. rewrite Hneg. cbn [pure snd].
  rewrite !exit_phases by assumption. reflexivity.
Qed.


End Leaving.

Lemma signalled_tids (code : Z) (l sg : list ThdEntry) :
  NoDup (map tid (l ++ sg)) ->
  NoDup (map tid (sg ++ map (set_err code) l)).
Proof.
  intros Hnd. rewrite map_app, map_map.
  change (map (fun x => tid (set_err code x)) l) with (map tid l).
  rewrite map_app in Hnd.
  exact (Permutation_NoDup (Permutation_app_comm _ _) Hnd).
Qed.

(** The call of a request whose record was signalled with a negative code
    while its owner was waiting returns the code. *)
Lemma read_buffer_wait_error (s : Schedule) (code : Z) (t : ThdEntry)
    (size : Z) (w : World) :
  code < 0 ->
  NoDup (map tid (signalled w)) -> In (set_err code t) (signalled w) ->
  parked s (tid t) = true ->
  read_buffer_wait s (nb t) size (tid t) w = Returns (Some code).
Proof.
  intros Hneg Hnd Hin Hp.
  pose proof (read_buffer_wait_returns s (nb t) size (set_err code t) w Hnd
                Hin Hp) as Hw.
  cbn [tid set_err] in Hw. rewrite Hw.
  unfold read_buffer_return. cbn [err set_err].
  apply Z.ltb_lt in Hneg. now rewrite Hneg.
Qed.

Section Failures.

Variable strerror_r : Z -> string.

(** X11.  When the buffer of a round of a session in the list of sessions
    cannot be allocated and no owner frees its record under the worker's
    loop, the worker issues no
    hardware read and leaves in that turn: everybody attached is signalled
    with the code -12 ([-ENOMEM]), and nobody else is; a call whose owner
    was waiting when its record was signalled returns -12; if no request
    is served while the worker leaves, the device has no session any
    more. *)
Theorem allocation_failure_ends_session
    (s : Schedule) (d : nat) (size max_size : Z) (env : Env) (ret : Z)
    (w : World) :
  unhurried s -> registered d w -> tidy d w ->
  Forall wf_request (before env) ->
  0 <= ret -> malloc_buf env = false ->
  waiters d (snd (arrivals (before env) w)) <> [] ->
  let attached := waiters d (snd (arrivals (before env) w)) in
  let r := read_thd_step_racing strerror_r s d size max_size env ret w in
  fst r = Valid Terminated /\
  reads d (trace (snd r)) = reads d (trace w) /\
  signalled (snd r) = signalled w ++ map (set_err (-12)) attached /\
  (forall t, In t attached -> parked s (tid t) = true ->
     read_buffer_wait s (nb t) size (tid t) (snd r) = Returns (Some (-12))) /\
  (closing s = [] -> find_entry d (devlist_head (snd r)) = None).
Proof.
  intros Hs _ Htidy Hbefore Hret Hm Hne. cbv zeta.
  destruct (step_racing_benign strerror_r s d size max_size env ret w Hs)
    as [Hfst Hsnd].
  rewrite step_no_memory in Hfst, Hsnd by assumption. cbn [fst snd] in *.
  pose proof (arrivals_arrived d (before env) w) as Harr.
  pose proof (arrived_tidy _ _ _ _ Harr Hbefore Htidy) as [Hnd1 _ _ _].
  destruct Harr as [_ Hs1 _ (tr0 & Ht0 & Hc0) _ _ _].
  set (w1 := snd (arrivals (before env) w)) in *.
  pose proof (lock_devlist_silent d w1) as H1.
  pose proof (lock_thdlist_silent d d (snd (lock_devlist w1))) as H2.
  pose proof (unlock_thdlist_silent d d
                (snd (lock_thdlist d (snd (lock_devlist w1))))) as H3.
  pose proof (silent_trans _ _ _ _ _ _ H1 (silent_trans _ _ _ _ _ _ H2 H3))
    as [Hw2 _ _ Hs2 _ Ht2].
  destruct (read_thd_exit_obs d (- ENOMEM)
              (snd (unlock_thdlist d
                      (snd (lock_thdlist d (snd (lock_devlist w1)))))))
    as [Hgone _ Hsx Htx _ _].
  destruct (closes_after_streams _ _ _ _ Hsnd) as [_ Hsig].
  assert (Hall : signalled
                   (snd (read_thd_step_racing strerror_r s d size max_size
                           env ret w)) =
                 signalled w ++ map (set_err (-12)) (waiters d w1)).
  { rewrite Hsig, Hsx, Hw2, Hs2, Hs1.
    now rewrite drained_error by (unfold ENOMEM; lia). }
  split; [exact Hfst|]. split; [|split; [exact Hall|split]].
  - rewrite (closes_after_reads _ _ d _ _ Hsnd).
    rewrite Htx, Ht2, Ht0, !reads_app.
    destruct (client_events_neutral d tr0 Hc0) as (-> & _ & _).
    cbn. now rewrite !app_nil_r.
  - intros t Ht Hp. apply read_buffer_wait_error; try assumption; try lia.
    + rewrite Hall, <- Hs1. now apply signalled_tids.
    + rewrite Hall. apply in_or_app. right. now apply in_map.
  - intros Hc. now rewrite (closes_after_nobody _ _ _ _ Hsnd Hc).
Qed.

(** X18.  What the exit does after a failed hardware read, when no owner
    frees its record under the worker's loop.  The read of a round has
    failed with the code [r < 0]; in the next turn the worker leaves.
    After its last loop (lines 168-177) the session is still in the list
    of sessions and its list of records is empty: every record attached
    when the worker took the locks in that turn - among them every record
    that was attached when the round that failed took them - has been
    removed and signalled with [err = r], and nobody else has.  A call
    whose owner was waiting when its record was signalled returns [r].  If
    no request is served while the worker leaves, the device has no
    session any more, and a later request for it, for which
    [iio_device_open] and [pthread_create] succeed, opens the device and
    puts a new session for it, with the sample size of the request, at
    the head of the list of sessions. *)
Theorem hardware_error_ends_session
    (s : Schedule) (d : nat) (size max_size : Z) (env env' : Env)
    (ret r : Z) (w w1 : World) :
  unhurried s -> 0 < size -> registered d w -> tidy d w -> wf_env env ->
  Forall wf_request (before env') ->
  read_thd_step_racing strerror_r s d size max_size env ret w =
    (Valid (Running r), w1) ->
  r < 0 ->
  let wa := snd (lock_devlist (snd (arrivals (before env') w1))) in
  let wd := snd (read_thd_drain_racing s d r wa) in
  let st := read_thd_step_racing strerror_r s d size max_size env' r w1 in
  fst st = Valid Terminated /\
  snd st = snd (read_thd_leave_racing s d wd) /\
  (forall t, In t (waiters d (snd (arrivals (before env) w))) ->
             In t (waiters d wa)) /\
  registered d wd /\ waiters d wd = [] /\
  signalled wd = signalled w1 ++ map (set_err r) (waiters d wa) /\
  signalled (snd st) = signalled wd /\
  (forall t, In t (waiters d wa) -> parked s (tid t) = true ->
     read_buffer_wait s (nb t) size (tid t) (snd st) = Returns (Some r)) /\
  (closing s = [] ->
   find_entry d (devlist_head (snd st)) = None /\
   forall sys pdata n size',
     malloc_thd sys = true -> malloc_entry sys = true ->
     open_ret sys = 0 -> create_ret sys = 0 ->
     let a := read_buffer_attach sys pdata d n size' (snd st) in
     (exists e,
        devlist_head (snd a) = e :: devlist_head (snd st) /\
        dev e = d /\ sample_size e = size') /\
     trace (snd a) = trace (snd st) ++ [Open d]).
Proof.
  intros Hs Hsize _ Htidy Hwf Hbefore' Hstep Hr. cbv zeta.
  (* the round that failed *)
  destruct (step_racing_benign strerror_r s d size max_size env ret w Hs)
    as [Hfst Hsnd].
  rewrite Hstep in Hfst, Hsnd. cbn [fst snd] in Hfst, Hsnd.
  injection Hfst as Hseq. rewrite <- Hseq in Hsnd.
  destruct (step_tidy strerror_r d size max_size env ret w Hsize Htidy Hwf)
    as (Htidy1 & _).
  rewrite <- Hsnd in Htidy1.
  destruct (step_cases strerror_r d size max_size env ret w)
    as [(Hret & Hne & Hm & Heq)|(w2 & ret' & _ & _ & _ & Heq)];
    rewrite Heq in Hseq; [|discriminate].
  cbn [fst] in Hseq. injection Hseq as Hr_eq.
  rewrite Heq in Hsnd. cbn [snd] in Hsnd. clear Heq.
  set (wk := snd (arrivals (before env) w)) in *.
  destruct (round_world_obs strerror_r d size max_size env wk
              (waiters_nonempty_registered d wk Hne))
    as [new tr wb _ _ _ _ _ _ Hw5 _ _ _ _ _ _].
  rewrite <- Hsnd, <- Hr_eq in Hw5.
  destruct (broadcast_error strerror_r size r
              (hw_buf (hw env (round_len d size max_size wk)))
              (u64 (Z.quot r size)) (new ++ waiters d wk) Hr wb) as [Hkept _].
  rewrite Hkept in Hw5. clear Hkept.
  (* the turn in which the worker leaves *)
  rewrite step_racing_failed by assumption. cbn [fst snd].
  rewrite exit_phases by assumption. cbn [snd].
  pose proof (arrivals_arrived d (before env') w1) as Harr.
  pose proof (arrived_tidy _ _ _ _ Harr Hbefore' Htidy1) as [Hnda _ _ _].
  destruct Harr as [_ Hsa _ _ _ _ (new' & Hwa & _ & _)].
  set (wa0 := snd (arrivals (before env') w1)) in *.
  destruct (lock_devlist_silent d wa0) as [Hwl _ _ Hsl _ _].
  set (wa := snd (lock_devlist wa0)) in *.
  assert (Hlist : waiters d wa = new' ++ new ++ waiters d wk)
    by (rewrite Hwl, Hwa, Hw5; reflexivity).
  assert (Hrega : registered d wa).
  { apply waiters_nonempty_registered. rewrite Hlist.
    destruct (waiters d wk); [contradiction|].
    destruct new', new; discriminate. }
  destruct (drain_phase s d r wa Hs)
    as (_ & Hsd & _ & Hnd & Hld & Hregd).
  destruct (Hregd Hrega) as [Hregd' Hempty].
  set (wd := snd (read_thd_drain_racing s d r wa)) in *.
  destruct (leave_phase s d wd) as (Hsx & _ & Hquiet).
  assert (Hall : signalled wd = signalled w1 ++ map (set_err r) (waiters d wa)).
  { rewrite Hsd, Hsl, Hsa. now rewrite drained_error by assumption. }
  split; [reflexivity|]. split; [reflexivity|].
  split; [|split; [exact Hregd'|split; [exact Hempty|split; [exact Hall|]]]].
  { intros t Ht. rewrite Hlist. apply in_or_app. right.
    apply in_or_app. now right. }
  split; [exact Hsx|]. split.
  - intros t Ht Hp. apply read_buffer_wait_error; try assumption.
    + rewrite Hsx, Hall, <- Hsa, Hwl. now apply signalled_tids.
    + rewrite Hsx, Hall. apply in_or_app. right. now apply in_map.
  - intros Hc. destruct (Hquiet Hc) as (Hgone & Hlock & _).
    split; [exact Hgone|].
    intros sys pdata n size' H1 H2 H3 H4. cbv zeta.
    unfold read_buffer_attach. rewrite Hlock, Hgone, H1, H2, H3, H4.
    cbn. split; [|reflexivity].
    eexists. repeat split.
Qed.

End Failures.

(** ** A request that comes during the hardware read *)

Section Newcomer.

Variable strerror_r : Z -> string.




End Newcomer.

(** ** The device of a session *)

Section Device.

Variable strerror_r : Z -> string.

Lemma read_thd_calls (entry : DevEntry) (envs : list Env) (w : World) :
  registered (dev entry) w ->
  let st := read_thd strerror_r entry envs w in
  opens (dev entry) (trace (snd st)) = opens (dev entry) (trace w) /\
  closes (dev entry) (trace (snd st)) =
    (closes (dev entry) (trace w) +
     match fst st with Terminated => 1 | _ => 0 end)%nat.
Proof.
  intros Hreg. cbv zeta. unfold read_thd.
  destruct (sample_size entry =? 0); [cbn; split; lia|].
  now apply loop_calls.
Qed.

(** The worker that has left has taken its session out of the list and
    released [devlist_lock]. *)
Lemma loop_left (d : nat) (size max_size : Z) (envs : list Env) :
  forall ret w,
    fst (read_thd_loop strerror_r d size max_size envs ret w) = Terminated ->
    find_entry d
      (devlist_head (snd (read_thd_loop strerror_r d size max_size envs ret w)))
      = None /\
    devlist_lock (snd (read_thd_loop strerror_r d size max_size envs ret w)) =
      false.
Proof.
  induction envs as [|env rest IH]; intros ret w Hst; [discriminate|].
  cbn [read_thd_loop] in *. unfold bind in *.
  destruct (step_cases strerror_r d size max_size env ret w)
    as [(_ & _ & _ & Heq)|(w2 & ret' & _ & _ & _ & Heq)];
    rewrite Heq in *; cbn [fst snd] in *.
  - now apply IH.
  - cbn [pure fst snd].
    destruct (read_thd_exit_obs d ret' w2) as [Hg _ _ _ Hl _].
    now split.
Qed.

(** X16.  As long as the worker of a session is in its loop, nobody opens
    or closes the session's device: requests that come at the top of a
    turn or during the hardware read find the session and join it, and the
    worker opens nothing.  When the worker leaves, it takes the session
    out of the list and releases [devlist_lock] with the device still
    open, neither opened nor closed since the worker started; its
    [iio_device_close] is the last thing it does, after whatever the
    requests served in between - which find no session for the device -
    have done. *)
Theorem session_closes_device_once
    (s : Schedule) (entry : DevEntry) (envs : list Env) (w : World) :
  registered (dev entry) w ->
  let d := dev entry in
  let st := read_thd_racing strerror_r s entry envs w in
  match fst st with
  | Valid Terminated =>
      exists wu,
        opens d (trace wu) = opens d (trace w) /\
        closes d (trace wu) = closes d (trace w) /\
        find_entry d (devlist_head wu) = None /\
        devlist_lock wu = false /\
        snd st = snd (emit (Close d) (snd (arrivals (closing s) wu)))
  | Valid _ =>
      opens d (trace (snd st)) = opens d (trace w) /\
      closes d (trace (snd st)) = closes d (trace w)
  | Undefined _ => True
  end.
Proof.
  intros Hreg. cbv zeta.
  pose proof (read_thd_racing_valid strerror_r s entry envs w) as Hv.
  cbv zeta in Hv.
  destruct (read_thd_calls entry envs w Hreg) as [Ho Hc].
  cbv zeta in Ho, Hc.
  destruct (fst (read_thd_racing strerror_r s entry envs w)) as [st|t];
    [|exact I].
  destruct Hv as [Hst Hw]. rewrite <- Hst in Hc.
  destruct st as [ret| |].
  - rewrite Hw. split; [exact Ho|]. rewrite Hc. lia.
  - destruct Hw as (wu & Hseq & Hrac).
    assert (Hgone : find_entry (dev entry)
                      (devlist_head (snd (read_thd strerror_r entry envs w))) =
                    None /\
                    devlist_lock (snd (read_thd strerror_r entry envs w)) =
                    false).
    { unfold read_thd in *.
      destruct (sample_size entry =? 0); [discriminate|].
      now apply loop_left. }
    rewrite Hseq in Ho, Hc, Hgone.
    unfold emit in Ho, Hc, Hgone. cbn [snd trace set_trace] in Ho, Hc.
    cbn [snd devlist_head devlist_lock set_trace] in Hgone.
    rewrite opens_app in Ho. rewrite closes_app in Hc.
    cbn in Ho, Hc. rewrite Nat.eqb_refl in Hc. cbn in Hc.
    exists wu. split; [lia|]. split; [lia|].
    split; [exact (proj1 Hgone)|]. split; [exact (proj2 Hgone)|exact Hrac].
  - rewrite Hw. split; [exact Ho|]. rewrite Hc. lia.
Qed.

End Device.

(** * Runs of the worker among the requests *)




Lemma failing_read_wf : wf_env (calm failing_read).
Proof.
  split; [apply Forall_nil|]. split; [apply Forall_nil|].
  intros len. cbn. lia.
Qed.

Lemma patient_unhurried : unhurried patient.
Proof. intros thd. reflexivity. Qed.



Lemma two_waiter_registered : registered 7 two_waiter_world.
Proof. unfold registered. cbn. discriminate. Qed.


Lemma two_waiter_tidy : tidy 7 two_waiter_world.
Proof.
  constructor.
  - cbn. apply NoDup_cons; [intros [H|[]]; discriminate|].
    apply NoDup_cons; [intros []|apply NoDup_nil].
  - cbn. apply Forall_cons; [cbn; lia|].
    apply Forall_cons; [cbn; lia|apply Forall_nil].
  - cbn. apply Forall_cons; [unfold wf_thd; cbn; lia|].
    apply Forall_cons; [unfold wf_thd; cbn; lia|apply Forall_nil].
  - exact no_files_healthy.
Qed.


(** ** Where the design document and the code part, among the requests *)




(** C5.  The read of the first round fails with [-5].
    (a) Two waiters whose owners free their records as soon as they are
    woken: the last loop signals the first with [-5] and then reads the
    [next] field of its record, which has been freed; the second waiter is
    still in the list, has not been signalled, and its call is not
    woken.
    (b) One waiter whose owner has not reached [pthread_cond_wait] when
    its record is signalled: the record carries [-5] and the worker ends,
    but nobody was waiting for the signal, and the call waits for ever.
    (c) A request for the device that is served after the worker has
    released [devlist_lock] opens the device and starts a new session;
    the worker then closes the device. *)
Theorem hardware_error_code_not_delivered :
  (fst (read_thd_racing messages eager (mkDev 7 4 [] false)
          [calm failing_read; calm failing_read] two_waiter_world) =
     Undefined (mkThd 1 2 None 2 true) /\
   signalled (snd (read_thd_racing messages eager (mkDev 7 4 [] false)
                     [calm failing_read; calm failing_read]
                     two_waiter_world)) = [mkThd 1 2 (Some (-5)) 2 true] /\
   waiters 7 (snd (read_thd_racing messages eager (mkDev 7 4 [] false)
                     [calm failing_read; calm failing_read]
                     two_waiter_world)) = [mkThd 0 3 None 1 false] /\
   read_buffer_wait eager 3 4 0
     (snd (read_thd_racing messages eager (mkDev 7 4 [] false)
             [calm failing_read; calm failing_read] two_waiter_world)) =
     Blocks) /\
  (fst (read_thd_racing messages tardy (mkDev 7 4 [] false)
          [calm failing_read; calm failing_read]
          (one_waiter_world false 100)) = Valid Terminated /\
   signalled (snd (read_thd_racing messages tardy (mkDev 7 4 [] false)
                     [calm failing_read; calm failing_read]
                     (one_waiter_world false 100))) =
     [mkThd 0 100 (Some (-5)) 1 false] /\
   read_buffer_wait tardy 100 4 0
     (snd (read_thd_racing messages tardy (mkDev 7 4 [] false)
             [calm failing_read; calm failing_read]
             (one_waiter_world false 100))) = Blocks) /\
  (fst (read_thd_racing messages reopening (mkDev 7 4 [] false)
          [calm failing_read; calm failing_read] opened_world) =
     Valid Terminated /\
   devices
     (devlist_head
        (snd (read_thd_racing messages reopening (mkDev 7 4 [] false)
                [calm failing_read; calm failing_read] opened_world))) =
     [7%nat] /\
   exists tr,
     trace (snd (read_thd_racing messages reopening (mkDev 7 4 [] false)
                   [calm failing_read; calm failing_read] opened_world)) =
     tr ++ [Unlock Devlist; Open 7; Close 7]).
Proof.
  vm_compute. repeat split.
  exists [Open 7; Lock Devlist; Lock (Thdlist 7); Unlock (Thdlist 7);
          Unlock Devlist; ReadRaw 7 4; Lock (Thdlist 7); Unlock (Thdlist 7);
          Lock Devlist; Lock (Thdlist 7); Unlock (Thdlist 7)].
  reflexivity.
Qed.



(** No memory for the buffer of the first round of a session with two
    waiters. *)
Lemma allocation_failure_ends_session_witness :
  fst (read_thd_step_racing messages patient 7 4 256
         (mkEnv [] false [] full_read) 0 two_waiter_world) =
    Valid Terminated /\
  signalled (snd (read_thd_step_racing messages patient 7 4 256
                    (mkEnv [] false [] full_read) 0 two_waiter_world)) =
    [mkThd 1 2 (Some (-12)) 2 true; mkThd 0 3 (Some (-12)) 1 false] /\
  read_buffer_wait patient 3 4 0
    (snd (read_thd_step_racing messages patient 7 4 256
            (mkEnv [] false [] full_read) 0 two_waiter_world)) =
    Returns (Some (-12)) /\
  find_entry 7
    (devlist_head
       (snd (read_thd_step_racing messages patient 7 4 256
               (mkEnv [] false [] full_read) 0 two_waiter_world))) = None.
Proof.
  destruct (allocation_failure_ends_session messages patient 7 4 256
              (mkEnv [] false [] full_read) 0 two_waiter_world)
    as (H1 & _ & H3 & H4 & H5).
  - exact patient_unhurried.
  - exact two_waiter_registered.
  - exact two_waiter_tidy.
  - apply Forall_nil.
  - lia.
  - reflexivity.
  - cbn. discriminate.
  - split; [exact H1|]. split; [exact H3|]. split.
    + exact (H4 (mkThd 0 3 None 1 false) (or_intror (or_introl eq_refl))
                eq_refl).
    + exact (H5 eq_refl).
Defined.

(** A round of eight bytes for two records owed two and three samples:
    the loop serves and signals the first, whose owner lets it go on, and
    the second gets the same eight bytes. *)
Lemma broadcast_same_bytes_witness :
  written
    (files (snd (broadcast_racing messages patient 4 (hw_ret (full_read 8))
                   (hw_buf (full_read 8))
                   (u64 (Z.quot (hw_ret (full_read 8)) 4))
                   ([mkThd 1 2 None 2 true] ++ mkThd 0 3 None 1 false :: [])
                   two_waiter_world)) 1) =
  repeat "x"%char 8.
Proof.
  refine (broadcast_same_bytes messages patient 4 (full_read 8)
            [mkThd 1 2 None 2 true] (mkThd 0 3 None 1 false) []
            two_waiter_world _ _ _ _ _).
  - lia.
  - apply full_read_fits.
  - exact no_files_healthy.
  - cbn. apply NoDup_cons; [intros [H|[]]; discriminate|].
    apply NoDup_cons; [intros []|apply NoDup_nil].
  - intros t _. reflexivity.
Defined.

(** The same round, on the stream of the second record, which is not
    verbose: the line with the byte count, then the buffer in one
    piece. *)
Lemma round_frame_witness :
  contents
    (files (snd (broadcast_racing messages patient 4 (hw_ret (full_read 8))
                   (hw_buf (full_read 8))
                   (u64 (Z.quot (hw_ret (full_read 8)) 4))
                   ([mkThd 1 2 None 2 true] ++ mkThd 0 3 None 1 false :: [])
                   two_waiter_world)) 1) =
  [Printed ("8" ++ nl)%string; Written (repeat "x"%char 8)].
Proof.
  refine (round_frame messages patient 4 (full_read 8)
            [mkThd 1 2 None 2 true] (mkThd 0 3 None 1 false) []
            two_waiter_world _ _ _ _ _).
  - lia.
  - apply full_read_fits.
  - exact no_files_healthy.
  - cbn. apply NoDup_cons; [intros [H|[]]; discriminate|].
    apply NoDup_cons; [intros []|apply NoDup_nil].
  - intros t _. reflexivity.
Defined.


(** A session whose only request is served by the first round, with a
    request for the same device that comes while the worker leaves: when
    the worker releases [devlist_lock] the device has been opened once,
    by the first request, and never closed; the worker's close comes
    after the newcomer has been served. *)
Lemma session_closes_device_once_witness :
  exists wu,
    opens 7 (trace wu) = 1%nat /\
    closes 7 (trace wu) = 0%nat /\
    find_entry 7 (devlist_head wu) = None /\
    devlist_lock wu = false /\
    snd (read_thd_racing messages reopening (mkDev 7 4 [] false)
           (repeat (calm full_read) 3) opened_world) =
    snd (emit (Close 7) (snd (arrivals [late_two] wu))).
Proof.
  assert (E : fst (read_thd_racing messages reopening (mkDev 7 4 [] false)
                     (repeat (calm full_read) 3) opened_world) =
              Valid Terminated) by (vm_compute; reflexivity).
  pose proof (session_closes_device_once messages reopening
                (mkDev 7 4 [] false) (repeat (calm full_read) 3) opened_world)
    as H.
  cbv zeta in H. rewrite E in H. apply H.
  unfold registered. vm_compute. discriminate.
Defined.

(** The read of the first round of a session with two waiters fails with
    [-5]; the owners are waiting and let the worker go on.  The next turn
    empties the list of records of the session, which is still in the
    list of sessions, and signals both records with [-5]; the call of the
    waiter owed three samples returns [-5]. *)
Lemma hardware_error_ends_session_witness :
  fst (read_thd_step_racing messages patient 7 4 256 (calm failing_read)
         (-5)
         (snd (read_thd_step_racing messages patient 7 4 256
                 (calm failing_read) 0 two_waiter_world))) =
    Valid Terminated /\
  registered 7
    (snd (read_thd_drain_racing patient 7 (-5)
            (snd (lock_devlist
                    (snd (arrivals []
                            (snd (read_thd_step_racing messages patient 7 4
                                    256 (calm failing_read) 0
                                    two_waiter_world)))))))) /\
  waiters 7
    (snd (read_thd_drain_racing patient 7 (-5)
            (snd (lock_devlist
                    (snd (arrivals []
                            (snd (read_thd_step_racing messages patient 7 4
                                    256 (calm failing_read) 0
                                    two_waiter_world)))))))) = [] /\
  read_buffer_wait patient 3 4 0
    (snd (read_thd_step_racing messages patient 7 4 256 (calm failing_read)
            (-5)
            (snd (read_thd_step_racing messages patient 7 4 256
                    (calm failing_read) 0 two_waiter_world)))) =
    Returns (Some (-5)).
Proof.
  destruct (hardware_error_ends_session messages patient 7 4 256
              (calm failing_read) (calm failing_read) 0 (-5)
              two_waiter_world
              (snd (read_thd_step_racing messages patient 7 4 256
                      (calm failing_read) 0 two_waiter_world)))
    as (Hend & _ & _ & Hreg & Hempty & _ & _ & Hcall & _).
  - exact patient_unhurried.
  - lia.
  - exact two_waiter_registered.
  - exact two_waiter_tidy.
  - exact failing_read_wf.
  - apply Forall_nil.
  - vm_compute. reflexivity.
  - lia.
  - split; [exact Hend|]. split; [exact Hreg|]. split; [exact Hempty|].
    apply (Hcall (mkThd 0 3 None 1 false)).
    + vm_compute. right. left. reflexivity.
    + reflexivity.
Defined.

(** X19.  The worker closes the device after it has given up
    [devlist_lock].  A session serves its only request in one round; the
    worker takes the session out of the list and releases the lock (line
    182); a request for the same device that is served then finds no
    session, opens the device again and starts a new session; and the
    worker closes the device (line 184).  The device has been opened
    twice and closed once, after the second opening: the new session is
    in the list of sessions, for a device that its predecessor has
    closed. *)
Theorem device_closed_under_new_session :
  fst (read_thd_racing messages reopening (mkDev 7 4 [] false)
         (repeat (calm full_read) 3) opened_world) = Valid Terminated /\
  signalled (snd (read_thd_racing messages reopening (mkDev 7 4 [] false)
                    (repeat (calm full_read) 3) opened_world)) =
    [mkThd 0 0 (Some 0) 1 false] /\
  devices
    (devlist_head (snd (read_thd_racing messages reopening
                          (mkDev 7 4 [] false) (repeat (calm full_read) 3)
                          opened_world))) = [7%nat] /\
  opens 7 (trace (snd (read_thd_racing messages reopening
                         (mkDev 7 4 [] false) (repeat (calm full_read) 3)
                         opened_world))) = 2%nat /\
  closes 7 (trace (snd (read_thd_racing messages reopening
                          (mkDev 7 4 [] false) (repeat (calm full_read) 3)
                          opened_world))) = 1%nat /\
  exists tr,
    trace (snd (read_thd_racing messages reopening (mkDev 7 4 [] false)
                  (repeat (calm full_read) 3) opened_world)) =
    tr ++ [Unlock Devlist; Open 7; Close 7].
Proof.
  vm_compute. repeat split.
  exists [Open 7; Lock Devlist; Lock (Thdlist 7); Unlock (Thdlist 7);
          Unlock Devlist; ReadRaw 7 4; Lock (Thdlist 7); Unlock (Thdlist 7);
          Lock Devlist; Lock (Thdlist 7); Unlock (Thdlist 7);
          Lock (Thdlist 7); Unlock (Thdlist 7)].
  reflexivity.
Qed.
